(** * Call-graph slicer and C function remover: a shallow embedding

    The development embeds the pure core of [lang-graph/slicer.py] and of
    [lang-graph/app.py]: the textual call-graph parser, the two work-list
    traversals, the pointer-usage scanner, the static decision, and the
    brace-matching function remover.

    Conventions.
    - A Python [str] is a list of characters ([str] below).  Characters are
      Rocq's [ascii], i.e. code points 0..255; the Unicode tables used by
      Python ([\s], [\w], [\d], case folding, line boundaries) are written
      out for that range.
    - A Python [int] is a [Z].
    - A [dict] from names to sets of names is a [gmap str (gset str)].
    - The [re] module is embedded as a small backtracking matcher over the
      constructs the source patterns use. *)

From Stdlib Require Import ZArith Ascii String.
From stdpp Require Import gmap strings list sorting.

Set Warnings "-clear-no-such-hyp".

Open Scope Z_scope.

Abbreviation str := (list ascii).

(** A literal of the source, as a list of characters. *)
Definition lit_str (s : string) : str := list_ascii_of_string s.

(* ===================================================================== *)
(** * Characters *)
(* ===================================================================== *)
Module Char.

Definition code (c : ascii) : N := N_of_ascii c.

Definition between (lo hi : N) (c : ascii) : bool :=
  ((lo <=? code c) && (code c <=? hi))%N.

Definition eqc (c0 c : ascii) : bool := Ascii.eqb c0 c.
Definition neqc (c0 c : ascii) : bool := negb (eqc c0 c).

Definition nl : ascii := ascii_of_N 10.
Definition cr : ascii := ascii_of_N 13.
Definition dquote : ascii := ascii_of_N 34.

(** [str.isspace] on one character, [\s] of [re], and the set stripped by
    [str.strip]: the code points with [Py_UNICODE_ISSPACE]. *)
Definition isspace (c : ascii) : bool :=
  between 9 13 c || between 28 32 c || eqc (ascii_of_N 133) c
  || eqc (ascii_of_N 160) c.

(** [\d] of [re] on [str] patterns: decimal digits. *)
Definition isdigit (c : ascii) : bool := between 48 57 c.

Definition is_ascii_letter (c : ascii) : bool :=
  between 65 90 c || between 97 122 c.

(** [\w] of [re] on [str] patterns: [str.isalnum] or an underscore. *)
Definition isword (c : ascii) : bool :=
  is_ascii_letter c || isdigit c || eqc "_"%char c
  || eqc (ascii_of_N 170) c || between 178 179 c || eqc (ascii_of_N 181) c
  || between 185 186 c || between 188 190 c
  || between 192 214 c || between 216 246 c || between 248 255 c.

(** Simple lower-casing, the comparison key of [re.IGNORECASE]. *)
Definition lower (c : ascii) : ascii :=
  if between 65 90 c || between 192 214 c || between 216 222 c
  then ascii_of_N (code c + 32) else c.

(** Line boundaries of [str.splitlines] (below 256). *)
Definition is_linebreak (c : ascii) : bool :=
  between 10 13 c || between 28 30 c || eqc (ascii_of_N 133) c.

End Char.

(* ===================================================================== *)
(** * The [re] module *)
(* ===================================================================== *)
Module Re.

(** The pattern constructs that occur in the source.  Repetition is only
    ever applied to a single character class there. *)
Inductive regex : Type :=
| Eps
| Chr (c : ascii)                          (* a literal character *)
| Cls (p : ascii → bool)                   (* [...] , \s , \w , \d *)
| Seq (r1 r2 : regex)
| Alt (r1 r2 : regex)                      (* r1|r2 *)
| Star (greedy : bool) (lo : nat) (p : ascii → bool)
                                           (* p* p+ (greedy), p*? p+? (lazy) *)
| Opt (r : regex)                          (* r? *)
| Grp (n : nat) (r : regex)                (* capturing group number n *)
| Bol                                      (* ^ under re.MULTILINE *)
| WordB                                    (* \b *)
| NotBehind (p : ascii → bool)             (* (?<![...]) *)
| NotAhead (p : ascii → bool).             (* (?![...]) *)

(** A literal run of characters; also what [re.escape(s)] matches. *)
Definition lit (s : str) : regex := foldr (λ c r, Seq (Chr c) r) Eps s.

Definition seqs (rs : list regex) : regex := foldr Seq Eps rs.

Record cursor := Cursor {
  pos : nat;                 (* index in the subject *)
  prev : option ascii;       (* the character before [pos], if any *)
  rest : str                 (* the subject from [pos] on *)
}.

(** Group spans, most recent first. *)
Definition caps := list (nat * (nat * nat)).

Definition cont := cursor → caps → option (cursor * caps).

Definition chr_eq (ic : bool) (c x : ascii) : bool :=
  if ic then Char.eqc (Char.lower c) (Char.lower x) else Char.eqc c x.

Definition wordish (o : option ascii) : bool :=
  match o with Some c => Char.isword c | None => false end.

Fixpoint star_greedy (p : ascii → bool) (lo : nat) (k : cont) (cs : caps)
    (i : nat) (pv : option ascii) (l : str) (cnt : nat)
    : option (cursor * caps) :=
  match l with
  | c :: tl =>
      if p c then
        match star_greedy p lo k cs (S i) (Some c) tl (S cnt) with
        | Some r => Some r
        | None => if (lo <=? cnt)%nat then k (Cursor i pv l) cs else None
        end
      else if (lo <=? cnt)%nat then k (Cursor i pv l) cs else None
  | [] => if (lo <=? cnt)%nat then k (Cursor i pv l) cs else None
  end.

Fixpoint star_lazy (p : ascii → bool) (lo : nat) (k : cont) (cs : caps)
    (i : nat) (pv : option ascii) (l : str) (cnt : nat)
    : option (cursor * caps) :=
  match (if (lo <=? cnt)%nat then k (Cursor i pv l) cs else None) with
  | Some r => Some r
  | None =>
      match l with
      | c :: tl =>
          if p c then star_lazy p lo k cs (S i) (Some c) tl (S cnt) else None
      | [] => None
      end
  end.

(** Backtracking matcher in continuation-passing style: alternatives are
    tried in the priority order of [re]. [ic] is [re.IGNORECASE]. *)
Fixpoint exec (ic : bool) (r : regex) (cu : cursor) (cs : caps) (k : cont)
    : option (cursor * caps) :=
  match r with
  | Eps => k cu cs
  | Chr c =>
      match rest cu with
      | x :: tl =>
          if chr_eq ic c x then k (Cursor (S (pos cu)) (Some x) tl) cs
          else None
      | [] => None
      end
  | Cls p =>
      match rest cu with
      | x :: tl =>
          if p x then k (Cursor (S (pos cu)) (Some x) tl) cs else None
      | [] => None
      end
  | Seq r1 r2 => exec ic r1 cu cs (λ cu' cs', exec ic r2 cu' cs' k)
  | Alt r1 r2 =>
      match exec ic r1 cu cs k with
      | Some x => Some x
      | None => exec ic r2 cu cs k
      end
  | Star g lo p =>
      if g then star_greedy p lo k cs (pos cu) (prev cu) (rest cu) 0
      else star_lazy p lo k cs (pos cu) (prev cu) (rest cu) 0
  | Opt r1 =>
      match exec ic r1 cu cs k with
      | Some x => Some x
      | None => k cu cs
      end
  | Grp n r1 =>
      exec ic r1 cu cs (λ cu' cs', k cu' ((n, (pos cu, pos cu')) :: cs'))
  | Bol =>
      match prev cu with
      | None => k cu cs
      | Some c => if Char.eqc Char.nl c then k cu cs else None
      end
  | WordB =>
      if xorb (wordish (prev cu)) (wordish (head (rest cu)))
      then k cu cs else None
  | NotBehind p =>
      match prev cu with
      | Some c => if p c then None else k cu cs
      | None => k cu cs
      end
  | NotAhead p =>
      match rest cu with
      | c :: _ => if p c then None else k cu cs
      | [] => k cu cs
      end
  end.

(** A match object: its span and its group spans. *)
Record rmatch := RMatch {
  m_start : nat;
  m_end : nat;
  m_caps : caps
}.

(** [must_advance]: refuse an empty match at the position where the
    previous (empty) match of an iteration ended. *)
Definition accept (must_advance : bool) (start : nat) : cont :=
  λ cu cs, if must_advance && (pos cu =? start)%nat then None
           else Some (cu, cs).

Definition match_at (ic : bool) (r : regex) (must_advance : bool)
    (cu : cursor) : option rmatch :=
  match exec ic r cu [] (accept must_advance (pos cu)) with
  | Some (cu', cs) => Some (RMatch (pos cu) (pos cu') cs)
  | None => None
  end.

(** [pattern.match(text)] *)
Definition rmatch_prefix (ic : bool) (r : regex) (text : str)
    : option rmatch :=
  match_at ic r false (Cursor 0 None text).

Fixpoint search_from (ic : bool) (r : regex) (i : nat) (pv : option ascii)
    (l : str) : option rmatch :=
  match match_at ic r false (Cursor i pv l) with
  | Some m => Some m
  | None =>
      match l with
      | c :: tl => search_from ic r (S i) (Some c) tl
      | [] => None
      end
  end.

(** [pattern.search(text)]: the leftmost match. *)
Definition search (ic : bool) (r : regex) (text : str) : option rmatch :=
  search_from ic r 0 None text.

(** The matches that start at cursor [cu], for an iteration whose next
    search starts here: the first match, and, when that one is empty, the
    non-empty match the scanner finds next at the same position. *)
Definition matches_here (ic : bool) (r : regex) (cu : cursor)
    : list rmatch :=
  match match_at ic r false cu with
  | None => []
  | Some m =>
      if (m_end m =? pos cu)%nat then
        match match_at ic r true cu with
        | Some m' => [m; m']
        | None => [m]
        end
      else [m]
  end.

Definition resume_after (ms : list rmatch) (i : nat) : nat :=
  match last ms with
  | Some m => if (m_end m =? i)%nat then S i else m_end m
  | None => S i
  end.

(** [pattern.finditer(text)]: successive non-overlapping matches, walking
    the subject once; [next] is where the next search may start. *)
Fixpoint finditer_from (ic : bool) (r : regex) (next : nat) (i : nat)
    (pv : option ascii) (l : str) : list rmatch :=
  if (i <? next)%nat then
    match l with
    | c :: tl => finditer_from ic r next (S i) (Some c) tl
    | [] => []
    end
  else
    let ms := matches_here ic r (Cursor i pv l) in
    match l with
    | c :: tl => ms ++ finditer_from ic r (resume_after ms i) (S i) (Some c) tl
    | [] => ms
    end.

Definition finditer (ic : bool) (r : regex) (text : str) : list rmatch :=
  finditer_from ic r 0 0 None text.

(** [text[a:b]] for [0 <= a], [0 <= b]. *)
Definition slice (text : str) (a b : nat) : str := take (b - a) (drop a text).

(** [m.group(n)]; [None] when the group did not take part. *)
Definition group (text : str) (m : rmatch) (n : nat) : option str :=
  match n with
  | O => Some (slice text (m_start m) (m_end m))
  | _ =>
      match list_find (λ e, e.1 = n) (m_caps m) with
      | Some (_, (_, (a, b))) => Some (slice text a b)
      | None => None
      end
  end.

End Re.

(* ===================================================================== *)
(** * Python built-ins used by the source *)
(* ===================================================================== *)
Module Py.

Inductive exn := KeyError | IndexError.

(** The outcome of code that may raise.  [Diverge] stands for a loop
    whose iteration budget ran out. *)
Inductive result (A : Type) : Type :=
| Ok (a : A)
| Raise (e : exn)
| Diverge.
Arguments Ok {A} a.
Arguments Raise {A} e.
Arguments Diverge {A}.

Definition bind {A B} (x : result A) (f : A → result B) : result B :=
  match x with
  | Ok a => f a
  | Raise e => Raise e
  | Diverge => Diverge
  end.

Definition len (s : str) : Z := Z.of_nat (length s).

(** [s[i]], negative indices counting from the end. *)
Definition index (s : str) (i : Z) : result ascii :=
  let j := if i <? 0 then len s + i else i in
  if j <? 0 then Raise IndexError
  else match s !! Z.to_nat j with
       | Some c => Ok c
       | None => Raise IndexError
       end.

(** Bound adjustment of slices and of the [start]/[end] arguments. *)
Definition clip (s : str) (i : Z) : nat :=
  Z.to_nat (if i <? 0 then Z.max 0 (len s + i) else Z.min i (len s)).

(** [s[a:b]] *)
Definition slice (s : str) (a b : Z) : str :=
  take (clip s b - clip s a) (drop (clip s a) s).

(** [s[:b]] and [s[a:]] *)
Definition slice_to (s : str) (b : Z) : str := take (clip s b) s.
Definition slice_from (s : str) (a : Z) : str := drop (clip s a) s.

Fixpoint starts_with (sub l : str) : bool :=
  match sub, l with
  | [], _ => true
  | c :: sub', x :: l' => Char.eqc c x && starts_with sub' l'
  | _ :: _, [] => false
  end.

Definition ends_with (sub l : str) : bool :=
  starts_with (reverse sub) (reverse l).

Fixpoint find_from (sub : str) (i : nat) (l : str) : Z :=
  if starts_with sub l then Z.of_nat i
  else match l with
       | [] => -1
       | _ :: tl => find_from sub (S i) tl
       end.

(** [s.find(sub, start)] *)
Definition find (s sub : str) (start : Z) : Z :=
  let a := if start <? 0 then Z.max 0 (len s + start) else start in
  if len s <? a then -1
  else find_from sub (Z.to_nat a) (drop (Z.to_nat a) s).

Fixpoint rfind_in (sub : str) (i : nat) (l : str) (acc : Z) : Z :=
  let acc' := if starts_with sub l then Z.of_nat i else acc in
  match l with
  | [] => acc'
  | _ :: tl => rfind_in sub (S i) tl acc'
  end.

(** [s.rfind(sub, start, end)]: the highest index of [sub] inside
    [s[start:end]]. *)
Definition rfind (s sub : str) (start stop : Z) : Z :=
  let a := if start <? 0 then Z.max 0 (len s + start) else start in
  if len s <? a then -1
  else
    let b := clip s stop in
    let window := take (b - Z.to_nat a) (drop (Z.to_nat a) s) in
    if (b <? Z.to_nat a)%nat then -1
    else rfind_in sub (Z.to_nat a) window (-1).

Fixpoint lstrip (s : str) : str :=
  match s with
  | c :: tl => if Char.isspace c then lstrip tl else s
  | [] => []
  end.

(** [s.strip()] *)
Definition strip (s : str) : str := reverse (lstrip (reverse (lstrip s))).

(** [s.replace("\r\n", "\n")] *)
Fixpoint replace_crlf (s : str) : str :=
  match s with
  | c :: tl =>
      match tl with
      | d :: tl' =>
          if Char.eqc Char.cr c && Char.eqc Char.nl d
          then Char.nl :: replace_crlf tl'
          else c :: replace_crlf tl
      | [] => [c]
      end
  | [] => []
  end.

(** [s.replace('\n', ' ')] *)
Definition replace_nl_space (s : str) : str :=
  (λ c, if Char.eqc Char.nl c then " "%char else c) <$> s.

(** [s.splitlines()]: [cur] is the line being read, reversed. *)
Fixpoint splitlines_aux (cur : str) (s : str) : list str :=
  match s with
  | [] => match cur with [] => [] | _ => [reverse cur] end
  | c :: tl =>
      if Char.eqc Char.cr c then
        match tl with
        | d :: tl' =>
            if Char.eqc Char.nl d then reverse cur :: splitlines_aux [] tl'
            else reverse cur :: splitlines_aux [] tl
        | [] => [reverse cur]
        end
      else if Char.is_linebreak c then reverse cur :: splitlines_aux [] tl
      else splitlines_aux (c :: cur) tl
  end.

Definition splitlines (s : str) : list str := splitlines_aux [] s.

(** The value of [int(s)] for a run of decimal digits. CPython answers
    it for runs of up to 4300 digits and raises [ValueError] beyond
    ([sys.int_max_str_digits]); that error is not part of this model. *)
Definition int_of_digits (s : str) : Z :=
  fold_left (λ acc c, 10 * acc + (Z.of_N (Char.code c) - 48)) s 0.

(** Truth value of an optional string ([None] and the empty string are
    false). *)
Definition truthy (o : option str) : bool :=
  match o with
  | Some (_ :: _) => true
  | _ => false
  end.

(** Code-point order on strings, the order of [sorted]. *)
Fixpoint str_leb (a b : str) : bool :=
  match a, b with
  | [], _ => true
  | _ :: _, [] => false
  | x :: a', y :: b' =>
      if (Char.code x <? Char.code y)%N then true
      else if (Char.code y <? Char.code x)%N then false
      else str_leb a' b'
  end.

Definition str_le (a b : str) : Prop := str_leb a b = true.

Global Instance str_le_dec : RelDecision str_le.
Proof. intros a b. unfold str_le. apply _. Defined.

End Py.

(* ===================================================================== *)
(** * slicer.py *)
(* ===================================================================== *)
Module Slicer.
Import Re.

(** A compiled pattern: its [re.IGNORECASE] flag and its expression.
    [re.MULTILINE] is the meaning of [Bol]; no source pattern has a dot,
    so [re.DOTALL] changes nothing. *)
Record pattern := Pattern { p_ic : bool; p_rx : regex }.

Definition p_match (p : pattern) := rmatch_prefix (p_ic p) (p_rx p).
Definition p_search (p : pattern) := search (p_ic p) (p_rx p).
Definition p_finditer (p : pattern) := finditer (p_ic p) (p_rx p).

Definition spaces : regex := Star true 0 Char.isspace.
Definition spaces1 : regex := Star true 1 Char.isspace.
Definition none_of (c : ascii) : ascii → bool := Char.neqc c.

(** [^Call graph node for function:\s*'([^']+)'], re.M *)
Definition NODE_RX : pattern :=
  Pattern false
    (seqs [Bol; lit (lit_str "Call graph node for function:"); spaces;
           Chr "'"; Grp 1 (Star true 1 (none_of "'")); Chr "'"]).

(** [^\s*(?:CS<[^>]*>\s+)?calls function '([^']+)'],
    re.IGNORECASE | re.MULTILINE *)
Definition CALL_RX : pattern :=
  Pattern true
    (seqs [Bol; spaces;
           Opt (seqs [lit (lit_str "CS<"); Star true 0 (none_of ">");
                      Chr ">"; spaces1]);
           lit (lit_str "calls function '");
           Grp 1 (Star true 1 (none_of "'")); Chr "'"]).

(** [#uses=(\d+)], re.IGNORECASE *)
Definition USES_RX : pattern :=
  Pattern true
    (seqs [lit (lit_str "#uses="); Grp 1 (Star true 1 Char.isdigit)]).

(** One [[^,]+,\s*] argument of a registration call. *)
Definition arg_comma : regex :=
  seqs [Star true 1 (none_of ","); Chr ","; spaces].

Definition word1 : regex := Grp 1 (Star true 1 Char.isword).

Definition registration_rx (fname : string) : regex :=
  seqs [lit (lit_str fname); Star true 0 (none_of "("); Chr "(";
        arg_comma; arg_comma; arg_comma; arg_comma; arg_comma; word1].

Definition FUNC_PTR_PATTERNS : list pattern :=
  [ (* sqlite3_create_function[^(]*\([^,]+,\s*  (x5)  (\w+) *)
    Pattern true (registration_rx "sqlite3_create_function");
    Pattern true (registration_rx "sqlite3_create_function_v2");
    (* =\s*&?(\w+)\s*; *)
    Pattern false (seqs [Chr "="; spaces; Opt (Chr "&"); word1; spaces;
                         Chr ";"]);
    (* \{\s*[^}]*?(\w+)\s*[,}] *)
    Pattern false (seqs [Chr "{"; spaces; Star false 0 (none_of "}"); word1;
                         spaces;
                         Cls (λ c, Char.eqc "," c || Char.eqc "}" c)]);
    (* callback[^=]*=\s*&?(\w+) *)
    Pattern true (seqs [lit (lit_str "callback"); Star true 0 (none_of "=");
                        Chr "="; spaces; Opt (Chr "&"); word1]) ].

Record FunctionMetadata := {
  name : str;
  uses_count : Z;
  has_callers : bool;
  callers : gset str;
  is_exported : bool;
  has_address_taken : bool
}.

(** ** Call-graph parsing *)

(** [d.get(k, set())] *)
Definition get_set (d : gmap str (gset str)) (k : str) : gset str :=
  default ∅ (d !! k).

(** One iteration of the loop of [parse_callgraph_text]. A group that
    took no part would be [None]; group 1 is a mandatory part of both
    patterns. *)
Definition callers_line (st : option str * gmap str (gset str))
    (line : str) : option str * gmap str (gset str) :=
  let '(current, callers_map) := st in
  match p_match NODE_RX line with
  | Some m => (group line m 1, callers_map)
  | None =>
      if Py.truthy current then
        match p_match CALL_RX line with
        | Some m2 =>
            match group line m2 1, current with
            | Some callee, Some cur =>
                (current,
                 <[callee := {[cur]} ∪ get_set callers_map callee]>
                   callers_map)
            | _, _ => st
            end
        | None => st
        end
      else st
  end.

Definition parse_callgraph_text (text : str) : gmap str (gset str) :=
  (fold_left callers_line (Py.splitlines text) (None, ∅)).2.

(** One iteration of the loop of [parse_callees_map];
    [callees_map[current]] raises [KeyError] on a missing key. *)
Definition callees_line (st : option str * gmap str (gset str))
    (line : str) : Py.result (option str * gmap str (gset str)) :=
  let '(current, callees_map) := st in
  match p_match NODE_RX line with
  | Some m =>
      let current' := group line m 1 in
      match current' with
      | Some cur =>
          Py.Ok (current',
                 match callees_map !! cur with
                 | Some _ => callees_map
                 | None => <[cur := ∅]> callees_map
                 end)
      | None => Py.Ok (current', callees_map)
      end
  | None =>
      if Py.truthy current then
        match p_match CALL_RX line with
        | Some m2 =>
            match group line m2 1, current with
            | Some callee, Some cur =>
                match callees_map !! cur with
                | Some s =>
                    Py.Ok (current, <[cur := {[callee]} ∪ s]> callees_map)
                | None => Py.Raise Py.KeyError
                end
            | _, _ => Py.Ok st
            end
        | None => Py.Ok st
        end
      else Py.Ok st
  end.

Fixpoint callees_loop (lines : list str)
    (st : option str * gmap str (gset str))
    : Py.result (gmap str (gset str)) :=
  match lines with
  | [] => Py.Ok st.2
  | line :: tl => Py.bind (callees_line st line) (callees_loop tl)
  end.

Definition parse_callees_map (text : str)
    : Py.result (gmap str (gset str)) :=
  callees_loop (Py.splitlines text) (None, ∅).

(** [re.compile(r"Call graph node for function:\s*'" + re.escape(target)
    + r"'[^\n]*", re.IGNORECASE)] *)
Definition metadata_pattern (target : str) : pattern :=
  Pattern true
    (seqs [lit (lit_str "Call graph node for function:"); spaces; Chr "'";
           lit target; Chr "'"; Star true 0 (none_of Char.nl)]).

Definition new_metadata (target : str) : FunctionMetadata :=
  {| name := target; uses_count := 0; has_callers := false; callers := ∅;
     is_exported := false; has_address_taken := false |}.

Definition set_uses_count (md : FunctionMetadata) (n : Z)
    : FunctionMetadata :=
  {| name := name md; uses_count := n; has_callers := has_callers md;
     callers := callers md; is_exported := is_exported md;
     has_address_taken := has_address_taken md |}.

Definition parse_function_metadata (text target : str)
    : FunctionMetadata :=
  let metadata := new_metadata target in
  match p_search (metadata_pattern target) text with
  | Some m =>
      let node_line := slice text (m_start m) (m_end m) in
      match p_search USES_RX node_line with
      | Some uses_match =>
          match group node_line uses_match 1 with
          | Some digits => set_uses_count metadata (Py.int_of_digits digits)
          | None => metadata
          end
      | None => metadata
      end
  | None => metadata
  end.

(** ** Pointer-usage scanner *)

(** The result dictionary of [check_function_pointer_usage]. *)
Module Usage.
Record t := Make {
  has_address_taken : bool;
  function_registration : list str;
  suspicious_patterns : list Z;     (* "Bare reference at position {pos}" *)
  context_snippets : list str
}.
End Usage.

(** [c_text[max(0, a - before) : min(len(c_text), b + after)]
    .replace('\n', ' ')] *)
Definition snippet (c_text : str) (a b before after : Z) : str :=
  let start := Z.max 0 (a - before) in
  let stop := Z.min (Py.len c_text) (b + after) in
  Py.replace_nl_space (Py.slice c_text start stop).

(** [&\s*<target>\b] *)
Definition addr_pattern (target : str) : pattern :=
  Pattern false (seqs [Chr "&"; spaces; lit target; WordB]).

(** [(?<![a-zA-Z_])<target>(?![a-zA-Z_0-9(])] *)
Definition bare_name_pattern (target : str) : pattern :=
  Pattern false
    (seqs [NotBehind (λ c, Char.is_ascii_letter c || Char.eqc "_" c);
           lit target;
           NotAhead (λ c, Char.is_ascii_letter c || Char.eqc "_" c
                          || Char.isdigit c || Char.eqc "(" c)]).

Definition addr_step (c_text : str) (res : Usage.t) (m : rmatch)
    : Usage.t :=
  Usage.Make true
    (Usage.function_registration res)
    (Usage.suspicious_patterns res)
    (Usage.context_snippets res
       ++ [snippet c_text (Z.of_nat (m_start m)) (Z.of_nat (m_end m))
             100 100]).

Definition registration_step (c_text target : str) (res : Usage.t)
    (m : rmatch) : Usage.t :=
  if bool_decide (group c_text m 1 = Some target) then
    Usage.Make (Usage.has_address_taken res)
      (Usage.function_registration res
         ++ [lit_str "sqlite3_create_function"])
      (Usage.suspicious_patterns res)
      (Usage.context_snippets res
         ++ [snippet c_text (Z.of_nat (m_start m)) (Z.of_nat (m_end m))
               50 150])
  else res.

(** The inner [while] that skips white space from index [i] on; [l] is
    [c_text[i:]]. *)
Fixpoint skip_space (i : Z) (l : str) : Z :=
  match l with
  | c :: tl => if Char.isspace c then skip_space (i + 1) tl else i
  | [] => i
  end.

Definition bare_step (c_text : str) (res : Usage.t) (m : rmatch)
    : Usage.t :=
  let pos := Z.of_nat (m_start m) in
  let next_char_pos := Z.of_nat (m_end m) in
  if next_char_pos <? Py.len c_text then
    let next_char_pos :=
      skip_space next_char_pos (drop (Z.to_nat next_char_pos) c_text) in
    if (next_char_pos <? Py.len c_text)
       && match c_text !! Z.to_nat next_char_pos with
          | Some c => Char.neqc "(" c
          | None => false
          end
    then
      Usage.Make (Usage.has_address_taken res)
        (Usage.function_registration res)
        (Usage.suspicious_patterns res ++ [pos])
        (if Z.of_nat (length (Usage.context_snippets res)) <? 5
         then Usage.context_snippets res
                ++ [Py.replace_nl_space
                      (Py.slice c_text (Z.max 0 (pos - 80))
                         (Z.min (Py.len c_text) (pos + 80)))]
         else Usage.context_snippets res)
    else res
  else res.

Definition check_function_pointer_usage (c_text target : str) : Usage.t :=
  let result := Usage.Make false [] [] [] in
  let result :=
    fold_left (addr_step c_text)
      (p_finditer (addr_pattern target) c_text) result in
  let result :=
    fold_left
      (λ res pattern,
         fold_left (registration_step c_text target)
           (p_finditer pattern c_text) res)
      (take 2 FUNC_PTR_PATTERNS) result in
  fold_left (bare_step c_text)
    (p_finditer (bare_name_pattern target) c_text) result.

(** ** Work-list traversals *)

Section Traversals.

(** The order in which Python enumerates a set is not specified: the
    traversals are written over an arbitrary enumeration. *)
Variable set_iter : gset str → list str.

(** [sorted(s)] *)
Definition sorted (s : gset str) : list str :=
  merge_sort Py.str_le (set_iter s).

(** The [for] loop that pushes the unseen neighbours of a node;
    the head of [work] is the top of the stack. *)
Definition push_unseen (seen : gset str) (work : list str)
    (neighbours : gset str) : list str :=
  fold_left (λ w anc, if decide (anc ∈ seen) then w else anc :: w)
    (set_iter neighbours) work.

(** The [while work:] loop of [get_transitive_callers]; [None] when the
    iteration budget is spent before the stack is empty. *)
Fixpoint callers_loop (fuel : nat) (callers_map : gmap str (gset str))
    (seen : gset str) (work : list str) : option (gset str) :=
  match work with
  | [] => Some seen
  | who :: work =>
      match fuel with
      | O => None
      | S fuel =>
          if decide (who ∈ seen) then callers_loop fuel callers_map seen work
          else
            let seen := {[who]} ∪ seen in
            callers_loop fuel callers_map seen
              (push_unseen seen work (get_set callers_map who))
      end
  end.

(** The number of edges recorded in a map. *)
Definition edge_count (m : gmap str (gset str)) : nat :=
  sum_list_with (λ kv, size kv.2) (map_to_list m).

(** An iteration budget that the loops never exhaust. *)
Definition budget (m : gmap str (gset str)) (target : str) : nat :=
  size (get_set m target) + edge_count m.

Definition get_transitive_callers (callers_map : gmap str (gset str))
    (target : str) : option (list str) :=
  sorted <$>
    callers_loop (budget callers_map target) callers_map ∅
      (reverse (set_iter (get_set callers_map target))).

Definition push_unseen_depth (seen : gset str) (work : list (str * Z))
    (neighbours : gset str) (depth : Z) : list (str * Z) :=
  fold_left
    (λ w callee, if decide (callee ∈ seen) then w else (callee, depth) :: w)
    (set_iter neighbours) work.

(** The [while work:] loop of [get_transitive_callees]. *)
Fixpoint callees_walk (fuel : nat) (callees_map : gmap str (gset str))
    (max_depth : Z) (seen : gset str) (work : list (str * Z))
    : option (gset str) :=
  match work with
  | [] => Some seen
  | (who, depth) :: work =>
      match fuel with
      | O => None
      | S fuel =>
          if bool_decide (who ∈ seen) || (max_depth <? depth)
          then callees_walk fuel callees_map max_depth seen work
          else
            let seen := {[who]} ∪ seen in
            callees_walk fuel callees_map max_depth seen
              (push_unseen_depth seen work (get_set callees_map who)
                 (depth + 1))
      end
  end.

Definition get_transitive_callees (callees_map : gmap str (gset str))
    (target : str) (max_depth : Z) : option (list str) :=
  sorted <$>
    callees_walk (budget callees_map target) callees_map max_depth ∅
      (reverse ((λ callee, (callee, 1)) <$>
                  set_iter (get_set callees_map target))).

(** ** The static decision *)

Inductive decision := SAFE_TO_REMOVE | DEPENDENT.

(** The warnings of [analyze_target], one constructor per message. *)
Inductive warning :=
| UsesWithoutCallers (uses : Z) (* "EDGE CASE: Call graph shows #uses=..." *)
| AddressTaken              (* "EDGE CASE: Function address is taken ..." *)
| Registered (how : list str)   (* "CRITICAL: Function is registered ..." *)
| Suspicious (n : nat)      (* "EDGE CASE: Found n suspicious patterns ..." *)
| DeadCode (n : nat)        (* "INFO: Function has 0 callers but calls ..." *)
| Overridden.               (* "Decision overridden to DEPENDENT ..." *)

(** The fields of the state that [analyze_target] reads; [target] is the
    name after [.strip()]. *)
Record State := {
  cg_text : str;
  c_text : str;
  target : str;
  callers_map : gmap str (gset str);
  callees_map : gmap str (gset str)
}.

(** The fields of the returned update other than [messages] and
    [evidence_snippet]. *)
Record Analysis := {
  a_target : str;
  a_callers : list str;
  a_callers_transitive : list str;
  a_callees : list str;
  a_callees_transitive : list str;
  a_decision : decision;
  a_function_metadata : FunctionMetadata;
  a_pointer_usage : Usage.t;
  a_edge_case_warnings : list warning
}.

Definition nonempty {A} (l : list A) : bool :=
  match l with [] => false | _ => true end.

Definition when {A} (b : bool) (x : A) : list A := if b then [x] else [].

(** The decision and the warnings, from the facts gathered. *)
Definition decide_target (has_dependency : bool) (uses : Z)
    (pointer_usage : Usage.t) (direct_callees : list str)
    : decision * list warning :=
  let warnings :=
    when ((0 <? uses) && negb has_dependency) (UsesWithoutCallers uses)
    ++ when (Usage.has_address_taken pointer_usage) AddressTaken
    ++ when (nonempty (Usage.function_registration pointer_usage))
         (Registered (Usage.function_registration pointer_usage))
    ++ when (nonempty (Usage.suspicious_patterns pointer_usage)
             && (3 <? length (Usage.suspicious_patterns pointer_usage))%nat)
         (Suspicious (length (Usage.suspicious_patterns pointer_usage)))
    ++ when (negb has_dependency && (0 <? length direct_callees)%nat)
         (DeadCode (length direct_callees)) in
  let decision := if negb has_dependency then SAFE_TO_REMOVE else DEPENDENT in
  if nonempty (Usage.function_registration pointer_usage)
     || Usage.has_address_taken pointer_usage
  then (DEPENDENT, warnings ++ [Overridden])
  else (decision, warnings).

Definition analyze_target (state : State) : option Analysis :=
  let target := target state in
  let direct_callers := sorted (get_set (callers_map state) target) in
  transitive_callers ← get_transitive_callers (callers_map state) target;
  let has_dependency :=
    nonempty direct_callers || nonempty transitive_callers in
  let direct_callees := sorted (get_set (callees_map state) target) in
  transitive_callees ← get_transitive_callees (callees_map state) target 10;
  let metadata := parse_function_metadata (cg_text state) target in
  let metadata :=
    {| name := name metadata; uses_count := uses_count metadata;
       has_callers := has_dependency;
       callers := list_to_set direct_callers;
       is_exported := is_exported metadata;
       has_address_taken := has_address_taken metadata |} in
  let pointer_usage := check_function_pointer_usage (c_text state) target in
  let '(decision, warnings) :=
    decide_target has_dependency (uses_count metadata) pointer_usage
      direct_callees in
  Some {| a_target := target;
          a_callers := direct_callers;
          a_callers_transitive := transitive_callers;
          a_callees := direct_callees;
          a_callees_transitive := transitive_callees;
          a_decision := decision;
          a_function_metadata := metadata;
          a_pointer_usage := pointer_usage;
          a_edge_case_warnings := warnings |}.

(** [parse_graph]: both maps of one dump. *)
Definition parse_graph (text : str)
    : Py.result (gmap str (gset str) * gmap str (gset str)) :=
  Py.bind (parse_callees_map text) (λ callees,
  Py.Ok (parse_callgraph_text text, callees)).

(** The static part of the pipeline: [parse_graph], then
    [analyze_target]. *)
Definition static_analysis (cg c tgt : str) : Py.result Analysis :=
  Py.bind (parse_graph cg) (λ '(cmap, callees),
  match analyze_target
          {| cg_text := cg; c_text := c; target := tgt;
             callers_map := cmap; callees_map := callees |} with
  | Some a => Py.Ok a
  | None => Py.Diverge
  end).

End Traversals.

(** ** Listing the functions of a dump *)

(** [str.lower] *)
Definition str_lower (s : str) : str := Char.lower <$> s.

(** One step of a stable sort by key: [x], which stood before the
    elements of [l], goes before the first of them whose key is not
    below its own. *)
Fixpoint insert_by_key (key : str → str) (x : str) (l : list str)
    : list str :=
  match l with
  | [] => [x]
  | y :: l' =>
      if Py.str_leb (key x) (key y) then x :: l
      else y :: insert_by_key key x l'
  end.

(** [sorted(l, key=key)]: the sort of Python is stable. *)
Definition sorted_by_key (key : str → str) (l : list str) : list str :=
  foldr (insert_by_key key) [] l.

Definition null_name : str := lit_str "<null>".

(** [{m.group(1) for m in NODE_RX.finditer(text)}] *)
Definition node_names (text : str) : gset str :=
  list_to_set (omap (λ m, group text m 1) (p_finditer NODE_RX text)).

Section Listing.
Variable set_iter : gset str → list str.

Definition extract_all_functions (text : str) : list str :=
  let names := node_names text in
  let names := names ∖ {[null_name]} in
  sorted_by_key str_lower (set_iter names).

End Listing.

(** ** The evidence snippet *)

(** [(^\w[\w\s\*]+?\b{name}\s*\([^\)]*\)\s*\{)([\s\S]*?)\n\}], re.M,
    with [{name}] replaced by [re.escape(name)] *)
Definition FUNC_DEF_RX (name : str) : pattern :=
  Pattern false
    (seqs [Grp 1
             (seqs [Bol; Cls Char.isword;
                    Star false 1
                      (λ c, Char.isword c || Char.isspace c
                            || Char.eqc "*" c);
                    WordB; lit name; spaces;
                    Chr "("; Star true 0 (none_of ")"); Chr ")";
                    spaces; Chr "{"]);
           Grp 2 (Star false 0 (λ _, true));
           Chr Char.nl; Chr "}"]).

(** What [find_function_snippet] returns: a piece of the text, or a
    piece followed by the marker ["\n/* ...snip... */\n"] (whose dots
    are one character, U+2026). *)
Inductive evidence :=
| Whole (s : str)
| Snipped (s : str).

Definition evidence_text (e : evidence) : str :=
  match e with Whole s => s | Snipped s => s end.

Definition find_function_snippet (c_text name : str) (max_chars : Z)
    : evidence :=
  match p_search (FUNC_DEF_RX name) c_text with
  | None =>
      let idx := Py.find c_text (name ++ lit_str "(") 0 in
      if idx =? -1 then Whole []
      else
        let start := Z.max 0 (idx - 300) in
        Whole (Py.slice c_text start (start + max_chars))
  | Some m =>
      let snippet := slice c_text (m_start m) (m_end m) in
      if max_chars <? Py.len snippet
      then Snipped (Py.slice_to snippet max_chars)
      else Whole snippet
  end.

End Slicer.

(* ===================================================================== *)
(** * app.py: removing a function definition *)
(* ===================================================================== *)
Module App.
Import Re.

(** The third component of the returned tuple, one constructor per
    message. *)
Inductive info :=
| NotFound                  (* "Function '{func}' not found ..." *)
| NoOpeningBrace            (* "No opening brace found for '{func}'." *)
| PrototypeOnly             (* "Only prototype found for '{func}'." *)
| Unbalanced (depth : Z)    (* "Unbalanced braces for '{func}' ..." *)
| Removed (chars : Z).      (* "Removed '{func}' ({chars_removed} chars)." *)

(** The returned tuple [(new_text, removed, info_msg)]. *)
Record removal := Removal {
  new_text : str;
  removed : bool;
  info_msg : info
}.

(** [((?:^|\n)(?:[^\n]*?)\b<func>\s*\([^)]*\)[^{;]*?\{)],
    re.MULTILINE | re.DOTALL *)
Definition definition_rx (func : str) : regex :=
  Grp 1
    (seqs [Alt Bol (Chr Char.nl);
           Star false 0 (Char.neqc Char.nl);
           WordB; lit func; Star true 0 Char.isspace;
           Chr "("; Star true 0 (Char.neqc ")"); Chr ")";
           Star false 0 (λ c, negb (Char.eqc "{" c || Char.eqc ";" c));
           Chr "{"]).

(** ** Locating the signature *)

(** [prev_line and not prev_line.startswith(('//','/*'))
     and not prev_line.endswith((';','}','{'))] *)
Definition continues_signature (prev_line : str) : bool :=
  match prev_line with [] => false | _ => true end
  && negb (Py.starts_with (lit_str "//") prev_line
           || Py.starts_with (lit_str "/*") prev_line)
  && negb (Py.ends_with (lit_str ";") prev_line
           || Py.ends_with (lit_str "}") prev_line
           || Py.ends_with (lit_str "{") prev_line).

(** The [while check_pos > 0:] loop that walks back over the lines of
    the return type. *)
Fixpoint back_scan (fuel : nat) (text : str) (sig_start check_pos : Z)
    : Py.result Z :=
  if 0 <? check_pos then
    match fuel with
    | O => Py.Diverge
    | S fuel =>
        let prev_line_start :=
          Py.rfind text [Char.nl] 0 (check_pos - 1) + 1 in
        let prev_line :=
          Py.strip (Py.slice text prev_line_start check_pos) in
        if continues_signature prev_line
        then back_scan fuel text prev_line_start prev_line_start
        else Py.Ok sig_start
    end
  else Py.Ok sig_start.

(** What the first half of the function hands to the brace scan:
    either an early return, or [sig_start] and [brace_idx]. *)
Inductive located :=
| Fail (why : info)
| Found (sig_start brace_idx : Z).

Definition signature_start (text : str) (name_idx brace_idx : Z)
    : Py.result located :=
  let sig_start := Py.rfind text [Char.nl] 0 name_idx + 1 in
  let check_pos := sig_start - 1 in
  Py.bind (back_scan (Z.to_nat check_pos) text sig_start check_pos)
    (λ sig_start, Py.Ok (Found sig_start brace_idx)).

(** The [if not matches:] branch. *)
Definition fallback (text func : str) : Py.result located :=
  let name_idx := Py.find text (func ++ lit_str "(") 0 in
  if name_idx =? -1 then Py.Ok (Fail NotFound)
  else
    let semi_idx := Py.find text (lit_str ";") name_idx in
    let brace_idx := Py.find text (lit_str "{") name_idx in
    if brace_idx =? -1 then Py.Ok (Fail NoOpeningBrace)
    else if negb (semi_idx =? -1) && (semi_idx <? brace_idx) then
      let name_idx := Py.find text (func ++ lit_str "(") (name_idx + 1) in
      if name_idx =? -1 then Py.Ok (Fail PrototypeOnly)
      else
        let brace_idx := Py.find text (lit_str "{") name_idx in
        if brace_idx =? -1 then Py.Ok (Fail NoOpeningBrace)
        else signature_start text name_idx brace_idx
    else signature_start text name_idx brace_idx.

Definition locate (text func : str) : Py.result located :=
  match finditer false (definition_rx func) text with
  | [] => fallback text func
  | m :: _ =>
      Py.Ok (Found (Z.of_nat (m_start m)) (Z.of_nat (m_end m) - 1))
  end.

(** ** The brace scan *)

Record scan := Scan {
  i : Z;
  depth : Z;
  in_string : bool;
  in_char : bool;
  in_sl_comment : bool;
  in_ml_comment : bool;
  escape_next : bool
}.

Inductive step :=
| Next (s : scan)          (* the loop goes on *)
| Closed (at_i : Z).       (* [depth == 0] at the brace at index [at_i] *)

Definition is_chr (c : ascii) (o : option ascii) : bool :=
  match o with Some x => Char.eqc c x | None => false end.

(** One iteration of [while i < n:], for [ch = text[i]] and
    [next_ch = text[i + 1] if i + 1 < n else ''] ([None] is ['']). *)
Definition scan_step (ch : ascii) (next_ch : option ascii) (s : scan)
    : step :=
  if escape_next s then
    Next (Scan (i s + 1) (depth s) (in_string s) (in_char s)
            (in_sl_comment s) (in_ml_comment s) false)
  else if in_string s then
    if Char.eqc "\" ch then
      Next (Scan (i s + 1) (depth s) true (in_char s) (in_sl_comment s)
              (in_ml_comment s) true)
    else if Char.eqc Char.dquote ch then
      Next (Scan (i s + 1) (depth s) false (in_char s) (in_sl_comment s)
              (in_ml_comment s) false)
    else
      Next (Scan (i s + 1) (depth s) true (in_char s) (in_sl_comment s)
              (in_ml_comment s) false)
  else if in_char s then
    if Char.eqc "\" ch then
      Next (Scan (i s + 1) (depth s) false true (in_sl_comment s)
              (in_ml_comment s) true)
    else if Char.eqc "'" ch then
      Next (Scan (i s + 1) (depth s) false false (in_sl_comment s)
              (in_ml_comment s) false)
    else
      Next (Scan (i s + 1) (depth s) false true (in_sl_comment s)
              (in_ml_comment s) false)
  else if in_sl_comment s then
    if Char.eqc Char.nl ch then
      Next (Scan (i s + 1) (depth s) false false false (in_ml_comment s)
              false)
    else
      Next (Scan (i s + 1) (depth s) false false true (in_ml_comment s)
              false)
  else if in_ml_comment s then
    if Char.eqc "*" ch && is_chr "/" next_ch then
      Next (Scan (i s + 1 + 1) (depth s) false false false false false)
    else
      Next (Scan (i s + 1) (depth s) false false false true false)
  else
    if Char.eqc "/" ch && is_chr "/" next_ch then
      Next (Scan (i s + 1 + 1) (depth s) false false true false false)
    else if Char.eqc "/" ch && is_chr "*" next_ch then
      Next (Scan (i s + 1 + 1) (depth s) false false false true false)
    else if Char.eqc Char.dquote ch then
      Next (Scan (i s + 1) (depth s) true false false false false)
    else if Char.eqc "'" ch then
      Next (Scan (i s + 1) (depth s) false true false false false)
    else if Char.eqc "{" ch then
      Next (Scan (i s + 1) (depth s + 1) false false false false false)
    else if Char.eqc "}" ch then
      if depth s - 1 =? 0 then Closed (i s)
      else Next (Scan (i s + 1) (depth s - 1) false false false false false)
    else
      Next (Scan (i s + 1) (depth s) false false false false false).

(** The loop: [Some i] when the matching brace is at index [i], [None]
    with the final state when the text ends first. *)
Fixpoint scan_loop (fuel : nat) (text : str) (s : scan)
    : Py.result (option Z * scan) :=
  let n := Py.len text in
  if i s <? n then
    match fuel with
    | O => Py.Diverge
    | S fuel =>
        Py.bind (Py.index text (i s)) (λ ch,
        Py.bind (if i s + 1 <? n
                 then Py.bind (Py.index text (i s + 1)) (λ c, Py.Ok (Some c))
                 else Py.Ok None) (λ next_ch,
        match scan_step ch next_ch s with
        | Closed at_i => Py.Ok (Some at_i, s)
        | Next s' => scan_loop fuel text s'
        end))
    end
  else Py.Ok (None, s).

(** [cut_start > 0 and text[cut_start - 1] == '\n'] and
    [cut_end < n and text[cut_end] == '\n'] *)
Definition newline_before (text : str) (cut_start : Z) : Py.result bool :=
  if 0 <? cut_start
  then Py.bind (Py.index text (cut_start - 1))
         (λ c, Py.Ok (Char.eqc Char.nl c))
  else Py.Ok false.

Definition newline_at (text : str) (cut_end : Z) : Py.result bool :=
  if cut_end <? Py.len text
  then Py.bind (Py.index text cut_end) (λ c, Py.Ok (Char.eqc Char.nl c))
  else Py.Ok false.

(** The span that is cut, for a signature at [sig_start] and a closing
    brace at index [at_i]. *)
Definition cut_span (text : str) (sig_start at_i : Z) : Py.result (Z * Z) :=
  let body_end := at_i + 1 in
  Py.bind (newline_before text sig_start) (λ b1,
  let cut_start := if b1 then sig_start - 1 else sig_start in
  Py.bind (newline_at text body_end) (λ b2,
  let cut_end := if b2 then body_end + 1 else body_end in
  Py.Ok (cut_start, cut_end))).

Definition _remove_function_from_c_source (src_text func : str)
    : Py.result removal :=
  let text := Py.replace_crlf src_text in
  Py.bind (locate text func) (λ loc,
  match loc with
  | Fail why => Py.Ok (Removal src_text false why)
  | Found sig_start brace_idx =>
      Py.bind
        (scan_loop (length text) text
           (Scan brace_idx 0 false false false false false))
        (λ r,
         match r with
         | (Some at_i, _) =>
             Py.bind (cut_span text sig_start at_i) (λ '(cut_start, cut_end),
             Py.Ok (Removal
                      (Py.slice_to text cut_start
                         ++ Py.slice_from text cut_end)
                      true (Removed (cut_end - cut_start))))
         | (None, s) => Py.Ok (Removal src_text false (Unbalanced (depth s)))
         end)
  end).

End App.


(* ===================================================================== *)
(** * Sample inputs *)
(* ===================================================================== *)
Module Samples.

(** The text made of the given lines, each ended by a line feed. *)
Definition text_of_lines (ls : list string) : str :=
  concat ((λ l, lit_str l ++ [Char.nl]) <$> ls).

(** A calls B and B calls A. *)
Definition cycle_dump : str :=
  text_of_lines
    [ "Call graph node for function: 'A'<<0x1>>  #uses=1";
      "  CS<0x0> calls function 'B'";
      "";
      "Call graph node for function: 'B'<<0x2>>  #uses=1";
      "  CS<0x1> calls function 'A'" ].

(** A calls B and C; B calls D. *)
Definition tree_dump : str :=
  text_of_lines
    [ "Call graph node for function: 'A'<<0x1>>  #uses=1";
      "  CS<0x0> calls function 'B'";
      "  CS<0x1> calls function 'C'";
      "Call graph node for function: 'B'<<0x2>>  #uses=2";
      "  CS<0x2> calls function 'D'";
      "Call graph node for function: 'C'<<0x3>>  #uses=2";
      "Call graph node for function: 'D'<<0x4>>  #uses=2" ].

(** A node that nothing calls, with a reference-count hint of 2. *)
Definition lonely_dump : str :=
  text_of_lines
    [ "Call graph node for function: 'foo'<<0x1>>  #uses=2" ].

(** A header whose name differs from [foo] in letter case only. *)
Definition upper_dump : str :=
  text_of_lines
    [ "Call graph node for function: 'Foo'<<0x1>>  #uses=3" ].

Definition f : str := lit_str "f".

(** One address-of use of [f], and [n] of them in a row. *)
Definition block : str := lit_str "&f;".

Fixpoint blocks (n : nat) : str :=
  match n with
  | O => []
  | S n => block ++ blocks n
  end.

(** The forward map of a dump, empty when the parse raises. *)
Definition callees_of_dump (text : str) : gmap str (gset str) :=
  match Slicer.parse_callees_map text with
  | Py.Ok m => m
  | _ => ∅
  end.

(** The example of the specification: a prototype, then the definition. *)
Definition proto_line : str := lit_str "void bar(int x);".
Definition bar_definition : str := lit_str "void bar(int x) { return; }".
Definition proto_then_definition : str :=
  proto_line ++ [Char.nl] ++ bar_definition.
Definition bar : str := lit_str "bar".

(** A body with a brace inside a string literal. *)
Definition brace_in_literal : str :=
  text_of_lines
    [ "int keep;";
      "void f(void) {";
      String.append "  char *s = "
        (String Char.dquote (String.append "{" (String Char.dquote ";")));
      "}";
      "int after;" ].

(** The same text with the brace outside any literal: the braces no
    longer balance. *)
Definition brace_in_code : str :=
  text_of_lines
    [ "int keep;";
      "void f(void) {";
      "  char *s = {;";
      "}";
      "int after;" ].

(** A text with CRLF line ends, far from and next to the function. *)
Definition crlf_source : str :=
  lit_str "int a;" ++ [Char.cr; Char.nl]
  ++ lit_str "int b;" ++ [Char.cr; Char.nl]
  ++ lit_str "void f(void) { }" ++ [Char.cr; Char.nl]
  ++ lit_str "int c;" ++ [Char.cr; Char.nl].

Definition name_A : str := lit_str "A".
Definition name_B : str := lit_str "B".

(** The reverse map of the cycle and the forward map of the tree. *)
Definition cycle_callers : gmap str (gset str) :=
  Slicer.parse_callgraph_text cycle_dump.
Definition tree_callees : gmap str (gset str) := callees_of_dump tree_dump.
Definition foo : str := lit_str "foo".

Definition lonely_state : Slicer.State :=
  {| Slicer.cg_text := lonely_dump; Slicer.c_text := [];
     Slicer.target := foo;
     Slicer.callers_map := Slicer.parse_callgraph_text lonely_dump;
     Slicer.callees_map := callees_of_dump lonely_dump |}.

End Samples.

(* ===================================================================== *)
(** * Further sample inputs *)
(* ===================================================================== *)
Module MoreSamples.

(** T calls A and B; A calls B; B calls C. *)
Definition diamond_dump : str :=
  Samples.text_of_lines
    [ "Call graph node for function: 'T'<<0x1>>  #uses=1";
      "  CS<0x0> calls function 'A'";
      "  CS<0x1> calls function 'B'";
      "Call graph node for function: 'A'<<0x2>>  #uses=2";
      "  CS<0x2> calls function 'B'";
      "Call graph node for function: 'B'<<0x3>>  #uses=3";
      "  CS<0x3> calls function 'C'";
      "Call graph node for function: 'C'<<0x4>>  #uses=2" ].

Definition diamond_callees : gmap str (gset str) :=
  Samples.callees_of_dump diamond_dump.

(** The names below A in the tree of [Samples.tree_dump]. *)
Definition below_A : gset str := {[lit_str "B"; lit_str "C"; lit_str "D"]}.

(** An enumeration of sets in the reverse of the order of [elements]. *)
Definition backwards (s : gset str) : list str := reverse (elements s).

(** A definition after a blank line. *)
Definition blank_line_source : str :=
  lit_str "int a;" ++ [Char.nl; Char.nl]
  ++ lit_str "void f(void) { }" ++ [Char.nl]
  ++ lit_str "int c;" ++ [Char.nl].

(** A prototype, a caller whose [if] holds a call followed by a brace,
    and the definition. *)
Definition call_before_definition : str :=
  Samples.text_of_lines
    ["int bar(int x);"; "int baz(void) {"; "  if (bar(1)) { return 1; }";
     "  return 0;"; "}"; "int bar(int x) { return x; }"]%string.

End MoreSamples.


(* ===================================================================== *)
(** * Notions used in the statements *)
(* ===================================================================== *)
Module Notions.
Import Re Py Slicer App.

(** ** Notions about the matcher *)

(** [reaches strict cu k res]: the continuation [k] yielded [res] at a
    cursor at or after [cu] (after it, when [strict]). *)
Definition reaches (strict : bool) (cu : cursor) (k : cont)
    (res : cursor * caps) : Prop :=
  ∃ cu' cs', k cu' cs' = Some res
             ∧ (pos cu + (if strict then 1 else 0) ≤ pos cu')%nat.

(** A pattern every match of which takes at least one character. *)
Definition consuming (r : regex) : Prop :=
  ∀ ic cu cs k res, exec ic r cu cs k = Some res → reaches true cu k res.

(** The character before a cursor that has moved over [w]. *)
Definition last_or (pv : option ascii) (w : str) : option ascii :=
  match last w with
  | Some c => Some c
  | None => pv
  end.

(** The cursor [cu] moved over [w], with [tl] left to read. *)
Definition moved (i : nat) (pv : option ascii) (w tl : str) : cursor :=
  Cursor (i + length w) (last_or pv w) tl.

(** ** Notions about the traversals *)

(** [calls m x y]: [x] is recorded as a neighbour of [y] in [m]; for the
    reverse map, [x] calls [y]. *)
Definition calls (m : gmap str (gset str)) (x y : str) : Prop :=
  x ∈ get_set m y.

(** What is left to push: the edges out of the nodes not yet seen. *)
Definition pending_in (seen : gset str) (l : list (str * gset str)) : nat :=
  sum_list_with (λ kv, if decide (kv.1 ∈ seen) then 0%nat else size kv.2) l.

Definition pending (m : gmap str (gset str)) (seen : gset str) : nat :=
  pending_in seen (map_to_list m).

(** Loop invariant of [get_transitive_callers] for target [t]. *)
Definition callers_inv (m : gmap str (gset str)) (t : str)
    (seen : gset str) (work : list str) : Prop :=
  (∀ x, x ∈ seen ∨ x ∈ work → tc (calls m) x t)
  ∧ (∀ x, x ∈ get_set m t → x ∈ seen ∨ x ∈ work)
  ∧ (∀ x y, x ∈ seen → y ∈ get_set m x → y ∈ seen ∨ y ∈ work).

(** ** Notions about the parser *)

(** The two maps hold the same edges. *)
Definition same_edges (fwd rev : gmap str (gset str)) : Prop :=
  ∀ a b, b ∈ get_set fwd a ↔ a ∈ get_set rev b.

(** ** Notions about the scanner *)

(** The number of snippets held by a result. *)
Definition snippets (res : Usage.t) : nat :=
  length (Usage.context_snippets res).

Definition registrations (res : Usage.t) : nat :=
  length (Usage.function_registration res).

(** The number of address-of matches in a text. *)
Definition addr_hits (c_text target : str) : nat :=
  length (p_finditer (addr_pattern target) c_text).

Definition addr_f : Re.regex := p_rx (addr_pattern Samples.f).

(** ** Notions about the remover *)

(** What [locate] may answer. *)
Definition located_ok (loc : located) : Prop :=
  match loc with
  | Fail why => why = NotFound ∨ why = NoOpeningBrace ∨ why = PrototypeOnly
  | Found sig_start brace_idx => 0 ≤ sig_start ≤ brace_idx
  end.

(** Normal lexical mode: no literal, no comment, no pending escape. *)
Definition normal (s : scan) : bool :=
  negb (escape_next s || in_string s || in_char s || in_sl_comment s
        || in_ml_comment s).

(** The mode flags of two states agree. *)
Definition same_mode (s s' : scan) : Prop :=
  in_string s' = in_string s ∧ in_char s' = in_char s
  ∧ in_sl_comment s' = in_sl_comment s ∧ in_ml_comment s' = in_ml_comment s.

(** The reasons of a failed removal. *)
Definition failure (why : info) : Prop :=
  why = NotFound ∨ why = NoOpeningBrace ∨ why = PrototypeOnly
  ∨ ∃ depth, why = Unbalanced depth.

(** A successful removal: what was cut from the normalised [text]. *)
Definition cut_from (text : str) (r : removal) : Prop :=
  ∃ sig_start at_i cut_start cut_end,
    0 ≤ sig_start ≤ at_i ∧ at_i < len text
    ∧ text !! Z.to_nat at_i = Some "}"%char
    ∧ (cut_start = sig_start
       ∨ (cut_start = sig_start - 1 ∧ 0 ≤ cut_start
          ∧ text !! Z.to_nat cut_start = Some Char.nl))
    ∧ (cut_end = at_i + 1
       ∨ (cut_end = at_i + 2 ∧ cut_end ≤ len text
          ∧ text !! Z.to_nat (at_i + 1) = Some Char.nl))
    ∧ new_text r
      = take (Z.to_nat cut_start) text ++ drop (Z.to_nat cut_end) text
    ∧ info_msg r = Removed (cut_end - cut_start).

(** Characters with a role in a signature. *)
Definition sp : ascii := " "%char.
Definition lp : ascii := "("%char.
Definition rp : ascii := ")"%char.
Definition semi : ascii := ";"%char.
Definition lb : ascii := "{"%char.
Definition rb : ascii := "}"%char.

(** The part of the definition pattern after the function name:
    [\s*\([^)]*\)[^{;]*?\{] *)
Definition after_name_rx : regex :=
  seqs [Star true 0 Char.isspace;
        Chr "("; Star true 0 (Char.neqc ")"); Chr ")";
        Star false 0 (λ c, negb (Char.eqc "{" c || Char.eqc ";" c));
        Chr "{"].

(** ... and from the word boundary on: [\b<func>\s*\(...\{] *)
Definition tail_rx (func : str) : regex :=
  Seq WordB (Seq (lit func) after_name_rx).

(** A declaration [ty name(params);] and the definition
    [ty name(params) {body}]. *)
Definition prototype (ty name params : str) : str :=
  ty ++ lit_str " " ++ name ++ lit_str "(" ++ params ++ lit_str ");".

Definition definition (ty name params body : str) : str :=
  ty ++ lit_str " " ++ name ++ lit_str "(" ++ params ++ lit_str ") {"
  ++ body ++ lit_str "}".

(** Characters allowed in the return type and in the parameter list of
    the declarations considered: no parenthesis, no line end. *)
Definition sig_char (c : ascii) : bool :=
  negb (Char.eqc "(" c || Char.eqc ")" c || Char.eqc Char.nl c
        || Char.eqc Char.cr c).

(** Characters allowed in the body considered: no brace, no quote, no
    slash, no carriage return. *)
Definition body_char (c : ascii) : bool :=
  negb (Char.eqc "{" c || Char.eqc "}" c || Char.eqc Char.dquote c
        || Char.eqc "'" c || Char.eqc "/" c || Char.eqc Char.cr c).

(** What is cut when the text after the closing brace is [rest]: the
    text that stays after the cut, and one more character when [rest]
    starts with a line feed. *)
Definition stays_after (rest : str) : str * Z :=
  match rest with
  | c :: tl => if Char.eqc Char.nl c then (tl, 1) else (rest, 0)
  | [] => ([], 0)
  end.

End Notions.
(* ===================================================================== *)
(** * Further notions used in the statements *)
(* ===================================================================== *)
Module MoreNotions.
Import Re Py Slicer App Notions.

(** [sub] occurs in [s]: [sub in s] of Python. *)
Definition occurs (sub s : str) : Prop := ∃ pre post, s = pre ++ sub ++ post.

(** A word boundary between the end of [before] and the start of
    [after]: [\b] of [re]. *)
Definition word_boundary (before after : str) : Prop :=
  xorb (wordish (last before)) (wordish (head after)) = true.

(** The classes of the look-behind and of the look-ahead of
    [bare_name_pattern]. *)
Definition ident_start (c : ascii) : bool :=
  Char.is_ascii_letter c || Char.eqc "_" c.

Definition ident_or_paren (c : ascii) : bool :=
  Char.is_ascii_letter c || Char.eqc "_" c || Char.isdigit c
  || Char.eqc "(" c.

Definition none_or (p : ascii → bool) (o : option ascii) : Prop :=
  match o with Some c => p c = false | None => True end.

(** ** Notions about the lines of a dump *)

(** The name on a header line, and whether a line is a header line. *)
Definition header_of (line : str) : option str :=
  match p_match NODE_RX line with
  | Some m => Re.group line m 1
  | None => None
  end.

Definition is_header (line : str) : bool :=
  match p_match NODE_RX line with Some _ => true | None => false end.

(** The callee on a call line that is not a header line. *)
Definition callee_of (line : str) : option str :=
  match p_match NODE_RX line with
  | Some _ => None
  | None =>
      match p_match CALL_RX line with
      | Some m => Re.group line m 1
      | None => None
      end
  end.

(** A call line for [b] follows, with no header line in between. *)
Definition call_ahead (lines : list str) (b : str) : Prop :=
  ∃ l2 c l3, lines = l2 ++ c :: l3
             ∧ Forall (λ l, is_header l = false) l2
             ∧ callee_of c = Some b.

(** A header line for [a], then a call line for [b] before the next
    header line. *)
Definition edge_in (lines : list str) (a b : str) : Prop :=
  ∃ l1 h rest, lines = l1 ++ h :: rest
               ∧ header_of h = Some a ∧ a ≠ [] ∧ call_ahead rest b.

(** ** Notions about locating a definition *)

(** [sub] stands at index [n] of [s]. *)
Definition stands_at (sub s : str) (n : Z) : Prop :=
  ∃ pre post, s = pre ++ sub ++ post ∧ n = len pre.

(** What [locate] has found, for a text and a function name. *)
Definition located_at (text func : str) (loc : located) : Prop :=
  match loc with
  | Fail NotFound => ¬ occurs (func ++ lit_str "(") text
  | Fail NoOpeningBrace | Fail PrototypeOnly =>
      occurs (func ++ lit_str "(") text
  | Fail _ => False
  | Found sig_start brace_idx =>
      ∃ n, 0 ≤ sig_start ≤ n ∧ n ≤ brace_idx
           ∧ stands_at func text n
           ∧ text !! Z.to_nat brace_idx = Some "{"%char
           ∧ ("{"%char ∉ func → n + len func ≤ brace_idx)
  end.

(** The fixed text of a header line. *)
Definition node_header : str := lit_str "Call graph node for function:".

(** The start of the text or of a line: where [^] matches under
    [re.MULTILINE]. *)
Definition at_line_start (pv : option ascii) : Prop :=
  match pv with Some c => c = Char.nl | None => True end.

(** [line] starts with a header for [name]: the fixed text, white space,
    and the name between single quotes. *)
Definition header_shape (name line : str) : Prop :=
  ∃ ws tl, line = node_header ++ ws ++ "'"%char :: name ++ "'"%char :: tl
           ∧ Forall (λ c, Char.isspace c = true) ws
           ∧ name ≠ [] ∧ ("'"%char ∉ name).

(** The order of [sorted(..., key=str.lower)]. *)
Definition le_lower (a b : str) : Prop := str_le (str_lower a) (str_lower b).

(** [sub] occurs in [s] when letter case is ignored. *)
Definition occurs_nocase (sub s : str) : Prop :=
  occurs (str_lower sub) (str_lower s).

(** The optional call-site tag of a call line: [CS<...>] in any letter
    case, then white space. *)
Definition call_site_shape (opt : str) : Prop :=
  opt = []
  ∨ ∃ cs inner ws1,
      opt = cs ++ inner ++ ">"%char :: ws1
      ∧ str_lower cs = lit_str "cs<"
      ∧ (">"%char ∉ inner)
      ∧ ws1 ≠ [] ∧ Forall (λ c, Char.isspace c = true) ws1.

(** [line] starts with a call to [name]: white space, the optional
    call-site tag, the words [calls function] in any letter case, and
    the name between single quotes. *)
Definition call_shape (name line : str) : Prop :=
  ∃ ws opt kw tl,
    line = ws ++ opt ++ kw ++ name ++ "'"%char :: tl
    ∧ Forall (λ c, Char.isspace c = true) ws
    ∧ call_site_shape opt
    ∧ str_lower kw = lit_str "calls function '"
    ∧ name ≠ [] ∧ ("'"%char ∉ name).

(** The two parts of [CALL_RX] after the leading white space: the
    call-site tag and the words with the name. *)
Definition call_site : regex :=
  Seq (lit (lit_str "CS<"))
    (Seq (Star true 0 (none_of ">"))
       (Seq (Chr ">") (Seq (Star true 1 Char.isspace) Eps))).

Definition call_tail : regex :=
  Seq (lit (lit_str "calls function '"))
    (Seq (Grp 1 (Star true 1 (none_of "'"))) (Seq (Chr "'") Eps)).

(** Some evidence of pointer use is reported. *)
Definition reports_evidence (r : Usage.t) : Prop :=
  Usage.has_address_taken r = true
  ∨ Usage.function_registration r ≠ []
  ∨ Usage.suspicious_patterns r ≠ [].

(** [s] shows a piece of [c_text] on one line: the piece with its line
    feeds replaced by spaces. *)
Definition window_of (c_text s : str) : Prop :=
  (Char.nl ∉ s)
  ∧ ∃ piece, occurs piece c_text ∧ s = replace_nl_space piece.

(** What the three loops keep: evidence comes with a snippet, and
    every snippet is a window of the text. *)
Definition well_shown (c_text : str) (r : Usage.t) : Prop :=
  (reports_evidence r → Usage.context_snippets r ≠ [])
  ∧ Forall (window_of c_text) (Usage.context_snippets r).

(** Where the cut starts and ends, for a located start [sig_start] and
    a closing brace at index [at_i]: one line feed before [sig_start]
    and one after the brace are taken along when they stand there. *)
Definition span_start (text : str) (sig_start : Z) : Z :=
  if bool_decide (0 < sig_start
                  ∧ text !! Z.to_nat (sig_start - 1) = Some Char.nl)
  then sig_start - 1 else sig_start.

Definition span_end (text : str) (at_i : Z) : Z :=
  if bool_decide (text !! Z.to_nat (at_i + 1) = Some Char.nl)
  then at_i + 2 else at_i + 1.

(** A successful removal of [func] from [text], read off its result
    [r]: the start is the one that [locate] hands over, the closing brace
    the one that the scan from the opening brace stops at, and the text
    between [span_start] and [span_end] is what goes. *)
Definition cuts_located_span (text func : str) (r : removal) : Prop :=
  ∃ sig_start brace_idx at_i s,
    locate text func = Ok (Found sig_start brace_idx)
    ∧ located_at text func (Found sig_start brace_idx)
    ∧ scan_loop (length text) text
        (Scan brace_idx 0 false false false false false)
      = Ok (Some at_i, s)
    ∧ brace_idx < at_i < len text
    ∧ text !! Z.to_nat at_i = Some "}"%char
    ∧ new_text r
      = take (Z.to_nat (span_start text sig_start)) text
        ++ drop (Z.to_nat (span_end text at_i)) text
    ∧ info_msg r
      = Removed (span_end text at_i - span_start text sig_start)
    ∧ (Re.finditer false (definition_rx func) text ≠ [] →
       sig_start = 0 ∨ text !! Z.to_nat sig_start = Some Char.nl).

(** Whether a run succeeds depends on the continuation only through the
    cursors at which the continuation succeeds. *)
Definition passes (k1 k2 : cont) : Prop :=
  ∀ cu c1 c2, is_Some (k1 cu c1) → is_Some (k2 cu c2).

End MoreNotions.


(* ===================================================================== *)
(** * Properties of the matcher *)
(* ===================================================================== *)
Module ReFacts.
Import Re Notions.

Lemma finditer_from_skip ic r next i pv c tl :
  (i < next)%nat →
  finditer_from ic r next i pv (c :: tl)
  = finditer_from ic r next (S i) (Some c) tl.
Proof. intros H. simpl. apply Nat.ltb_lt in H. by rewrite H. Qed.

Lemma finditer_from_here ic r next i pv c tl :
  (next ≤ i)%nat →
  finditer_from ic r next i pv (c :: tl)
  = matches_here ic r (Cursor i pv (c :: tl))
    ++ finditer_from ic r
         (resume_after (matches_here ic r (Cursor i pv (c :: tl))) i)
         (S i) (Some c) tl.
Proof. intros H. simpl. apply Nat.ltb_ge in H. by rewrite H. Qed.

(** ** What a successful run of the matcher went through *)

Lemma star_greedy_reaches p lo k cs i pv l cnt res :
  star_greedy p lo k cs i pv l cnt = Some res →
  reaches false (Cursor i pv l) k res.
Proof.
  revert i pv cnt. induction l as [|c tl IH]; intros i pv cnt; simpl.
  - destruct (lo <=? cnt)%nat; [|done]. intros Hk.
    exists (Cursor i pv []), cs. split; [done|simpl; lia].
  - destruct (p c).
    + destruct (star_greedy p lo k cs (S i) (Some c) tl (S cnt)) eqn:Hrec.
      * intros [= <-]. destruct (IH _ _ _ Hrec) as (cu' & cs' & Hk & Hpos).
        exists cu', cs'. split; [done|simpl in *; lia].
      * destruct (lo <=? cnt)%nat; [|done]. intros Hk.
        exists (Cursor i pv (c :: tl)), cs. split; [done|simpl; lia].
    + destruct (lo <=? cnt)%nat; [|done]. intros Hk.
      exists (Cursor i pv (c :: tl)), cs. split; [done|simpl; lia].
Qed.

Lemma star_lazy_reaches p lo k cs i pv l cnt res :
  star_lazy p lo k cs i pv l cnt = Some res →
  reaches false (Cursor i pv l) k res.
Proof.
  revert i pv cnt. induction l as [|c tl IH]; intros i pv cnt; simpl.
  - destruct (lo <=? cnt)%nat; [|done].
    destruct (k (Cursor i pv []) cs) eqn:Hk; [|done]. intros [= <-].
    exists (Cursor i pv []), cs. split; [done|simpl; lia].
  - destruct (if (lo <=? cnt)%nat then k (Cursor i pv (c :: tl)) cs else None)
      eqn:Hk.
    + intros [= <-]. destruct (lo <=? cnt)%nat; [|done].
      exists (Cursor i pv (c :: tl)), cs. split; [done|simpl; lia].
    + destruct (p c); [|done]. intros Hrec.
      destruct (IH _ _ _ Hrec) as (cu' & cs' & Hk' & Hpos).
      exists cu', cs'. split; [done|simpl in *; lia].
Qed.

(** The matcher only returns what its continuation returns, and the
    continuation runs at or after the starting cursor. *)
Lemma exec_reaches ic r cu cs k res :
  exec ic r cu cs k = Some res → reaches false cu k res.
Proof.
  revert cu cs k.
  induction r as [|c|p|r1 IH1 r2 IH2|r1 IH1 r2 IH2|g lo p|r1 IH1|n r1 IH1
                  | | |p|p]; intros cu cs k; simpl.
  - intros Hk. exists cu, cs. split; [done|lia].
  - destruct (rest cu) as [|x tl]; [done|]. destruct (chr_eq ic c x); [|done].
    intros Hk. eexists _, _. split; [exact Hk|simpl; lia].
  - destruct (rest cu) as [|x tl]; [done|]. destruct (p x); [|done].
    intros Hk. eexists _, _. split; [exact Hk|simpl; lia].
  - intros H1. destruct (IH1 _ _ _ H1) as (cu1 & cs1 & H2 & Hp1).
    destruct (IH2 _ _ _ H2) as (cu2 & cs2 & Hk & Hp2).
    exists cu2, cs2. split; [done|lia].
  - destruct (exec ic r1 cu cs k) eqn:H1.
    + intros [= <-]. by apply (IH1 _ _ _ H1).
    + apply IH2.
  - destruct cu as [i pv l]. destruct g; simpl.
    + apply star_greedy_reaches.
    + apply star_lazy_reaches.
  - destruct (exec ic r1 cu cs k) eqn:H1.
    + intros [= <-]. by apply (IH1 _ _ _ H1).
    + intros Hk. exists cu, cs. split; [done|lia].
  - intros H1. destruct (IH1 _ _ _ H1) as (cu1 & cs1 & Hk & Hp1).
    eexists _, _. split; [exact Hk|lia].
  - destruct (prev cu) as [c|]; [case_match; [|done]|];
      intros Hk; exists cu, cs; (split; [done|lia]).
  - destruct (xorb _ _); [|done].
    intros Hk; exists cu, cs; (split; [done|lia]).
  - destruct (prev cu) as [c|]; [destruct (p c); [done|]|];
      intros Hk; exists cu, cs; (split; [done|lia]).
  - destruct (rest cu) as [|c ?]; [|destruct (p c); [done|]];
      intros Hk; exists cu, cs; (split; [done|lia]).
Qed.

Lemma consuming_chr c : consuming (Chr c).
Proof.
  intros ic cu cs k res. simpl.
  destruct (rest cu) as [|x tl]; [done|]. destruct (chr_eq ic c x); [|done].
  intros Hk. eexists _, _. split; [exact Hk|simpl; lia].
Qed.

Lemma consuming_seq_r r1 r2 : consuming r2 → consuming (Seq r1 r2).
Proof.
  intros H2 ic cu cs k res H. simpl in H.
  destruct (exec_reaches _ _ _ _ _ _ H) as (cu1 & cs1 & Hk1 & Hp1).
  destruct (H2 _ _ _ _ _ Hk1) as (cu2 & cs2 & Hk & Hp2).
  exists cu2, cs2. split; [done|simpl in *; lia].
Qed.

Lemma consuming_grp n r : consuming r → consuming (Grp n r).
Proof.
  intros H1 ic cu cs k res H. simpl in H.
  destruct (H1 _ _ _ _ _ H) as (cu1 & cs1 & Hk & Hp).
  eexists _, _. split; [exact Hk|done].
Qed.

Lemma match_at_span ic r must cu m :
  match_at ic r must cu = Some m →
  m_start m = pos cu ∧ (m_start m ≤ m_end m)%nat.
Proof.
  unfold match_at. destruct (exec _ _ _ _ _) as [[cu' cs]|] eqn:H; [|done].
  intros [= <-]. simpl. split; [done|].
  destruct (exec_reaches _ _ _ _ _ _ H) as (cu1 & cs1 & Hk & Hp).
  unfold accept in Hk. destruct (_ && _); [done|].
  injection Hk as <- <-. simpl in Hp. lia.
Qed.

Lemma match_at_consuming ic r must cu m :
  consuming r → match_at ic r must cu = Some m →
  (m_start m < m_end m)%nat.
Proof.
  intros Hr. unfold match_at.
  destruct (exec _ _ _ _ _) as [[cu' cs]|] eqn:H; [|done].
  intros [= <-]. simpl.
  destruct (Hr _ _ _ _ _ H) as (cu1 & cs1 & Hk & Hp).
  unfold accept in Hk. destruct (_ && _); [done|].
  injection Hk as <- <-. simpl in Hp. lia.
Qed.

Lemma matches_here_consuming ic r cu m :
  consuming r → m ∈ matches_here ic r cu → (m_start m < m_end m)%nat.
Proof.
  intros Hr. unfold matches_here.
  destruct (match_at ic r false cu) as [m1|] eqn:H1; [|by intros ?%elem_of_nil].
  pose proof (match_at_consuming _ _ _ _ _ Hr H1).
  destruct (m_end m1 =? pos cu)%nat.
  - destruct (match_at ic r true cu) as [m2|] eqn:H2.
    + pose proof (match_at_consuming _ _ _ _ _ Hr H2).
      intros [->|[->|?%elem_of_nil]%elem_of_cons]%elem_of_cons; done.
    + intros [->|?%elem_of_nil]%elem_of_cons; done.
  - intros [->|?%elem_of_nil]%elem_of_cons; done.
Qed.

Lemma finditer_from_consuming ic r next i pv l m :
  consuming r → m ∈ finditer_from ic r next i pv l →
  (m_start m < m_end m)%nat.
Proof.
  intros Hr. revert next i pv. induction l as [|c tl IH]; intros next i pv.
  - simpl. destruct (i <? next)%nat; [by intros ?%elem_of_nil|].
    by apply matches_here_consuming.
  - simpl. destruct (i <? next)%nat; [apply IH|].
    intros [?|?]%elem_of_app; [by eapply matches_here_consuming|by eapply IH].
Qed.

(** The first match of an iteration is the match of a search. *)
Lemma head_finditer_from ic r next i pv l :
  (next ≤ i)%nat →
  head (finditer_from ic r next i pv l) = search_from ic r i pv l.
Proof.
  revert next i pv. induction l as [|c tl IH]; intros next i pv Hle;
    cbn [finditer_from search_from];
    apply Nat.ltb_ge in Hle; rewrite Hle; unfold matches_here;
    destruct (match_at ic r false _) as [m|] eqn:Hm; try done.
  - by repeat case_match.
  - by repeat case_match.
  - cbn [app resume_after last]. by apply IH.
Qed.

Lemma head_finditer ic r text : head (finditer ic r text) = search ic r text.
Proof. by apply head_finditer_from. Qed.

(** ** Reading a successful run backwards *)

Lemma last_or_cons pv c w : last_or pv (c :: w) = last_or (Some c) w.
Proof. unfold last_or. rewrite last_cons. by destruct (last w). Qed.

Lemma moved_cons i pv c w tl :
  moved i pv (c :: w) tl = moved (S i) (Some c) w tl.
Proof.
  unfold moved. rewrite last_or_cons. simpl. f_equal. lia.
Qed.

Lemma moved_nil i pv tl : moved i pv [] tl = Cursor i pv tl.
Proof. unfold moved, last_or. simpl. f_equal. lia. Qed.

(** A repetition that succeeds has read a run [w] of the class and
    handed the rest to its continuation. *)
Lemma star_greedy_inv p lo k cs i pv l cnt res :
  star_greedy p lo k cs i pv l cnt = Some res →
  ∃ w tl, l = w ++ tl ∧ Forall (λ c, p c = true) w
          ∧ k (moved i pv w tl) cs = Some res.
Proof.
  revert i pv cnt. induction l as [|c l IH]; intros i pv cnt; simpl.
  - destruct (lo <=? cnt)%nat; [|done]. intros Hk.
    exists [], []. by rewrite moved_nil.
  - destruct (p c) eqn:Hc.
    + destruct (star_greedy p lo k cs (S i) (Some c) l (S cnt)) eqn:Hrec.
      * intros [= <-]. destruct (IH _ _ _ Hrec) as (w & tl & -> & Hw & Hk).
        exists (c :: w), tl. rewrite moved_cons. by repeat constructor.
      * destruct (lo <=? cnt)%nat; [|done]. intros Hk.
        exists [], (c :: l). by rewrite moved_nil.
    + destruct (lo <=? cnt)%nat; [|done]. intros Hk.
      exists [], (c :: l). by rewrite moved_nil.
Qed.

Lemma star_lazy_inv p lo k cs i pv l cnt res :
  star_lazy p lo k cs i pv l cnt = Some res →
  ∃ w tl, l = w ++ tl ∧ Forall (λ c, p c = true) w
          ∧ k (moved i pv w tl) cs = Some res.
Proof.
  revert i pv cnt. induction l as [|c l IH]; intros i pv cnt; simpl.
  - destruct (lo <=? cnt)%nat; [|done].
    destruct (k (Cursor i pv []) cs) eqn:Hk; [|done]. intros [= <-].
    exists [], []. by rewrite moved_nil.
  - destruct (if (lo <=? cnt)%nat then k (Cursor i pv (c :: l)) cs else None)
      eqn:Hk.
    + intros [= <-]. destruct (lo <=? cnt)%nat; [|done].
      exists [], (c :: l). by rewrite moved_nil.
    + destruct (p c) eqn:Hc; [|done]. intros Hrec.
      destruct (IH _ _ _ Hrec) as (w & tl & -> & Hw & Hk').
      exists (c :: w), tl. rewrite moved_cons. by repeat constructor.
Qed.

Lemma exec_chr_inv c cu cs k res :
  exec false (Chr c) cu cs k = Some res →
  ∃ tl, rest cu = c :: tl ∧ k (Cursor (S (pos cu)) (Some c) tl) cs = Some res.
Proof.
  simpl. destruct (rest cu) as [|x tl]; [done|].
  unfold chr_eq, Char.eqc. destruct (Ascii.eqb_spec c x) as [<-|]; [|done].
  intros Hk. by exists tl.
Qed.

Lemma exec_seq ic r1 r2 cu cs k :
  exec ic (Seq r1 r2) cu cs k
  = exec ic r1 cu cs (λ cu' cs', exec ic r2 cu' cs' k).
Proof. done. Qed.

(** A literal that matches, case-sensitively, has read itself. *)
Lemma exec_lit_inv s r i pv l cs k res :
  exec false (Seq (lit s) r) (Cursor i pv l) cs k = Some res →
  ∃ tl, l = s ++ tl ∧ exec false r (moved i pv s tl) cs k = Some res.
Proof.
  revert i pv l. induction s as [|c s IH]; intros i pv l.
  - simpl. intros H. exists l. by rewrite moved_nil.
  - change (lit (c :: s)) with (Seq (Chr c) (lit s)).
    rewrite !exec_seq. intros H.
    apply exec_chr_inv in H as (tl & Hl & H). simpl in Hl. subst l.
    rewrite <- exec_seq in H.
    destruct (IH _ _ _ H) as (tl' & -> & H').
    exists tl'. by rewrite moved_cons.
Qed.

(** ** Running the matcher forwards *)

Lemma exec_lit_app s r i pv tl cs k :
  exec false (Seq (lit s) r) (Cursor i pv (s ++ tl)) cs k
  = exec false r (moved i pv s tl) cs k.
Proof.
  revert i pv. induction s as [|c s IH]; intros i pv.
  - by rewrite moved_nil.
  - change (lit (c :: s)) with (Seq (Chr c) (lit s)).
    rewrite !exec_seq. simpl app. cbn [exec rest pos].
    unfold chr_eq, Char.eqc. rewrite Ascii.eqb_refl.
    rewrite <- exec_seq, IH. by rewrite moved_cons.
Qed.

(** A greedy repetition first tries its continuation after the whole
    run. *)
Lemma star_greedy_run p k cs i pv w tl cnt res :
  Forall (λ c, p c = true) w →
  match tl with c :: _ => p c = false | [] => True end →
  k (moved i pv w tl) cs = Some res →
  star_greedy p 0 k cs i pv (w ++ tl) cnt = Some res.
Proof.
  intros Hw Htl. revert i pv cnt.
  induction Hw as [|c w Hc Hw IH]; intros i pv cnt Hk.
  - rewrite moved_nil in Hk. destruct tl as [|c tl]; simpl; [done|].
    by rewrite Htl.
  - rewrite moved_cons in Hk. simpl. rewrite Hc. by rewrite (IH _ _ _ Hk).
Qed.

(** A lazy repetition answers with its continuation at the first split
    of the run where the continuation succeeds. *)
Lemma star_lazy_first p k cs i pv w tl cnt res :
  Forall (λ c, p c = true) w →
  (∀ w1 w2, w = w1 ++ w2 → w2 ≠ [] →
            k (moved i pv w1 (w2 ++ tl)) cs = None) →
  k (moved i pv w tl) cs = Some res →
  star_lazy p 0 k cs i pv (w ++ tl) cnt = Some res.
Proof.
  intros Hw. revert i pv cnt.
  induction Hw as [|c w Hc Hw IH]; intros i pv cnt Hnone Hk.
  - rewrite moved_nil in Hk. destruct tl; simpl; by rewrite Hk.
  - simpl.
    pose proof (Hnone [] (c :: w) eq_refl ltac:(done)) as H0.
    rewrite moved_nil in H0. simpl in H0. rewrite H0, Hc.
    apply IH.
    + intros w1 w2 -> Hw2. specialize (Hnone (c :: w1) w2 eq_refl Hw2).
      by rewrite moved_cons in Hnone.
    + by rewrite moved_cons in Hk.
Qed.

Lemma star_lazy_none p k cs i pv w tl cnt :
  Forall (λ c, p c = true) w →
  match tl with c :: _ => p c = false | [] => True end →
  (∀ w1 w2, w = w1 ++ w2 → k (moved i pv w1 (w2 ++ tl)) cs = None) →
  star_lazy p 0 k cs i pv (w ++ tl) cnt = None.
Proof.
  intros Hw Htl. revert i pv cnt.
  induction Hw as [|c w Hc Hw IH]; intros i pv cnt Hnone.
  - pose proof (Hnone [] [] eq_refl) as H0. rewrite moved_nil in H0.
    simpl in H0. destruct tl as [|c tl]; simpl; rewrite H0; [done|].
    by rewrite Htl.
  - simpl.
    pose proof (Hnone [] (c :: w) eq_refl) as H0.
    rewrite moved_nil in H0. simpl in H0. rewrite H0, Hc.
    apply IH. intros w1 w2 ->. specialize (Hnone (c :: w1) w2 eq_refl).
    by rewrite moved_cons in Hnone.
Qed.

(** A search passes over a stretch where no match starts. *)
Lemma search_from_skip ic r i pv w tl :
  (∀ w1 w2, w = w1 ++ w2 → w2 ≠ [] →
            match_at ic r false (moved i pv w1 (w2 ++ tl)) = None) →
  search_from ic r i pv (w ++ tl)
  = search_from ic r (i + length w) (last_or pv w) tl.
Proof.
  revert i pv. induction w as [|c w IH]; intros i pv Hnone.
  - simpl. unfold last_or. simpl. by rewrite Nat.add_0_r.
  - pose proof (Hnone [] (c :: w) eq_refl ltac:(done)) as H0.
    rewrite moved_nil in H0. simpl app in *. cbn [search_from].
    rewrite H0, IH.
    + rewrite last_or_cons. f_equal. simpl. lia.
    + intros w1 w2 -> Hw2. specialize (Hnone (c :: w1) w2 eq_refl Hw2).
      by rewrite moved_cons in Hnone.
Qed.

End ReFacts.

(* ===================================================================== *)
(** * Properties of the built-ins *)
(* ===================================================================== *)
Module PyFacts.
Import Py.

Lemma len_nonneg (s : str) : 0 ≤ len s.
Proof. unfold len. lia. Qed.

(** Indexing inside the bounds does not raise. *)
Lemma index_in_range (s : str) (i : Z) :
  0 ≤ i < len s → ∃ c, index s i = Ok c ∧ s !! Z.to_nat i = Some c.
Proof.
  intros Hi. unfold index.
  destruct (Z.ltb_spec i 0); [lia|]. destruct (Z.ltb_spec i 0); [lia|].
  destruct (lookup_lt_is_Some_2 s (Z.to_nat i)) as [c Hc].
  { unfold len in Hi. lia. }
  exists c. by rewrite Hc.
Qed.

Lemma clip_nonneg (s : str) (i : Z) :
  0 ≤ i ≤ len s → clip s i = Z.to_nat i.
Proof.
  intros Hi. unfold clip. destruct (Z.ltb_spec i 0); [lia|].
  f_equal. lia.
Qed.

Lemma find_from_range sub i l :
  find_from sub i l = -1
  ∨ Z.of_nat i ≤ find_from sub i l ≤ Z.of_nat (i + length l).
Proof.
  revert i. induction l as [|c tl IH]; intros i; simpl.
  - destruct (starts_with sub []); [right; lia|by left].
  - destruct (starts_with sub (c :: tl)); [right; lia|].
    destruct (IH (S i)) as [->|?]; [by left|right; lia].
Qed.

(** [find] answers [-1] or an index from [start] on. *)
Lemma find_range (s sub : str) (start : Z) :
  0 ≤ start → find s sub start = -1 ∨ start ≤ find s sub start ≤ len s.
Proof.
  intros Hs. unfold find. destruct (Z.ltb_spec start 0); [lia|].
  destruct (Z.ltb_spec (len s) start); [by left|].
  destruct (find_from_range sub (Z.to_nat start) (drop (Z.to_nat start) s))
    as [->|Hr]; [by left|right].
  rewrite length_drop in Hr. unfold len in *. lia.
Qed.

Lemma rfind_in_range c i l acc :
  rfind_in [c] i l acc = acc
  ∨ Z.of_nat i ≤ rfind_in [c] i l acc < Z.of_nat (i + length l).
Proof.
  revert i acc. induction l as [|x tl IH]; intros i acc; [by left|].
  cbn [rfind_in].
  destruct (starts_with [c] (x :: tl)).
  - destruct (IH (S i) (Z.of_nat i)) as [->|?]; right; simpl; lia.
  - destruct (IH (S i) acc) as [->|?]; [by left|right; simpl; lia].
Qed.

(** [rfind] of one character from 0 answers [-1] or an index below
    [stop]. *)
Lemma rfind_range (s : str) (c : ascii) (stop : Z) :
  0 ≤ stop → -1 ≤ rfind s [c] 0 stop < stop.
Proof.
  intros Hs. unfold rfind. cbv zeta.
  change (if 0 <? 0 then Z.max 0 (len s + 0) else 0) with 0.
  pose proof (len_nonneg s).
  destruct (Z.ltb_spec (len s) 0); [lia|].
  destruct (Nat.ltb_spec (clip s stop) (Z.to_nat 0)); [lia|].
  assert (clip s stop ≤ Z.to_nat stop)%nat as Hclip.
  { unfold clip. destruct (Z.ltb_spec stop 0); lia. }
  match goal with
  | |- context [rfind_in [c] ?i ?l ?acc] =>
      destruct (rfind_in_range c i l acc) as [->|Hr]; [lia|];
      rewrite length_take in Hr
  end.
  lia.
Qed.

(** ** Newline normalisation *)

Lemma replace_crlf_cons_cons c d s :
  replace_crlf (c :: d :: s)
  = if Char.eqc Char.cr c && Char.eqc Char.nl d
    then Char.nl :: replace_crlf s
    else c :: replace_crlf (d :: s).
Proof. done. Qed.

(** Every CRLF pair of the input becomes one LF, wherever it stands. *)
Lemma replace_crlf_app_crlf (a b : str) :
  replace_crlf (a ++ Char.cr :: Char.nl :: b)
  = replace_crlf a ++ Char.nl :: replace_crlf b.
Proof.
  remember (length a) as n eqn:Hn. revert a Hn.
  induction n as [n IH] using lt_wf_ind. intros a ->.
  destruct a as [|c [|d a]].
  - done.
  - change (replace_crlf ([c] ++ Char.cr :: Char.nl :: b))
      with (if Char.eqc Char.cr c && Char.eqc Char.nl Char.cr
            then Char.nl :: replace_crlf (Char.nl :: b)
            else c :: replace_crlf (Char.cr :: Char.nl :: b)).
    change (Char.eqc Char.nl Char.cr) with false. by rewrite andb_false_r.
  - change ((c :: d :: a) ++ Char.cr :: Char.nl :: b)
      with (c :: d :: (a ++ Char.cr :: Char.nl :: b)).
    rewrite !replace_crlf_cons_cons.
    destruct (Char.eqc Char.cr c && Char.eqc Char.nl d).
    + rewrite (IH (length a)); [done|simpl; lia|done].
    + change (d :: a ++ Char.cr :: Char.nl :: b)
        with ((d :: a) ++ Char.cr :: Char.nl :: b).
      rewrite (IH (length (d :: a))); [done|simpl; lia|done].
Qed.

(** A text without carriage return is left as it is. *)
Lemma replace_crlf_plain (s : str) :
  Forall (λ c, Char.eqc Char.cr c = false) s → replace_crlf s = s.
Proof.
  induction 1 as [|c s Hc Hs IH]; [done|].
  destruct s as [|d s]; [done|].
  rewrite replace_crlf_cons_cons, Hc. cbn [andb]. by rewrite IH.
Qed.

(** A prefix without carriage return is left as it is. *)
Lemma replace_crlf_app_plain (a b : str) :
  Forall (λ c, Char.eqc Char.cr c = false) a →
  replace_crlf (a ++ b) = a ++ replace_crlf b.
Proof.
  induction 1 as [|c a Hc Ha IH]; [done|].
  change ((c :: a) ++ b) with (c :: (a ++ b)).
  destruct (a ++ b) as [|d tl] eqn:Hab.
  - destruct a; [|done]. simpl in Hab. subst b. done.
  - rewrite replace_crlf_cons_cons, Hc. cbn [andb]. by rewrite IH.
Qed.

End PyFacts.
(* ===================================================================== *)
(** * Properties of the traversals *)
(* ===================================================================== *)
Module TraversalFacts.
Import Py Slicer Notions.

Lemma pending_in_mono seen seen' l :
  seen ⊆ seen' → (pending_in seen' l ≤ pending_in seen l)%nat.
Proof.
  intros Hsub. induction l as [|[k v] l IH]; simpl; [lia|].
  destruct (decide (k ∈ seen')), (decide (k ∈ seen)); try lia.
  exfalso. set_solver.
Qed.

Lemma pending_in_visit seen l who v :
  NoDup l.*1 → (who, v) ∈ l → who ∉ seen →
  (pending_in ({[who]} ∪ seen) l + size v ≤ pending_in seen l)%nat.
Proof.
  induction l as [|[k w] l IH]; simpl; intros Hnd Hin Hwho.
  - by apply elem_of_nil in Hin.
  - apply NoDup_cons in Hnd as [Hk Hnd].
    apply elem_of_cons in Hin as [Heq|Hin].
    + injection Heq as <- <-.
      destruct (decide (who ∈ {[who]} ∪ seen)) as [_|Hn]; [|set_solver].
      destruct (decide (who ∈ seen)); [done|].
      pose proof (pending_in_mono seen ({[who]} ∪ seen) l). set_solver by lia.
    + assert (k ≠ who) as Hne.
      { intros ->. apply Hk. apply list_elem_of_fmap. by exists (who, v). }
      specialize (IH Hnd Hin Hwho).
      destruct (decide (k ∈ {[who]} ∪ seen)), (decide (k ∈ seen));
        try lia; set_solver.
Qed.

Lemma pending_visit m seen who :
  who ∉ seen →
  (pending m ({[who]} ∪ seen) + size (get_set m who) ≤ pending m seen)%nat.
Proof.
  intros Hwho. unfold pending, get_set.
  destruct (m !! who) as [v|] eqn:Hm.
  - apply pending_in_visit; [apply NoDup_fst_map_to_list| |done].
    by apply elem_of_map_to_list.
  - change (default ∅ None) with (∅ : gset str).
    rewrite size_empty, Nat.add_0_r. apply pending_in_mono. set_solver.
Qed.

Lemma pending_empty m : pending m ∅ = edge_count m.
Proof.
  unfold pending, edge_count, pending_in.
  induction (map_to_list m) as [|[k v] l IH]; simpl; [done|].
  rewrite IH. destruct (decide (k ∈ (∅ : gset str))); [set_solver|done].
Qed.

(** A set that holds the direct neighbours of [t] and is closed under
    [calls] holds everything that reaches [t]. *)
Lemma closed_reach (m : gmap str (gset str)) (t : str) (seen : gset str) :
  (∀ x, x ∈ get_set m t → x ∈ seen) →
  (∀ x y, x ∈ seen → y ∈ get_set m x → y ∈ seen) →
  ∀ x, tc (calls m) x t → x ∈ seen.
Proof.
  intros Hb Hc x Hx. revert Hb.
  induction Hx as [x y Hxy|x y z Hxy _ IHy]; intros Hb.
  - by apply Hb.
  - apply (Hc y x); [by apply IHy|done].
Qed.

(** ** The order of [sorted] *)

Lemma code_inj x y : Char.code x = Char.code y → x = y.
Proof.
  unfold Char.code. intros H.
  by rewrite <- (ascii_N_embedding x), <- (ascii_N_embedding y), H.
Qed.

Global Instance str_le_total : Total str_le.
Proof.
  intros a. unfold str_le. induction a as [|x a IH]; intros [|y b]; simpl; auto.
  destruct (N.ltb_spec (Char.code x) (Char.code y)),
    (N.ltb_spec (Char.code y) (Char.code x)); auto; lia.
Qed.

Global Instance str_le_trans : Transitive str_le.
Proof.
  intros a. unfold str_le.
  induction a as [|x a IH]; intros [|y b] [|z c]; simpl; auto; try done.
  destruct (N.ltb_spec (Char.code x) (Char.code y)),
    (N.ltb_spec (Char.code y) (Char.code x)),
    (N.ltb_spec (Char.code y) (Char.code z)),
    (N.ltb_spec (Char.code z) (Char.code y)),
    (N.ltb_spec (Char.code x) (Char.code z)),
    (N.ltb_spec (Char.code z) (Char.code x)); try done; try lia.
  apply IH.
Qed.

Global Instance str_le_antisym : AntiSymm (=) str_le.
Proof.
  intros a. unfold str_le.
  induction a as [|x a IH]; intros [|y b]; simpl; auto; try done.
  destruct (N.ltb_spec (Char.code x) (Char.code y)),
    (N.ltb_spec (Char.code y) (Char.code x)); try done; try lia.
  intros Hab Hba. f_equal; [apply code_inj; lia|by apply IH].
Qed.

Section WithIteration.
Variable set_iter : gset str → list str.
Hypothesis set_iter_perm : ∀ s, set_iter s ≡ₚ elements s.

Lemma elem_of_set_iter (s : gset str) (x : str) : x ∈ set_iter s ↔ x ∈ s.
Proof. rewrite (set_iter_perm s). apply elem_of_elements. Qed.

Lemma length_set_iter (s : gset str) : length (set_iter s) = size s.
Proof. by rewrite (set_iter_perm s). Qed.

Lemma NoDup_set_iter (s : gset str) : NoDup (set_iter s).
Proof. rewrite (set_iter_perm s). apply NoDup_elements. Qed.

Lemma elem_of_push_unseen seen work nb x :
  x ∈ push_unseen set_iter seen work nb ↔ x ∈ work ∨ (x ∈ nb ∧ x ∉ seen).
Proof.
  unfold push_unseen. rewrite <- elem_of_set_iter.
  generalize (set_iter nb) as l. intros l. revert work.
  induction l as [|a l IH]; intros work; simpl.
  - rewrite elem_of_nil. tauto.
  - rewrite IH, elem_of_cons. destruct (decide (a ∈ seen)) as [Ha|Ha].
    + split; [tauto|]. intros [?|[[->|?] ?]]; tauto.
    + rewrite elem_of_cons. split; [|tauto].
      intros [[->|?]|[? ?]]; tauto.
Qed.

Lemma length_push_unseen seen work nb :
  (length (push_unseen set_iter seen work nb) ≤ length work + size nb)%nat.
Proof.
  unfold push_unseen. rewrite <- length_set_iter.
  generalize (set_iter nb) as l. intros l. revert work.
  induction l as [|a l IH]; intros work; simpl; [lia|].
  destruct (decide (a ∈ seen)); etrans; [apply IH| |apply IH|]; simpl; lia.
Qed.

(** The loop of [get_transitive_callers] ends within its budget. *)
Lemma callers_loop_terminates m fuel seen work :
  (length work + pending m seen ≤ fuel)%nat →
  is_Some (callers_loop set_iter fuel m seen work).
Proof.
  revert seen work. induction fuel as [|fuel IH]; intros seen work Hle.
  - destruct work; simpl in *; [eauto|lia].
  - destruct work as [|who work]; simpl in *; [eauto|].
    destruct (decide (who ∈ seen)) as [Hin|Hin].
    + apply IH. lia.
    + apply IH.
      pose proof (length_push_unseen ({[who]} ∪ seen) work (get_set m who)).
      pose proof (pending_visit m seen who Hin). lia.
Qed.

Lemma callers_loop_reach m t fuel seen work res :
  callers_inv m t seen work →
  callers_loop set_iter fuel m seen work = Some res →
  ∀ x, x ∈ res ↔ tc (calls m) x t.
Proof.
  revert seen work.
  induction fuel as [|fuel IH]; intros seen work (Ha & Hb & Hc) Hrun;
    destruct work as [|who work]; simpl in Hrun; try done.
  - injection Hrun as <-. intros x. split; [intros; apply Ha; by left|].
    intros Hx. apply (closed_reach m t seen); [| |done].
    + intros y Hy. destruct (Hb y Hy) as [?|Hn]; [done|by apply elem_of_nil in Hn].
    + intros y z Hy Hz.
      destruct (Hc y z Hy Hz) as [?|Hn]; [done|by apply elem_of_nil in Hn].
  - injection Hrun as <-. intros x. split; [intros; apply Ha; by left|].
    intros Hx. apply (closed_reach m t seen); [| |done].
    + intros y Hy. destruct (Hb y Hy) as [?|Hn]; [done|by apply elem_of_nil in Hn].
    + intros y z Hy Hz.
      destruct (Hc y z Hy Hz) as [?|Hn]; [done|by apply elem_of_nil in Hn].
  - destruct (decide (who ∈ seen)) as [Hin|Hin].
    + apply (IH seen work); [|done]. split_and!.
      * intros x [?|?]; apply Ha; [by left|right; by apply elem_of_cons; right].
      * intros x Hx. destruct (Hb x Hx) as [?|[->|?]%elem_of_cons]; auto.
      * intros x y Hx Hy.
        destruct (Hc x y Hx Hy) as [?|[->|?]%elem_of_cons]; auto.
    + refine (IH _ _ _ Hrun). clear IH Hrun.
      assert (tc (calls m) who t) as Hwho.
      { apply Ha. right. by apply elem_of_cons; left. }
      split_and!.
      * intros x [[->%elem_of_singleton|?]%elem_of_union|Hx]; [done|..].
        { apply Ha; by left. }
        apply elem_of_push_unseen in Hx as [?|[Hx _]].
        { apply Ha. right. by apply elem_of_cons; right. }
        by eapply tc_l.
      * intros x Hx. rewrite elem_of_push_unseen.
        destruct (Hb x Hx) as [?|[->|?]%elem_of_cons]; set_solver.
      * intros x y Hx Hy. rewrite elem_of_push_unseen.
        destruct (decide (y ∈ {[who]} ∪ seen)) as [?|Hny]; [by left|right].
        apply elem_of_union in Hx as [->%elem_of_singleton|Hx]; [by right|].
        destruct (Hc x y Hx Hy) as [?|[->|?]%elem_of_cons]; set_solver.
Qed.

Lemma elem_of_push_unseen_depth seen work nb d p :
  p ∈ push_unseen_depth set_iter seen work nb d
  ↔ p ∈ work ∨ (∃ x, p = (x, d) ∧ x ∈ nb ∧ x ∉ seen).
Proof.
  unfold push_unseen_depth.
  trans (p ∈ work ∨ (∃ x, p = (x, d) ∧ x ∈ set_iter nb ∧ x ∉ seen));
    [|pose proof (elem_of_set_iter nb); naive_solver].
  generalize (set_iter nb) as l. intros l. revert work.
  induction l as [|a l IH]; intros work; simpl.
  - setoid_rewrite elem_of_nil. naive_solver.
  - rewrite IH. setoid_rewrite elem_of_cons.
    destruct (decide (a ∈ seen)) as [Ha|Ha].
    + naive_solver.
    + rewrite elem_of_cons. naive_solver.
Qed.

Lemma length_push_unseen_depth seen work nb d :
  (length (push_unseen_depth set_iter seen work nb d)
   ≤ length work + size nb)%nat.
Proof.
  unfold push_unseen_depth. rewrite <- length_set_iter.
  generalize (set_iter nb) as l. intros l. revert work.
  induction l as [|a l IH]; intros work; simpl; [lia|].
  destruct (decide (a ∈ seen)); etrans; [apply IH| |apply IH|]; simpl; lia.
Qed.

(** The loop of [get_transitive_callees] ends within its budget, for
    every depth bound. *)
Lemma callees_walk_terminates m max_depth fuel seen work :
  (length work + pending m seen ≤ fuel)%nat →
  is_Some (callees_walk set_iter fuel m max_depth seen work).
Proof.
  revert seen work. induction fuel as [|fuel IH]; intros seen work Hle.
  - destruct work as [|[??] ?]; simpl in *; [eauto|lia].
  - destruct work as [|[who d] work]; simpl in *; [eauto|].
    destruct (bool_decide (who ∈ seen) || (max_depth <? d)) eqn:Hskip.
    + apply IH. lia.
    + apply orb_false_iff in Hskip as [Hin%bool_decide_eq_false _].
      apply IH.
      pose proof (length_push_unseen_depth ({[who]} ∪ seen) work
                    (get_set m who) (d + 1)).
      pose proof (pending_visit m seen who Hin). lia.
Qed.

(** With [max_depth = 1] the walk collects the nodes pushed at depth 1
    and nothing else. *)
Lemma callees_walk_depth1 (m : gmap str (gset str)) (direct : gset str)
    fuel seen (work : list (str * Z)) res :
  (∀ x d, (x, d) ∈ work → (d = 1 ∧ x ∈ direct) ∨ 1 < d) →
  seen ⊆ direct →
  (∀ x, x ∈ direct → x ∈ seen ∨ (x, 1) ∈ work) →
  callees_walk set_iter fuel m 1 seen work = Some res →
  res = direct.
Proof.
  revert seen work.
  induction fuel as [|fuel IH]; intros seen work Ha Hb Hc Hrun;
    destruct work as [|[who d] work]; simpl in Hrun; try done.
  1,2: injection Hrun as <-; apply set_eq; intros x; split; [set_solver|];
       intros Hx; destruct (Hc x Hx) as [?|Hn]; [done|by apply elem_of_nil in Hn].
  destruct (bool_decide (who ∈ seen) || (1 <? d)) eqn:Hskip.
  - apply (IH seen work); [| |  |done].
    + intros x e Hx. apply Ha. by apply elem_of_cons; right.
    + done.
    + intros x Hx. destruct (Hc x Hx) as [?|[Heq|?]%elem_of_cons]; auto.
      injection Heq as -> <-.
      apply orb_true_iff in Hskip as [?%bool_decide_eq_true|?]; [auto|lia].
  - apply orb_false_iff in Hskip as [Hin%bool_decide_eq_false Hd%Z.ltb_ge].
    destruct (Ha who d) as [[-> Hwho]|?]; [by apply elem_of_cons; left| |lia].
    refine (IH _ _ _ _ _ Hrun).
    + intros x e [Hx|(y & [= -> ->] & _)]%elem_of_push_unseen_depth; [|lia].
      apply Ha. by apply elem_of_cons; right.
    + set_solver.
    + intros x Hx. rewrite elem_of_push_unseen_depth.
      destruct (Hc x Hx) as [?|[[= ->]|?]%elem_of_cons]; set_solver.
Qed.

(** ** [sorted] *)

Lemma sorted_perm (s : gset str) : sorted set_iter s ≡ₚ elements s.
Proof. unfold sorted. by rewrite merge_sort_Permutation. Qed.

Lemma elem_of_sorted (s : gset str) x : x ∈ sorted set_iter s ↔ x ∈ s.
Proof. rewrite sorted_perm. apply elem_of_elements. Qed.

Lemma NoDup_sorted (s : gset str) : NoDup (sorted set_iter s).
Proof. rewrite sorted_perm. apply NoDup_elements. Qed.

Lemma sorted_strongly (s : gset str) :
  StronglySorted str_le (sorted set_iter s).
Proof. apply StronglySorted_merge_sort; apply _. Qed.

(** The sorted list does not depend on the enumeration order. *)
Lemma sorted_any_order (s : gset str) :
  sorted set_iter s = sorted elements s.
Proof.
  apply (StronglySorted_unique str_le).
  - apply sorted_strongly.
  - apply StronglySorted_merge_sort; apply _.
  - unfold sorted. by rewrite !merge_sort_Permutation.
Qed.

(** [get_transitive_callers] returns, and what it returns. *)
Lemma get_transitive_callers_spec m t :
  ∃ seen, get_transitive_callers set_iter m t = Some (sorted set_iter seen)
          ∧ ∀ x, x ∈ seen ↔ tc (calls m) x t.
Proof.
  unfold get_transitive_callers.
  destruct (callers_loop_terminates m (budget m t) ∅
              (reverse (set_iter (get_set m t)))) as [seen Hrun].
  { rewrite length_reverse, length_set_iter, pending_empty. done. }
  exists seen. rewrite Hrun. split; [done|].
  eapply callers_loop_reach; [|done]. split_and!.
  - intros x [Hx|Hx]; [set_solver|].
    apply elem_of_reverse, elem_of_set_iter in Hx. by apply tc_once.
  - intros x Hx. right. by apply elem_of_reverse, elem_of_set_iter.
  - set_solver.
Qed.

Lemma get_transitive_callees_returns m t max_depth :
  is_Some (get_transitive_callees set_iter m t max_depth).
Proof.
  unfold get_transitive_callees. apply fmap_is_Some.
  apply callees_walk_terminates.
  rewrite length_reverse, length_fmap, length_set_iter, pending_empty. done.
Qed.

(** C1 (as amended). The transitive callers of [t] are returned without
    duplicates, hold every direct caller, and are exactly the names from
    which [t] is reached through one or more call edges; so [t] itself
    is among them exactly when [t] lies on a call cycle, as it does when
    a direct caller [b] of [t] is itself called by [t]. *)
Theorem transitive_callers_closure (m : gmap str (gset str)) (t : str) :
  ∃ l, get_transitive_callers set_iter m t = Some l
       ∧ NoDup l
       ∧ (∀ x, x ∈ get_set m t → x ∈ l)
       ∧ (∀ x, x ∈ l ↔ tc (calls m) x t)
       ∧ (t ∈ l ↔ tc (calls m) t t)
       ∧ (∀ b, b ∈ get_set m t → t ∈ get_set m b → b ∈ l ∧ t ∈ l).
Proof.
  destruct (get_transitive_callers_spec m t) as (seen & Hrun & Hseen).
  exists (sorted set_iter seen).
  assert (∀ x, x ∈ sorted set_iter seen ↔ tc (calls m) x t) as Hl.
  { intros x. by rewrite elem_of_sorted. }
  split_and!; [done|apply NoDup_sorted| |done|apply Hl|].
  - intros x Hx. apply Hl. by apply tc_once.
  - intros b Hb Ht. split; apply Hl; [by apply tc_once|].
    eapply tc_l; [exact Ht|by apply tc_once].
Qed.

(** C7. With [max_depth = 1] the transitive callees of [t] are its
    direct callees, sorted. *)
Theorem callees_depth1_direct (m : gmap str (gset str)) (t : str) :
  get_transitive_callees set_iter m t 1
  = Some (sorted set_iter (get_set m t)).
Proof.
  destruct (get_transitive_callees_returns m t 1) as [l Hl].
  rewrite Hl. unfold get_transitive_callees in Hl.
  apply fmap_Some in Hl as (seen & Hrun & ->).
  do 2 f_equal.
  eapply callees_walk_depth1; [| | |exact Hrun].
  - intros x d Hx. apply elem_of_reverse, list_elem_of_fmap in Hx.
    destruct Hx as (y & [= -> ->] & Hy%elem_of_set_iter). by left.
  - set_solver.
  - intros x Hx. right. apply elem_of_reverse, list_elem_of_fmap.
    exists x. by rewrite elem_of_set_iter.
Qed.

(** ** The decision *)

Lemma analyze_target_returns state :
  ∃ a, analyze_target set_iter state = Some a
       ∧ a_callers a = sorted set_iter (get_set (callers_map state) (target state))
       ∧ get_transitive_callers set_iter (callers_map state) (target state)
         = Some (a_callers_transitive a)
       ∧ a_pointer_usage a
         = check_function_pointer_usage (c_text state) (target state)
       ∧ uses_count (a_function_metadata a)
         = uses_count (parse_function_metadata (cg_text state) (target state))
       ∧ (a_decision a, a_edge_case_warnings a)
         = decide_target
             (nonempty (a_callers a) || nonempty (a_callers_transitive a))
             (uses_count (a_function_metadata a)) (a_pointer_usage a)
             (a_callees a).
Proof.
  unfold analyze_target.
  destruct (get_transitive_callers_spec (callers_map state) (target state))
    as (seen & -> & _).
  destruct (get_transitive_callees_returns (callees_map state)
              (target state) 10) as [l ->].
  simpl. destruct (decide_target _ _ _ _) as [d ws] eqn:Hd.
  eexists. split; [done|]. simpl. by rewrite Hd.
Qed.

Lemma nonempty_true {A} (l : list A) : nonempty l = true ↔ l ≠ [].
Proof. by destruct l. Qed.

Lemma elem_of_when {A} (b : bool) (x y : A) :
  y ∈ when b x ↔ b = true ∧ y = x.
Proof.
  destruct b; simpl; [rewrite list_elem_of_singleton|rewrite elem_of_nil];
    naive_solver.
Qed.

(** C2 (as amended). [analyze_target] returns; with a caller the decision
    is [DEPENDENT]; with no direct and no transitive caller it is
    [DEPENDENT], with the override warning, exactly when the address is
    taken or a registration was found, and [SAFE_TO_REMOVE] otherwise; a
    reference-count hint above 0 then adds its warning and nothing
    else. *)
Theorem decision_rule state :
  ∃ a, analyze_target set_iter state = Some a
    ∧ (a_callers a ≠ [] ∨ a_callers_transitive a ≠ [] →
       a_decision a = DEPENDENT)
    ∧ (a_callers a = [] → a_callers_transitive a = [] →
       (if Usage.has_address_taken (a_pointer_usage a)
           || nonempty (Usage.function_registration (a_pointer_usage a))
        then a_decision a = DEPENDENT
             ∧ Overridden ∈ a_edge_case_warnings a
        else a_decision a = SAFE_TO_REMOVE)
       ∧ (0 < uses_count (a_function_metadata a) →
          UsesWithoutCallers (uses_count (a_function_metadata a))
          ∈ a_edge_case_warnings a)).
Proof.
  destruct (analyze_target_returns state) as (a & Hrun & _ & _ & _ & _ & Hd).
  exists a. split; [done|].
  unfold decide_target in Hd.
  destruct (Usage.has_address_taken (a_pointer_usage a)) eqn:Haddr,
    (nonempty (Usage.function_registration (a_pointer_usage a))) eqn:Hreg;
    simpl in Hd; injection Hd as Hdec Hws; rewrite Hdec, Hws; clear Hdec Hws.
  1-3: split; [done|]; intros Hc Ht; split;
       [split; [done|]; rewrite !elem_of_app, list_elem_of_singleton; tauto|];
       intros Hu; rewrite !elem_of_app, elem_of_when, Hc, Ht; simpl;
       left; left; split; [|done]; rewrite andb_true_r; by apply Z.ltb_lt.
  split.
  - intros [H|H]; apply nonempty_true in H; rewrite H; simpl; [done|].
    by rewrite orb_true_r.
  - intros Hc Ht. rewrite Hc, Ht. simpl. split; [done|].
    intros Hu. rewrite !elem_of_app, elem_of_when. left.
    split; [|done]. rewrite andb_true_r. by apply Z.ltb_lt.
Qed.

End WithIteration.

(** ** Instances *)

(** C1, counterexample. On the two-node cycle the transitive callers of
    [A] are [A] and [B]: the target is not excluded. *)
Lemma cycle_callers_hold_target :
  get_transitive_callers elements Samples.cycle_callers Samples.name_A
  = Some [Samples.name_A; Samples.name_B]
  ∧ Samples.name_A ∈ [Samples.name_A; Samples.name_B].
Proof. split; [vm_compute; reflexivity|by left]. Qed.

Lemma transitive_callers_closure_witness :
  (∀ s : gset str, elements s ≡ₚ elements s)
  ∧ ∃ l, get_transitive_callers elements
           Samples.cycle_callers Samples.name_A = Some l
         ∧ NoDup l
         ∧ (∀ x, x ∈ get_set Samples.cycle_callers Samples.name_A → x ∈ l)
         ∧ (∀ x, x ∈ l ↔ tc (calls Samples.cycle_callers) x Samples.name_A)
         ∧ (Samples.name_A ∈ l
            ↔ tc (calls Samples.cycle_callers) Samples.name_A Samples.name_A)
         ∧ (∀ b, b ∈ get_set Samples.cycle_callers Samples.name_A →
                 Samples.name_A ∈ get_set Samples.cycle_callers b →
                 b ∈ l ∧ Samples.name_A ∈ l).
Proof.
  split; [reflexivity|].
  apply (transitive_callers_closure elements); reflexivity.
Defined.

Lemma callees_depth1_direct_witness :
  (∀ s : gset str, elements s ≡ₚ elements s)
  ∧ get_transitive_callees elements Samples.tree_callees Samples.name_A 1
    = Some (sorted elements (get_set Samples.tree_callees Samples.name_A)).
Proof.
  split; [reflexivity|].
  apply (callees_depth1_direct elements); reflexivity.
Defined.

(** The walk on the sample: depth 1 stops at B and C, depth 10 reaches D. *)
Example tree_callees_depth1 :
  get_transitive_callees elements Samples.tree_callees Samples.name_A 1
  = Some [lit_str "B"; lit_str "C"].
Proof. vm_compute. reflexivity. Qed.

Example tree_callees_depth10 :
  get_transitive_callees elements Samples.tree_callees Samples.name_A 10
  = Some [lit_str "B"; lit_str "C"; lit_str "D"].
Proof. vm_compute. reflexivity. Qed.

(** C2, counterexample. No caller and a reference-count hint of 2: the
    decision stays [SAFE_TO_REMOVE]. *)
Lemma uses_hint_does_not_override :
  ∃ a, analyze_target elements Samples.lonely_state = Some a
       ∧ a_callers a = [] ∧ a_callers_transitive a = []
       ∧ uses_count (a_function_metadata a) = 2
       ∧ a_decision a = SAFE_TO_REMOVE
       ∧ a_edge_case_warnings a = [UsesWithoutCallers 2].
Proof. eexists. split; [vm_compute; reflexivity|]. by repeat split. Qed.

Lemma decision_rule_witness :
  (∀ s : gset str, elements s ≡ₚ elements s)
  ∧ ∃ a, analyze_target elements Samples.lonely_state = Some a
    ∧ (a_callers a ≠ [] ∨ a_callers_transitive a ≠ [] →
       a_decision a = DEPENDENT)
    ∧ (a_callers a = [] → a_callers_transitive a = [] →
       (if Usage.has_address_taken (a_pointer_usage a)
           || nonempty (Usage.function_registration (a_pointer_usage a))
        then a_decision a = DEPENDENT
             ∧ Overridden ∈ a_edge_case_warnings a
        else a_decision a = SAFE_TO_REMOVE)
       ∧ (0 < uses_count (a_function_metadata a) →
          UsesWithoutCallers (uses_count (a_function_metadata a))
          ∈ a_edge_case_warnings a)).
Proof.
  split; [reflexivity|].
  apply (decision_rule elements); reflexivity.
Defined.

End TraversalFacts.
(* ===================================================================== *)
(** * Further properties of the traversals *)
(* ===================================================================== *)
Module WalkFacts.
Import Py Slicer Notions TraversalFacts.

(** Whatever reaches [t] does so through a direct neighbour of [t]. *)
Lemma tc_last_step (m : gmap str (gset str)) (x t : str) :
  tc (calls m) x t → ∃ y, y ∈ get_set m t.
Proof.
  induction 1 as [x y Hxy|x y z _ _ IH]; [by exists x|done].
Qed.

Section WithIteration.
Variable set_iter : gset str → list str.
Hypothesis set_iter_perm : ∀ s, set_iter s ≡ₚ elements s.

Lemma fst_push_unseen_depth seen (work : list (str * Z)) nb d :
  (push_unseen_depth set_iter seen work nb d).*1
  = push_unseen set_iter seen work.*1 nb.
Proof.
  unfold push_unseen_depth, push_unseen.
  generalize (set_iter nb) as l. intros l. revert work.
  induction l as [|a l IH]; intros work; simpl; [done|].
  destruct (decide (a ∈ seen)); by rewrite IH.
Qed.

(** What the depth-bounded walk returns was reached within the bound. *)
Lemma callees_walk_sound m t max_depth fuel seen (work : list (str * Z)) res :
  (∀ x, x ∈ seen →
     ∃ n, (1 ≤ n)%nat ∧ Z.of_nat n ≤ max_depth ∧ nsteps (calls m) n x t) →
  (∀ x d, (x, d) ∈ work →
     ∃ n, (1 ≤ n)%nat ∧ Z.of_nat n = d ∧ nsteps (calls m) n x t) →
  callees_walk set_iter fuel m max_depth seen work = Some res →
  ∀ x, x ∈ res →
    ∃ n, (1 ≤ n)%nat ∧ Z.of_nat n ≤ max_depth ∧ nsteps (calls m) n x t.
Proof.
  revert seen work.
  induction fuel as [|fuel IH]; intros seen work Hs Hw Hrun;
    destruct work as [|[who d] work]; simpl in Hrun; try done.
  1,2: injection Hrun as <-; exact Hs.
  destruct (bool_decide (who ∈ seen) || (max_depth <? d)) eqn:Hskip.
  - apply (IH seen work); [done| |done].
    intros x e Hx. apply Hw. by apply elem_of_cons; right.
  - apply orb_false_iff in Hskip as [_ Hd%Z.ltb_ge].
    destruct (Hw who d) as (n & Hn1 & Hn & Hpath); [by apply elem_of_cons; left|].
    refine (IH _ _ _ _ Hrun).
    + intros x [->%elem_of_singleton|Hx]%elem_of_union; [|by apply Hs].
      exists n. split_and!; [done|lia|done].
    + intros x e Hx.
      apply (elem_of_push_unseen_depth set_iter set_iter_perm) in Hx
        as [Hx|(y & [= -> ->] & Hy & _)];
        [apply Hw; by apply elem_of_cons; right|].
      exists (S n). split_and!; [lia|lia|].
      by apply (nsteps_l _ _ _ who).
Qed.

(** What was seen, and what waits within the bound, is returned. *)
Lemma callees_walk_keeps m max_depth fuel seen (work : list (str * Z)) res :
  callees_walk set_iter fuel m max_depth seen work = Some res →
  ∀ x, x ∈ seen ∨ (∃ d, (x, d) ∈ work ∧ d ≤ max_depth) → x ∈ res.
Proof.
  revert seen work.
  induction fuel as [|fuel IH]; intros seen work Hrun;
    destruct work as [|[who d] work]; simpl in Hrun; try done.
  1,2: injection Hrun as <-; intros x [?|(e & Hn & _)]; [done|];
       by apply elem_of_nil in Hn.
  destruct (bool_decide (who ∈ seen) || (max_depth <? d)) eqn:Hskip.
  - intros x Hx. apply (IH seen work Hrun).
    destruct Hx as [?|(e & [Heq|?]%elem_of_cons & He)];
      [by left| |right; by exists e].
    injection Heq as -> ->.
    apply orb_true_iff in Hskip as [?%bool_decide_eq_true|?%Z.ltb_lt];
      [by left|lia].
  - intros x Hx. apply (IH _ _ Hrun).
    destruct Hx as [?|(e & [Heq|?]%elem_of_cons & He)].
    + left. set_solver.
    + injection Heq as -> ->. left. set_solver.
    + right. exists e. split; [|done].
      apply (elem_of_push_unseen_depth set_iter set_iter_perm). by left.
Qed.

(** Below the bound nothing is cut, and the walk is the loop of
    [get_transitive_callers] on the same map. *)
Lemma callees_walk_uncut (m : gmap str (gset str)) (U : gset str)
    (max_depth : Z) (fuel : nat) (seen : gset str)
    (work : list (str * Z)) :
  (∀ x, x ∈ U → get_set m x ⊆ U) →
  Z.of_nat (size U) ≤ max_depth →
  seen ⊆ U →
  (∀ x d, (x, d) ∈ work → x ∈ U ∧ d ≤ Z.of_nat (size seen) + 1) →
  callees_walk set_iter fuel m max_depth seen work
  = callers_loop set_iter fuel m seen work.*1.
Proof.
  intros Hclosed Hsize. revert seen work.
  induction fuel as [|fuel IH]; intros seen work Hseen Hwork;
    destruct work as [|[who d] work]; simpl; try done.
  destruct (decide (who ∈ seen)) as [Hin|Hin].
  - rewrite bool_decide_eq_true_2 by done. simpl. apply IH; [done|].
    intros x e Hx. apply Hwork. by apply elem_of_cons; right.
  - rewrite bool_decide_eq_false_2 by done. simpl.
    destruct (Hwork who d) as [HU Hd]; [by apply elem_of_cons; left|].
    assert (size ({[who]} ∪ seen) = S (size seen)) as Hgrow.
    { rewrite size_union by set_solver. by rewrite size_singleton. }
    assert (size ({[who]} ∪ seen) ≤ size U)%nat as Hle.
    { apply subseteq_size. set_solver. }
    destruct (Z.ltb_spec max_depth d); [lia|].
    rewrite IH, fst_push_unseen_depth; [done|set_solver|].
    intros x e Hx.
    apply (elem_of_push_unseen_depth set_iter set_iter_perm) in Hx
      as [Hx|(y & [= -> ->] & Hy & _)].
    + destruct (Hwork x e) as [? ?]; [by apply elem_of_cons; right|].
      split; [done|lia].
    + split; [|lia]. by apply (Hclosed who).
Qed.

(** With the default bound the direct callees are among the transitive
    ones. *)
Lemma callees_within_depth_aux (m : gmap str (gset str)) (t : str) :
  ∃ l, get_transitive_callees set_iter m t 10 = Some l
       ∧ ∀ x, x ∈ get_set m t → x ∈ l.
Proof.
  destruct (get_transitive_callees_returns set_iter set_iter_perm m t 10)
    as [l Hl].
  exists l. split; [done|]. unfold get_transitive_callees in Hl.
  apply fmap_Some in Hl as (seen & Hrun & ->).
  intros x Hx. apply (elem_of_sorted set_iter set_iter_perm).
  apply (callees_walk_keeps _ _ _ _ _ _ Hrun). right. exists 1.
  split; [|done]. apply elem_of_reverse, list_elem_of_fmap. exists x.
  by rewrite (elem_of_set_iter set_iter set_iter_perm).
Qed.

(** X1. [get_transitive_callees] returns a sorted, duplicate-free list;
    every name in it is reached from [t] in at least one and at most
    [max_depth] calls; with [max_depth >= 1] every direct callee is in
    it, and with [max_depth < 1] the list is empty. *)
Theorem callees_within_depth (m : gmap str (gset str)) (t : str)
    (max_depth : Z) :
  ∃ l, get_transitive_callees set_iter m t max_depth = Some l
       ∧ NoDup l ∧ StronglySorted str_le l
       ∧ (∀ x, x ∈ l →
            ∃ n, (1 ≤ n)%nat ∧ Z.of_nat n ≤ max_depth
                 ∧ nsteps (calls m) n x t)
       ∧ (1 ≤ max_depth → ∀ x, x ∈ get_set m t → x ∈ l)
       ∧ (max_depth < 1 → l = []).
Proof.
  destruct (get_transitive_callees_returns set_iter set_iter_perm m t
              max_depth) as [l Hl].
  exists l. split; [done|]. unfold get_transitive_callees in Hl.
  apply fmap_Some in Hl as (seen & Hrun & ->).
  assert (∀ x d, (x, d) ∈ reverse ((λ callee, (callee, 1)) <$>
                                    set_iter (get_set m t))
                 ↔ d = 1 ∧ x ∈ get_set m t) as Hwork.
  { intros x d. rewrite elem_of_reverse, list_elem_of_fmap.
    setoid_rewrite (elem_of_set_iter set_iter set_iter_perm).
    naive_solver. }
  assert (∀ x, x ∈ seen →
            ∃ n, (1 ≤ n)%nat ∧ Z.of_nat n ≤ max_depth
                 ∧ nsteps (calls m) n x t) as Hsound.
  { eapply callees_walk_sound; [| |exact Hrun]; [set_solver|].
    intros x d [-> Hx]%Hwork. exists 1%nat. split_and!; [lia|done|].
    by apply nsteps_once. }
  split_and!.
  - by apply NoDup_sorted.
  - apply sorted_strongly.
  - intros x Hx%(elem_of_sorted set_iter set_iter_perm). by apply Hsound.
  - intros Hd x Hx. apply (elem_of_sorted set_iter set_iter_perm).
    apply (callees_walk_keeps _ _ _ _ _ _ Hrun). right. exists 1.
    split; [by apply Hwork|done].
  - intros Hd. destruct (sorted set_iter seen) as [|x l] eqn:Hl; [done|].
    assert (x ∈ seen) as Hx.
    { apply (elem_of_sorted set_iter set_iter_perm). rewrite Hl. by left. }
    destruct (Hsound x Hx) as (n & ? & ? & _). lia.
Qed.

(** X2. When the names reachable from [t] fit in a set [U] of at most
    [max_depth] elements, the depth bound cuts nothing: the list holds
    exactly the names reached from [t] through one or more calls, and it
    is what [get_transitive_callers] computes on the same map. *)
Theorem callees_closure_within_bound (m : gmap str (gset str)) (t : str)
    (max_depth : Z) (U : gset str) :
  get_set m t ⊆ U →
  (∀ x, x ∈ U → get_set m x ⊆ U) →
  Z.of_nat (size U) ≤ max_depth →
  ∃ l, get_transitive_callees set_iter m t max_depth = Some l
       ∧ get_transitive_callers set_iter m t = Some l
       ∧ ∀ x, x ∈ l ↔ tc (calls m) x t.
Proof.
  intros Hstart Hclosed Hsize.
  destruct (get_transitive_callers_spec set_iter set_iter_perm m t)
    as (seen & Hrun & Hseen).
  exists (sorted set_iter seen). split_and!; [|done|].
  - rewrite <- Hrun. unfold get_transitive_callees, get_transitive_callers.
    rewrite (callees_walk_uncut m U); [|done|done|set_solver|].
    + by rewrite fmap_reverse, <- list_fmap_compose, list_fmap_id.
    + intros x d [y [[= -> ->] Hy]]%elem_of_reverse%list_elem_of_fmap.
      apply (elem_of_set_iter set_iter set_iter_perm) in Hy.
      split; [set_solver|lia].
  - intros x. by rewrite (elem_of_sorted set_iter set_iter_perm).
Qed.

(** X3. The list of transitive callers is sorted by code point and does
    not depend on the order in which sets are enumerated. *)
Theorem callers_any_enumeration (other : gset str → list str)
    (m : gmap str (gset str)) (t : str) :
  (∀ s, other s ≡ₚ elements s) →
  ∃ l, get_transitive_callers set_iter m t = Some l
       ∧ get_transitive_callers other m t = Some l
       ∧ StronglySorted str_le l.
Proof.
  intros Hother.
  destruct (get_transitive_callers_spec set_iter set_iter_perm m t)
    as (seen & Hrun & Hseen).
  destruct (get_transitive_callers_spec other Hother m t)
    as (seen' & Hrun' & Hseen').
  exists (sorted set_iter seen). split_and!; [done| |apply sorted_strongly].
  rewrite Hrun'. f_equal.
  replace seen' with seen by (apply set_eq; intros x; by rewrite Hseen, Hseen').
  by rewrite (sorted_any_order set_iter), (sorted_any_order other).
Qed.

(** X4. [analyze_target] returns; its transitive callers are empty
    exactly when its direct callers are, so the direct callers alone
    settle [has_callers]; every direct caller is a transitive caller and
    every direct callee a transitive callee. *)
Theorem direct_callers_decide (state : State) :
  ∃ a, analyze_target set_iter state = Some a
       ∧ (a_callers_transitive a = [] ↔ a_callers a = [])
       ∧ (has_callers (a_function_metadata a) = true
          ↔ get_set (callers_map state) (target state) ≠ ∅)
       ∧ (∀ x, x ∈ a_callers a → x ∈ a_callers_transitive a)
       ∧ (∀ x, x ∈ a_callees a → x ∈ a_callees_transitive a).
Proof.
  unfold analyze_target.
  destruct (get_transitive_callers_spec set_iter set_iter_perm
              (callers_map state) (target state)) as (seen & -> & Hseen).
  destruct (callees_within_depth_aux (callees_map state) (target state))
    as (l & -> & Hl).
  simpl. destruct (decide_target _ _ _ _) as [d ws] eqn:Hd.
  eexists. split; [done|]. simpl.
  set (direct := get_set (callers_map state) (target state)) in *.
  assert (∀ x, x ∈ sorted set_iter seen ↔ tc (calls (callers_map state)) x
                                               (target state)) as Hin.
  { intros x. by rewrite (elem_of_sorted set_iter set_iter_perm). }
  assert (sorted set_iter seen = [] ↔ sorted set_iter direct = []) as Hempty.
  { split; intros He.
    - destruct (sorted set_iter direct) as [|x l'] eqn:Hs; [done|].
      assert (x ∈ direct) as Hx.
      { apply (elem_of_sorted set_iter set_iter_perm). rewrite Hs. by left. }
      assert (x ∈ sorted set_iter seen) as Hn by (apply Hin; by apply tc_once).
      rewrite He in Hn. by apply elem_of_nil in Hn.
    - destruct (sorted set_iter seen) as [|x l'] eqn:Hs; [done|].
      assert (tc (calls (callers_map state)) x (target state)) as Hx.
      { apply Hin. by left. }
      apply tc_last_step in Hx as [y Hy].
      apply (elem_of_sorted set_iter set_iter_perm) in Hy.
      fold direct in Hy. rewrite He in Hy. by apply elem_of_nil in Hy. }
  split_and!; [done| | |].
  - rewrite orb_true_iff, !nonempty_true.
    assert (sorted set_iter direct = [] ↔ direct = ∅) as Hd0.
    { split; intros He.
      - apply set_eq. intros x.
        rewrite <- (elem_of_sorted set_iter set_iter_perm), He. set_solver.
      - destruct (sorted set_iter direct) as [|x l'] eqn:Hs; [done|].
        assert (x ∈ direct) as Hx.
        { apply (elem_of_sorted set_iter set_iter_perm). rewrite Hs.
          by left. }
        set_solver. }
    tauto.
  - intros x Hx%(elem_of_sorted set_iter set_iter_perm).
    apply Hin. by apply tc_once.
  - intros x Hx%(elem_of_sorted set_iter set_iter_perm). by apply Hl.
Qed.

End WithIteration.

(** ** Instances *)

Lemma backwards_perm (s : gset str) :
  MoreSamples.backwards s ≡ₚ elements s.
Proof. apply reverse_Permutation. Qed.

Lemma callees_within_depth_witness :
  (∀ s : gset str, elements s ≡ₚ elements s)
  ∧ ∃ l, get_transitive_callees elements Samples.tree_callees
           Samples.name_A 2 = Some l
         ∧ NoDup l ∧ StronglySorted str_le l
         ∧ (∀ x, x ∈ l →
              ∃ n, (1 ≤ n)%nat ∧ Z.of_nat n ≤ 2
                   ∧ nsteps (calls Samples.tree_callees) n x Samples.name_A)
         ∧ (1 ≤ 2 → ∀ x, x ∈ get_set Samples.tree_callees Samples.name_A →
                         x ∈ l)
         ∧ (2 < 1 → l = []).
Proof.
  split; [reflexivity|].
  apply (callees_within_depth elements); reflexivity.
Defined.

Lemma callees_closure_within_bound_witness :
  (∀ s : gset str, elements s ≡ₚ elements s)
  ∧ get_set Samples.tree_callees Samples.name_A ⊆ MoreSamples.below_A
  ∧ (∀ x, x ∈ MoreSamples.below_A →
          get_set Samples.tree_callees x ⊆ MoreSamples.below_A)
  ∧ Z.of_nat (size MoreSamples.below_A) ≤ 10
  ∧ ∃ l, get_transitive_callees elements Samples.tree_callees
           Samples.name_A 10 = Some l
         ∧ get_transitive_callers elements Samples.tree_callees
             Samples.name_A = Some l
         ∧ ∀ x, x ∈ l ↔ tc (calls Samples.tree_callees) x Samples.name_A.
Proof.
  assert (get_set Samples.tree_callees Samples.name_A
          ⊆ MoreSamples.below_A) as H1.
  { apply (bool_decide_unpack _). vm_compute. exact I. }
  assert (∀ x, x ∈ MoreSamples.below_A →
               get_set Samples.tree_callees x ⊆ MoreSamples.below_A) as H2.
  { change (set_Forall (λ x, get_set Samples.tree_callees x
                              ⊆ MoreSamples.below_A) MoreSamples.below_A).
    apply (bool_decide_unpack _). vm_compute. exact I. }
  assert (Z.of_nat (size MoreSamples.below_A) ≤ 10) as H3.
  { vm_compute. discriminate. }
  split_and!; [reflexivity|exact H1|exact H2|exact H3|].
  apply (callees_closure_within_bound elements (λ s, reflexivity _)
           Samples.tree_callees Samples.name_A 10 MoreSamples.below_A
           H1 H2 H3).
Defined.

Lemma callers_any_enumeration_witness :
  (∀ s : gset str, elements s ≡ₚ elements s)
  ∧ (∀ s : gset str, MoreSamples.backwards s ≡ₚ elements s)
  ∧ ∃ l, get_transitive_callers elements Samples.cycle_callers
           Samples.name_A = Some l
         ∧ get_transitive_callers MoreSamples.backwards
             Samples.cycle_callers Samples.name_A = Some l
         ∧ StronglySorted str_le l.
Proof.
  split; [reflexivity|]. split; [exact backwards_perm|].
  apply (callers_any_enumeration elements (λ s, reflexivity _)
           MoreSamples.backwards Samples.cycle_callers Samples.name_A
           backwards_perm).
Defined.

Lemma direct_callers_decide_witness :
  (∀ s : gset str, elements s ≡ₚ elements s)
  ∧ ∃ a, analyze_target elements Samples.lonely_state = Some a
         ∧ (a_callers_transitive a = [] ↔ a_callers a = [])
         ∧ (has_callers (a_function_metadata a) = true
            ↔ get_set (callers_map Samples.lonely_state)
                (target Samples.lonely_state) ≠ ∅)
         ∧ (∀ x, x ∈ a_callers a → x ∈ a_callers_transitive a)
         ∧ (∀ x, x ∈ a_callees a → x ∈ a_callees_transitive a).
Proof.
  split; [reflexivity|].
  apply (direct_callers_decide elements); reflexivity.
Defined.

(** X5. When the depth bound cuts, the list of transitive callees depends
    on the order in which Python enumerates a set: on the graph where T
    calls A and B, A calls B and B calls C, with [max_depth = 2], one
    enumeration gives A, B and the reverse one gives A, B, C. *)
Theorem callees_enumeration_matters :
  ¬ ∀ (it1 it2 : gset str → list str) (m : gmap str (gset str)) (t : str)
      (max_depth : Z),
      (∀ s, it1 s ≡ₚ elements s) → (∀ s, it2 s ≡ₚ elements s) →
      get_transitive_callees it1 m t max_depth
      = get_transitive_callees it2 m t max_depth.
Proof.
  intros H.
  specialize (H elements MoreSamples.backwards MoreSamples.diamond_callees
                (lit_str "T") 2 (λ s, reflexivity _)
                backwards_perm).
  vm_compute in H. discriminate H.
Qed.

Example diamond_depth2 :
  get_transitive_callees elements MoreSamples.diamond_callees
    (lit_str "T") 2 = Some [lit_str "A"; lit_str "B"]
  ∧ get_transitive_callees MoreSamples.backwards MoreSamples.diamond_callees
      (lit_str "T") 2 = Some [lit_str "A"; lit_str "B"; lit_str "C"].
Proof. split; vm_compute; reflexivity. Qed.

End WalkFacts.


(* ===================================================================== *)
(** * Properties of the call-graph parser *)
(* ===================================================================== *)
Module ParserFacts.
Import Py Slicer Notions.

Lemma get_set_insert (m : gmap str (gset str)) (k k' : str) (v : gset str) :
  get_set (<[k:=v]> m) k' = if decide (k = k') then v else get_set m k'.
Proof.
  unfold get_set. rewrite lookup_insert.
  by destruct (decide (k = k')).
Qed.

Lemma get_set_Some (m : gmap str (gset str)) (k : str) (v : gset str) :
  m !! k = Some v → get_set m k = v.
Proof. unfold get_set. by intros ->. Qed.

Lemma get_set_None (m : gmap str (gset str)) (k : str) :
  m !! k = None → get_set m k = ∅.
Proof. unfold get_set. by intros ->. Qed.

(** The two loops run in lockstep: same [current], a key for it in the
    forward map, same edges. *)
Lemma loops_agree (lines : list str) (current : option str)
    (fwd rev : gmap str (gset str)) :
  (∀ c, current = Some c → is_Some (fwd !! c)) →
  same_edges fwd rev →
  ∃ fwd', callees_loop lines (current, fwd) = Ok fwd'
          ∧ same_edges fwd' (fold_left callers_line lines (current, rev)).2.
Proof.
  revert current fwd rev.
  induction lines as [|line lines IH]; intros current fwd rev Hkey Hedges.
  { by exists fwd. }
  cbn [callees_loop fold_left]. unfold callees_line, callers_line.
  destruct (p_match NODE_RX line) as [m|].
  - destruct (Re.group line m 1) as [cur|]; cbn [bind].
    + destruct (fwd !! cur) as [s|] eqn:Hcur.
      * apply IH; [|done]. intros c [= <-]. by rewrite Hcur.
      * apply IH.
        -- intros c [= <-]. rewrite lookup_insert_eq. eauto.
        -- intros a b. rewrite get_set_insert.
           destruct (decide (cur = a)) as [<-|]; [|done].
           pose proof (Hedges cur b) as Hcb.
           rewrite (get_set_None fwd cur Hcur) in Hcb. done.
    + by apply IH.
  - destruct (truthy current) eqn:Htruthy; cbn [bind]; [|by apply IH].
    destruct (p_match CALL_RX line) as [m2|]; cbn [bind]; [|by apply IH].
    destruct (Re.group line m2 1) as [callee|]; cbn [bind]; [|by apply IH].
    destruct current as [cur|]; [|done].
    destruct (Hkey cur eq_refl) as [s Hs]. rewrite Hs. cbn [bind].
    apply IH.
    + intros c [= <-]. rewrite lookup_insert_eq. eauto.
    + intros a b. rewrite !get_set_insert.
      pose proof (Hedges a b) as Hab. pose proof (Hedges cur b) as Hcb.
      pose proof (Hedges a callee) as Hac.
      rewrite (get_set_Some fwd cur s Hs) in Hcb.
      destruct (decide (cur = a)) as [<-|], (decide (callee = b)) as [<-|];
        set_solver.
Qed.

(** C4. The forward parse returns, and the forward and reverse maps of
    one text agree edge for edge. *)
Theorem forward_reverse_agree (text : str) :
  ∃ fwd, parse_callees_map text = Ok fwd
         ∧ ∀ a b, b ∈ get_set fwd a
                  ↔ a ∈ get_set (parse_callgraph_text text) b.
Proof.
  unfold parse_callees_map, parse_callgraph_text.
  apply loops_agree; [done|]. intros a b. unfold get_set.
  rewrite !lookup_empty. set_solver.
Qed.

(** A header'd node without call lines maps to the empty set. *)
Example tree_dump_leaf :
  Samples.callees_of_dump Samples.tree_dump !! lit_str "D" = Some ∅.
Proof. vm_compute. reflexivity. Qed.

(** C8, at the failing input. The only header names [Foo]; the hint of
    [foo] is read from it. *)
Lemma metadata_ignores_case :
  uses_count (parse_function_metadata Samples.upper_dump (lit_str "foo")) = 3.
Proof. vm_compute. reflexivity. Qed.

(** The two parsing passes do tell [foo] from [Foo]. *)
Example parse_keeps_case :
  parse_callgraph_text Samples.cycle_dump !! lit_str "a" = None
  ∧ parse_callgraph_text Samples.cycle_dump !! lit_str "A"
    = Some {[lit_str "B"]}.
Proof. split; vm_compute; reflexivity. Qed.

End ParserFacts.

(* ===================================================================== *)
(** * Properties of the pointer-usage scanner *)
(* ===================================================================== *)
Module ScannerFacts.
Import Py Slicer Notions.

(** The address-of pass keeps one snippet per match. *)
Lemma addr_pass c_text ms res :
  snippets (fold_left (addr_step c_text) ms res)
  = (snippets res + length ms)%nat
  ∧ registrations (fold_left (addr_step c_text) ms res) = registrations res.
Proof.
  revert res. induction ms as [|m ms IH]; intros res; simpl.
  - split; [lia|done].
  - destruct (IH (addr_step c_text res m)) as [-> ->].
    unfold snippets, registrations, addr_step. simpl.
    rewrite length_app. simpl. split; [lia|done].
Qed.

(** The registration pass keeps one snippet per registration it records. *)
Lemma registration_matches_pass c_text target ms res :
  (snippets (fold_left (registration_step c_text target) ms res)
   + registrations res
   = snippets res
     + registrations (fold_left (registration_step c_text target) ms res))%nat.
Proof.
  revert res. induction ms as [|m ms IH]; intros res; simpl; [lia|].
  pose proof (IH (registration_step c_text target res m)) as IHm.
  assert ((snippets (registration_step c_text target res m)
           + registrations res
           = snippets res
             + registrations (registration_step c_text target res m))%nat);
    [|lia].
  unfold registration_step, snippets, registrations.
  case_bool_decide; simpl; rewrite ?length_app; simpl; lia.
Qed.

Lemma registration_pass c_text target ps res :
  (snippets (fold_left
               (λ res p, fold_left (registration_step c_text target)
                           (p_finditer p c_text) res) ps res)
   + registrations res
   = snippets res
     + registrations
         (fold_left
            (λ res p, fold_left (registration_step c_text target)
                        (p_finditer p c_text) res) ps res))%nat.
Proof.
  revert res. induction ps as [|p ps IH]; intros res; simpl; [lia|].
  pose proof (IH (fold_left (registration_step c_text target)
                    (p_finditer p c_text) res)).
  pose proof (registration_matches_pass c_text target
                (p_finditer p c_text) res).
  lia.
Qed.

(** The bare-name pass adds a snippet only below 5, and records no
    registration. *)
Lemma bare_pass c_text ms res :
  (snippets res ≤ snippets (fold_left (bare_step c_text) ms res))%nat
  ∧ (snippets (fold_left (bare_step c_text) ms res)
     ≤ Nat.max 5 (snippets res))%nat
  ∧ registrations (fold_left (bare_step c_text) ms res) = registrations res.
Proof.
  revert res. induction ms as [|m ms IH]; intros res; simpl.
  - split_and!; [done|lia|done].
  - destruct (IH (bare_step c_text res m)) as (H1 & H2 & ->).
    assert ((snippets res ≤ snippets (bare_step c_text res m))%nat
            ∧ (snippets (bare_step c_text res m) ≤ Nat.max 5 (snippets res))%nat
            ∧ registrations (bare_step c_text res m) = registrations res)
      as (? & ? & ->); [|split_and!; [lia|lia|done]].
    clear. unfold bare_step, snippets, registrations.
    repeat (case_match; simpl; rewrite ?length_app; simpl);
      split_and!; try done; try lia.
Qed.

Lemma snippets_lower (c_text target : str) :
  let res := check_function_pointer_usage c_text target in
  (addr_hits c_text target + registrations res ≤ snippets res)%nat.
Proof.
  unfold check_function_pointer_usage, addr_hits.
  set (r0 := Usage.Make false [] [] []).
  set (r1 := fold_left (addr_step c_text) _ r0).
  set (r2 := fold_left _ (take 2 FUNC_PTR_PATTERNS) r1).
  cbv zeta.
  destruct (addr_pass c_text (p_finditer (addr_pattern target) c_text) r0)
    as [Hs1 Hr1]. fold r1 in Hs1, Hr1.
  pose proof (registration_pass c_text target (take 2 FUNC_PTR_PATTERNS) r1)
    as H2. fold r2 in H2.
  destruct (bare_pass c_text (p_finditer (bare_name_pattern target) c_text) r2)
    as (H3 & H4 & ->).
  change (snippets r0) with 0%nat in Hs1.
  change (registrations r0) with 0%nat in Hr1.
  lia.
Qed.

Lemma snippets_upper (c_text target : str) :
  let res := check_function_pointer_usage c_text target in
  (snippets res
   ≤ Nat.max 5 (addr_hits c_text target + registrations res))%nat.
Proof.
  unfold check_function_pointer_usage, addr_hits.
  set (r0 := Usage.Make false [] [] []).
  set (r1 := fold_left (addr_step c_text) _ r0).
  set (r2 := fold_left _ (take 2 FUNC_PTR_PATTERNS) r1).
  cbv zeta.
  destruct (addr_pass c_text (p_finditer (addr_pattern target) c_text) r0)
    as [Hs1 Hr1]. fold r1 in Hs1, Hr1.
  pose proof (registration_pass c_text target (take 2 FUNC_PTR_PATTERNS) r1)
    as H2. fold r2 in H2.
  destruct (bare_pass c_text (p_finditer (bare_name_pattern target) c_text) r2)
    as (H3 & H4 & ->).
  change (snippets r0) with 0%nat in Hs1.
  change (registrations r0) with 0%nat in Hr1.
  lia.
Qed.

(** C3 (as amended). Every address-of match and every recorded
    registration keeps its snippet; the bare-name pass adds snippets only
    while fewer than 5 are held. *)
Theorem snippets_bounds (c_text target : str) :
  let res := check_function_pointer_usage c_text target in
  (addr_hits c_text target + registrations res ≤ snippets res)%nat
  ∧ (snippets res
     ≤ Nat.max 5 (addr_hits c_text target + registrations res))%nat.
Proof. split; [apply snippets_lower|apply snippets_upper]. Qed.

(** ** A text with as many address-of matches as wanted *)

Lemma addr_block i pv rest :
  Re.finditer_from false addr_f i i pv (Samples.block ++ rest)
  = Re.RMatch i (S (S i)) []
    :: Re.finditer_from false addr_f (S (S (S i))) (S (S (S i)))
         (Some ";"%char) rest.
Proof.
  change (Samples.block ++ rest)
    with ("&"%char :: "f"%char :: ";"%char :: rest).
  rewrite ReFacts.finditer_from_here by lia.
  assert (Re.matches_here false addr_f
            (Re.Cursor i pv ("&"%char :: "f"%char :: ";"%char :: rest))
          = [Re.RMatch i (S (S i)) []]) as ->.
  { unfold Re.matches_here.
    assert (Re.match_at false addr_f false
              (Re.Cursor i pv ("&"%char :: "f"%char :: ";"%char :: rest))
            = Some (Re.RMatch i (S (S i)) [])) as ->.
    { vm_compute. reflexivity. }
    cbn [Re.m_end Re.pos].
    by rewrite (proj2 (Nat.eqb_neq (S (S i)) i)) by lia. }
  cbn [app Re.resume_after last Re.m_end].
  rewrite (proj2 (Nat.eqb_neq (S (S i)) i)) by lia.
  rewrite ReFacts.finditer_from_skip by lia.
  rewrite ReFacts.finditer_from_here by lia.
  assert (Re.matches_here false addr_f
            (Re.Cursor (S (S i)) (Some "f"%char) (";"%char :: rest)) = [])
    as ->.
  { vm_compute. reflexivity. }
  done.
Qed.

Lemma addr_blocks n i pv :
  length (Re.finditer_from false addr_f i i pv (Samples.blocks n)) = n.
Proof.
  revert i pv. induction n as [|n IH]; intros i pv.
  - cbn [Samples.blocks Re.finditer_from]. rewrite Nat.ltb_irrefl.
    vm_compute. reflexivity.
  - cbn [Samples.blocks]. rewrite addr_block. simpl. by rewrite IH.
Qed.

(** C3, counterexample. No constant bounds the number of snippets: the
    text made of [bound + 1] copies of [&f;] yields more than [bound]. *)
Lemma snippets_unbounded :
  ¬ ∃ bound : nat, ∀ c_text target,
      (snippets (check_function_pointer_usage c_text target) ≤ bound)%nat.
Proof.
  intros [bound Hbound].
  specialize (Hbound (Samples.blocks (S bound)) Samples.f).
  pose proof (snippets_lower (Samples.blocks (S bound)) Samples.f) as Hlow.
  cbv zeta in Hlow.
  unfold addr_hits, p_finditer, Re.finditer in Hlow.
  change (p_rx (addr_pattern Samples.f)) with addr_f in Hlow.
  change (p_ic (addr_pattern Samples.f)) with false in Hlow.
  rewrite addr_blocks in Hlow. lia.
Qed.

(** Six address-of matches already exceed the cap of the bare-name
    pass. *)
Example six_addresses :
  snippets (check_function_pointer_usage (Samples.blocks 6) Samples.f)
  = 6%nat.
Proof. vm_compute. reflexivity. Qed.

End ScannerFacts.

(* ===================================================================== *)
(** * Properties of the function remover *)
(* ===================================================================== *)
Module AppFacts.
Import Py App Notions.

(** ** Locating *)

Lemma back_scan_ok fuel text sig_start check_pos :
  0 ≤ sig_start → check_pos ≤ sig_start → check_pos ≤ Z.of_nat fuel →
  ∃ r, back_scan fuel text sig_start check_pos = Ok r ∧ 0 ≤ r ≤ sig_start.
Proof.
  revert sig_start check_pos.
  induction fuel as [|fuel IH]; intros sig_start check_pos Hs Hc Hf; simpl.
  - destruct (Z.ltb_spec 0 check_pos); [lia|]. exists sig_start. split; [done|lia].
  - destruct (Z.ltb_spec 0 check_pos); [|exists sig_start; split; [done|lia]].
    pose proof (PyFacts.rfind_range text Char.nl (check_pos - 1)
                  ltac:(lia)) as Hr.
    destruct (continues_signature _); [|exists sig_start; split; [done|lia]].
    destruct (IH (rfind text [Char.nl] 0 (check_pos - 1) + 1)
                (rfind text [Char.nl] 0 (check_pos - 1) + 1))
      as (r & -> & Hrange); [lia..|].
    exists r. split; [done|lia].
Qed.

Lemma signature_start_ok text name_idx brace_idx :
  0 ≤ name_idx ≤ brace_idx →
  ∃ s, signature_start text name_idx brace_idx = Ok (Found s brace_idx)
       ∧ 0 ≤ s ≤ brace_idx.
Proof.
  intros Hn. unfold signature_start.
  pose proof (PyFacts.rfind_range text Char.nl name_idx ltac:(lia)) as Hr.
  destruct (back_scan_ok
              (Z.to_nat (rfind text [Char.nl] 0 name_idx + 1 - 1)) text
              (rfind text [Char.nl] 0 name_idx + 1)
              (rfind text [Char.nl] 0 name_idx + 1 - 1))
    as (r & -> & Hrange); [lia..|].
  exists r. split; [done|lia].
Qed.

Lemma fallback_ok text func :
  ∃ loc, fallback text func = Ok loc ∧ located_ok loc.
Proof.
  unfold fallback.
  destruct (PyFacts.find_range text (func ++ lit_str "(") 0 ltac:(lia))
    as [->|Hname]; [exists (Fail NotFound); simpl; auto|].
  destruct (Z.eqb_spec (find text (func ++ lit_str "(") 0) (-1)); [lia|].
  set (name_idx := find text (func ++ lit_str "(") 0) in *.
  destruct (PyFacts.find_range text (lit_str "{") name_idx ltac:(lia))
    as [->|Hbrace]; [exists (Fail NoOpeningBrace); simpl; auto|].
  destruct (Z.eqb_spec (find text (lit_str "{") name_idx) (-1)); [lia|].
  destruct (negb _ && _).
  - destruct (PyFacts.find_range text (func ++ lit_str "(") (name_idx + 1)
                ltac:(lia)) as [->|Hname2];
      [exists (Fail PrototypeOnly); simpl; auto|].
    destruct (Z.eqb_spec (find text (func ++ lit_str "(") (name_idx + 1)) (-1));
      [lia|].
    set (name_idx2 := find text (func ++ lit_str "(") (name_idx + 1)) in *.
    destruct (PyFacts.find_range text (lit_str "{") name_idx2 ltac:(lia))
      as [->|Hbrace2]; [exists (Fail NoOpeningBrace); simpl; auto|].
    destruct (Z.eqb_spec (find text (lit_str "{") name_idx2) (-1)); [lia|].
    destruct (signature_start_ok text name_idx2
                (find text (lit_str "{") name_idx2)) as (s & -> & Hs); [lia|].
    eexists. split; [done|]. exact Hs.
  - destruct (signature_start_ok text name_idx
                (find text (lit_str "{") name_idx)) as (s & -> & Hs); [lia|].
    eexists. split; [done|]. exact Hs.
Qed.

Lemma definition_rx_consuming func : consuming (definition_rx func).
Proof.
  unfold definition_rx. apply ReFacts.consuming_grp. unfold Re.seqs. simpl.
  do 9 apply ReFacts.consuming_seq_r.
  intros ic cu cs k res H. simpl in H.
  by apply (ReFacts.consuming_chr "{" ic cu cs (λ cu' cs', k cu' cs')).
Qed.

(** [locate] returns, and a signature it finds starts at or before the
    brace. *)
Lemma locate_ok text func :
  ∃ loc, locate text func = Ok loc ∧ located_ok loc.
Proof.
  unfold locate.
  destruct (Re.finditer false (definition_rx func) text) as [|m ms] eqn:Hms.
  - apply fallback_ok.
  - eexists. split; [done|]. simpl.
    assert (Re.m_start m < Re.m_end m)%nat; [|lia].
    eapply (ReFacts.finditer_from_consuming false (definition_rx func));
      [apply definition_rx_consuming|].
    unfold Re.finditer in Hms. rewrite Hms. by left.
Qed.

(** ** The brace scan *)

Lemma scan_step_advances ch nx s s' :
  scan_step ch nx s = Next s' → i s < i s' ≤ i s + 2.
Proof.
  unfold scan_step. repeat case_match; intros [= <-]; simpl; lia.
Qed.

Lemma scan_step_closed ch nx s at_i :
  scan_step ch nx s = Closed at_i →
  at_i = i s ∧ normal s = true ∧ Char.eqc "}" ch = true ∧ depth s = 1.
Proof.
  unfold scan_step, normal.
  repeat case_match; try done. intros [= <-]. simpl. split_and!; try done. lia.
Qed.

(** Outside normal mode an iteration neither changes the depth nor
    ends the scan. *)
Lemma scan_step_outside_normal ch nx s :
  normal s = false →
  ∃ s', scan_step ch nx s = Next s' ∧ depth s' = depth s.
Proof.
  unfold scan_step, normal. intros Hn.
  repeat case_match; try (eexists; split; [reflexivity|done]); done.
Qed.

(** A backslash in string or char mode arms the escape, and the
    iteration after it passes over any character without looking at
    it. *)
Lemma scan_step_backslash nx s :
  escape_next s = false → in_string s || in_char s = true →
  ∃ s1, scan_step "\" nx s = Next s1
        ∧ escape_next s1 = true ∧ i s1 = i s + 1
        ∧ depth s1 = depth s ∧ same_mode s s1
        ∧ ∀ ch' nx',
            scan_step ch' nx' s1
            = Next (Scan (i s + 2) (depth s) (in_string s) (in_char s)
                      (in_sl_comment s) (in_ml_comment s) false).
Proof.
  unfold scan_step, same_mode. intros -> Hm.
  destruct (in_string s) eqn:Hs; simpl in *.
  - eexists. split; [reflexivity|]. simpl. split_and!; try done.
    intros. by replace (i s + 1 + 1) with (i s + 2) by lia.
  - rewrite Hm. eexists. split; [reflexivity|]. simpl. split_and!; try done.
    intros. by replace (i s + 1 + 1) with (i s + 2) by lia.
Qed.

(** The loop neither raises nor exhausts its budget, and a closing
    brace it reports lies inside the text. *)
Lemma scan_loop_ok fuel text s :
  0 ≤ i s → (Z.to_nat (len text - i s) ≤ fuel)%nat →
  ∃ r s', scan_loop fuel text s = Ok (r, s')
          ∧ ∀ at_i, r = Some at_i →
              i s ≤ at_i < len text
              ∧ text !! Z.to_nat at_i = Some "}"%char.
Proof.
  revert s. induction fuel as [|fuel IH]; intros s Hi Hf; simpl.
  - destruct (Z.ltb_spec (i s) (len text)); [lia|].
    exists None, s. split; [done|]. by intros.
  - destruct (Z.ltb_spec (i s) (len text)) as [Hlt|];
      [|exists None, s; split; [done|]; by intros].
    destruct (PyFacts.index_in_range text (i s)) as (ch & -> & Hch); [lia|].
    cbn [bind].
    assert (∃ nx, (if i s + 1 <? len text
                   then bind (index text (i s + 1)) (λ c, Ok (Some c))
                   else Ok None) = Ok nx) as [nx ->].
    { destruct (Z.ltb_spec (i s + 1) (len text)); [|by eexists].
      destruct (PyFacts.index_in_range text (i s + 1)) as (c & -> & _);
        [lia|]. by eexists. }
    cbn [bind].
    destruct (scan_step ch nx s) as [s'|at_i] eqn:Hstep.
    + pose proof (scan_step_advances _ _ _ _ Hstep).
      destruct (IH s') as (r & s'' & -> & Hr); [lia..|].
      exists r, s''. split; [done|]. intros a Ha.
      destruct (Hr a Ha) as [? ?]. split; [lia|done].
    + apply scan_step_closed in Hstep as (-> & _ & Hbrace%Ascii.eqb_eq & _).
      exists (Some (i s)), s. split; [done|]. intros a [= <-].
      split; [lia|by subst ch].
Qed.

Lemma cut_span_ok text sig_start at_i :
  0 ≤ sig_start ≤ at_i → at_i < len text →
  ∃ cut_start cut_end,
    cut_span text sig_start at_i = Ok (cut_start, cut_end)
    ∧ (cut_start = sig_start
       ∨ (cut_start = sig_start - 1 ∧ 0 ≤ cut_start
          ∧ text !! Z.to_nat cut_start = Some Char.nl))
    ∧ (cut_end = at_i + 1
       ∨ (cut_end = at_i + 2 ∧ cut_end ≤ len text
          ∧ text !! Z.to_nat (at_i + 1) = Some Char.nl)).
Proof.
  intros Hs Ha. unfold cut_span, newline_before, newline_at.
  assert (∃ b1, (if 0 <? sig_start
                 then bind (index text (sig_start - 1))
                        (λ c, Ok (Char.eqc Char.nl c))
                 else Ok false) = Ok b1
                ∧ (b1 = true → 0 ≤ sig_start - 1
                   ∧ text !! Z.to_nat (sig_start - 1) = Some Char.nl))
    as (b1 & -> & Hb1).
  { destruct (Z.ltb_spec 0 sig_start); [|by eexists].
    destruct (PyFacts.index_in_range text (sig_start - 1)) as (c & -> & Hc);
      [lia|].
    eexists. split; [done|]. intros Heq%Ascii.eqb_eq. subst c.
    split; [lia|done]. }
  assert (∃ b2, (if at_i + 1 <? len text
                 then bind (index text (at_i + 1))
                        (λ c, Ok (Char.eqc Char.nl c))
                 else Ok false) = Ok b2
                ∧ (b2 = true → at_i + 1 < len text
                   ∧ text !! Z.to_nat (at_i + 1) = Some Char.nl))
    as (b2 & -> & Hb2).
  { destruct (Z.ltb_spec (at_i + 1) (len text)); [|by eexists].
    destruct (PyFacts.index_in_range text (at_i + 1)) as (c & -> & Hc);
      [lia|].
    eexists. split; [done|]. intros Heq%Ascii.eqb_eq. subst c. done. }
  cbn [bind]. eexists _, _. split; [done|]. split.
  - destruct b1; [right|by left]. destruct Hb1 as [? ?]; done.
  - destruct b2; [right|by left]. destruct Hb2 as [? ?]; [done|].
    split_and!; [lia|lia|done].
Qed.

(** ** The whole function *)

(** The function returns, with one of two outcomes. *)
Lemma removal_outcome src_text func :
  ∃ r, _remove_function_from_c_source src_text func = Ok r
       ∧ ((removed r = false ∧ new_text r = src_text ∧ failure (info_msg r))
          ∨ (removed r = true ∧ cut_from (replace_crlf src_text) r)).
Proof.
  unfold _remove_function_from_c_source.
  set (text := replace_crlf src_text).
  destruct (locate_ok text func) as ([why|sig_start brace_idx] & -> & Hloc);
    cbn [bind].
  { eexists. split; [done|]. left. simpl. split_and!; try done.
    unfold failure. simpl in Hloc. tauto. }
  simpl in Hloc.
  destruct (scan_loop_ok (length text) text
              (Scan brace_idx 0 false false false false false))
    as ([at_i|] & s' & -> & Hat); [unfold len; simpl; lia..| |]; cbn [bind].
  - destruct (Hat at_i eq_refl) as [Hrange Hbrace]. simpl in Hrange.
    destruct (cut_span_ok text sig_start at_i) as (cs & ce & -> & Hcs & Hce);
      [lia..|].
    cbn [bind]. eexists. split; [done|]. right. simpl. split; [done|].
    exists sig_start, at_i, cs, ce. simpl.
    split_and!; try done; try lia.
    unfold slice_to, slice_from.
    rewrite !PyFacts.clip_nonneg; [done|lia..].
  - eexists. split; [done|]. left. simpl. split_and!; try done.
    unfold failure. eauto.
Qed.

(** C9. The function always returns; a failed removal hands back the
    input text itself, unchanged, with one of the four reasons. *)
Theorem failure_returns_input (src_text func : str) :
  ∃ r, _remove_function_from_c_source src_text func = Ok r
       ∧ (removed r = false →
          new_text r = src_text ∧ failure (info_msg r)).
Proof.
  destruct (removal_outcome src_text func) as (r & Hr & [(_ & ? & ?)|[Hrem _]]).
  - by exists r.
  - exists r. split; [done|]. rewrite Hrem. done.
Qed.

(** A failed removal on a text with CRLF line ends: the answer is the
    input, not its normalised copy. *)
Example failure_keeps_crlf :
  _remove_function_from_c_source Samples.crlf_source Samples.bar
  = Ok (Removal Samples.crlf_source false NotFound)
  ∧ replace_crlf Samples.crlf_source ≠ Samples.crlf_source.
Proof. split; [vm_compute; reflexivity|discriminate]. Qed.

Lemma failure_returns_input_witness :
  ∃ r, _remove_function_from_c_source Samples.crlf_source Samples.bar = Ok r
       ∧ (removed r = false →
          new_text r = Samples.crlf_source ∧ failure (info_msg r)).
Proof. apply (failure_returns_input Samples.crlf_source Samples.bar). Defined.

(** The CRLF line ends far from the removed function are rewritten
    too. *)
Example success_rewrites_crlf :
  _remove_function_from_c_source Samples.crlf_source Samples.f
  = Ok (Removal (lit_str "int a;" ++ [Char.nl] ++ lit_str "int b;"
                 ++ lit_str "int c;" ++ [Char.nl])
          true (Removed 18)).
Proof. vm_compute. reflexivity. Qed.

(** ** String literals in the body *)

(** One iteration of the loop, when the text has a character at [i]. *)
Lemma scan_loop_step fuel text s ch :
  0 ≤ i s → text !! Z.to_nat (i s) = Some ch →
  scan_loop (S fuel) text s
  = match scan_step ch (text !! Z.to_nat (i s + 1)) s with
    | Closed at_i => Ok (Some at_i, s)
    | Next s' => scan_loop fuel text s'
    end.
Proof.
  intros Hi Hch. cbn [scan_loop].
  pose proof (lookup_lt_Some _ _ _ Hch) as Hlt.
  destruct (Z.ltb_spec (i s) (len text)); [|unfold len in *; lia].
  destruct (PyFacts.index_in_range text (i s)) as (c & -> & Hc); [lia|].
  rewrite Hch in Hc. injection Hc as <-. cbn [bind].
  destruct (Z.ltb_spec (i s + 1) (len text)).
  - destruct (PyFacts.index_in_range text (i s + 1)) as (c & -> & ->); [lia|].
    done.
  - rewrite (lookup_ge_None_2 text (Z.to_nat (i s + 1)));
      [done|unfold len in *; lia].
Qed.

Lemma lookup_of_drop (text : str) (n : nat) (c : ascii) (tl : str) :
  drop n text = c :: tl → text !! n = Some c.
Proof.
  intros H. rewrite <- (Nat.add_0_r n), <- lookup_drop, H. done.
Qed.

(** Inside a string literal the scan runs on to the closing quote,
    whatever braces the literal holds, and comes out in normal mode at
    the depth it had. *)
Lemma string_literal_skipped (w : str) fuel text (s : scan) (rest : str) :
  0 ≤ i s → escape_next s = false → in_string s = true →
  drop (Z.to_nat (i s)) text = w ++ Char.dquote :: rest →
  Forall (λ c, Char.eqc "\" c = false ∧ Char.eqc Char.dquote c = false) w →
  scan_loop (length w + 1 + fuel) text s
  = scan_loop fuel text
      (Scan (i s + Z.of_nat (length w) + 1) (depth s) false (in_char s)
         (in_sl_comment s) (in_ml_comment s) false).
Proof.
  revert s. induction w as [|c w IH]; intros s Hi He Hs Hdrop Hw.
  - cbn [length Nat.add app] in *.
    rewrite (scan_loop_step _ _ _ Char.dquote); [|done|].
    + unfold scan_step. rewrite He, Hs.
      change (Char.eqc "\" Char.dquote) with false.
      change (Char.eqc Char.dquote Char.dquote) with true. cbv iota.
      change (Z.of_nat 0) with 0. by rewrite Z.add_0_r.
    + by eapply lookup_of_drop.
  - cbn [length Nat.add app] in *. apply Forall_cons in Hw as [[Hc1 Hc2] Hw].
    rewrite (scan_loop_step _ _ _ c); [|done|].
    + unfold scan_step. rewrite He, Hs, Hc1, Hc2. cbv iota.
      rewrite IH; cbn [i depth in_string in_char in_sl_comment in_ml_comment
                       escape_next]; try done; try lia.
      * replace (i s + 1 + Z.of_nat (length w) + 1)
          with (i s + Z.of_nat (S (length w)) + 1) by lia. done.
      * replace (Z.to_nat (i s + 1)) with (Z.to_nat (i s) + 1)%nat by lia.
        rewrite <- drop_drop, Hdrop. done.
    + by eapply lookup_of_drop.
Qed.

(** C5. Outside normal mode (inside a string or char literal, a comment,
    or right after an escaping backslash) an iteration never changes the
    depth and never ends the scan, whatever the character, braces
    included; a whole string literal is passed over at constant depth;
    a backslash in string or char mode makes the scan pass over the next
    character; and a body with a brace inside a string literal is cut at
    its true closing brace. *)
Theorem braces_count_in_normal_mode_only :
  (∀ ch nx s, normal s = false →
     ∃ s', scan_step ch nx s = Next s' ∧ depth s' = depth s)
  ∧ (∀ w fuel text s rest,
       0 ≤ i s → escape_next s = false → in_string s = true →
       drop (Z.to_nat (i s)) text = w ++ Char.dquote :: rest →
       Forall (λ c, Char.eqc "\" c = false
                    ∧ Char.eqc Char.dquote c = false) w →
       scan_loop (length w + 1 + fuel) text s
       = scan_loop fuel text
           (Scan (i s + Z.of_nat (length w) + 1) (depth s) false (in_char s)
              (in_sl_comment s) (in_ml_comment s) false))
  ∧ (∀ nx s, escape_next s = false → in_string s || in_char s = true →
       ∃ s1, scan_step "\" nx s = Next s1
             ∧ escape_next s1 = true ∧ i s1 = i s + 1
             ∧ depth s1 = depth s ∧ same_mode s s1
             ∧ ∀ ch' nx',
                 scan_step ch' nx' s1
                 = Next (Scan (i s + 2) (depth s) (in_string s) (in_char s)
                           (in_sl_comment s) (in_ml_comment s) false))
  ∧ _remove_function_from_c_source Samples.brace_in_literal Samples.f
    = Ok (Removal (lit_str "int keep;" ++ lit_str "int after;" ++ [Char.nl])
            true (Removed 35))
  ∧ _remove_function_from_c_source Samples.brace_in_code Samples.f
    = Ok (Removal Samples.brace_in_code false (Unbalanced 1)).
Proof.
  split_and!.
  - apply scan_step_outside_normal.
  - apply string_literal_skipped.
  - apply scan_step_backslash.
  - vm_compute. reflexivity.
  - vm_compute. reflexivity.
Qed.

(** ** A prototype before the definition *)

(** [locate] only looks at the first match. *)
Lemma locate_by_search text func :
  locate text func
  = match Re.search false (definition_rx func) text with
    | Some m =>
        Ok (Found (Z.of_nat (Re.m_start m)) (Z.of_nat (Re.m_end m) - 1))
    | None => fallback text func
    end.
Proof.
  unfold locate. rewrite <- ReFacts.head_finditer.
  by destruct (Re.finditer _ _ _).
Qed.

Lemma newline_at_lookup (text : str) (k : Z) (c : ascii) :
  0 ≤ k → text !! Z.to_nat k = Some c →
  newline_at text k = Ok (Char.eqc Char.nl c).
Proof.
  intros Hk Hc. unfold newline_at.
  pose proof (lookup_lt_Some _ _ _ Hc).
  destruct (Z.ltb_spec k (len text)); [|unfold len in *; lia].
  destruct (PyFacts.index_in_range text k) as (c' & -> & Hc'); [lia|].
  rewrite Hc in Hc'. by injection Hc' as <-.
Qed.

Lemma newline_at_end (text : str) (k : Z) :
  len text ≤ k → newline_at text k = Ok false.
Proof.
  intros Hk. unfold newline_at. by destruct (Z.ltb_spec k (len text)); [lia|].
Qed.

End AppFacts.

(* ===================================================================== *)
(** * A prototype before the definition, in general *)
(* ===================================================================== *)
Module PrototypeFacts.
Import Py App Re Notions ReFacts AppFacts.
Local Close Scope Z_scope.

(** Right-nested appends, and lengths of appends. *)
Ltac norm_app :=
  repeat (rewrite <- app_assoc || rewrite <- app_comm_cons
          || rewrite app_nil_l).

Ltac norm_len := repeat (rewrite length_app || (progress (cbn [length]))).

Lemma definition_rx_unfold func :
  definition_rx func
  = Grp 1 (Seq (Alt Bol (Chr Char.nl))
             (Seq (Star false 0 (Char.neqc Char.nl)) (tail_rx func))).
Proof. reflexivity. Qed.

(** Two ways of cutting a text at its first character outside a class
    are the same cut. *)
Lemma first_outside (C : ascii → bool) (l1 l2 r1 r2 : str) (a b : ascii) :
  l1 ++ a :: r1 = l2 ++ b :: r2 →
  Forall (λ c, C c = true) l1 → Forall (λ c, C c = true) l2 →
  C a = false → C b = false →
  l1 = l2 ∧ a = b ∧ r1 = r2.
Proof.
  intros Heq H1. revert l2 Heq.
  induction H1 as [|c l1 Hc H1 IH]; intros l2 Heq H2 Ha Hb.
  - destruct H2 as [|d l2 Hd H2]; simpl in Heq.
    + by injection Heq as -> ->.
    + injection Heq as -> _. congruence.
  - destruct H2 as [|d l2 Hd H2]; simpl in Heq.
    + injection Heq as -> _. congruence.
    + injection Heq as -> Heq.
      destruct (IH _ Heq H2 Ha Hb) as (-> & -> & ->). done.
Qed.

Lemma first_outside_exists (C : ascii → bool) (l : str) :
  Forall (λ c, C c = true) l
  ∨ ∃ l1 b l2, l = l1 ++ b :: l2 ∧ Forall (λ c, C c = true) l1 ∧ C b = false.
Proof.
  induction l as [|c l IH]; [by left|].
  destruct (C c) eqn:Hc.
  - destruct IH as [H|(l1 & b & l2 & -> & H1 & Hb)].
    + left. by constructor.
    + right. exists (c :: l1), b, l2. split_and!; [done| |done]. by constructor.
  - right. exists [], c, l. by split_and!.
Qed.

Lemma exec_star_greedy ic lo p cu cs k :
  exec ic (Star true lo p) cu cs k
  = star_greedy p lo k cs (pos cu) (prev cu) (rest cu) 0.
Proof. done. Qed.

Lemma exec_star_lazy ic lo p cu cs k :
  exec ic (Star false lo p) cu cs k
  = star_lazy p lo k cs (pos cu) (prev cu) (rest cu) 0.
Proof. done. Qed.

Lemma exec_wordb ic cu cs k :
  exec ic WordB cu cs k
  = if xorb (wordish (prev cu)) (wordish (head (rest cu)))
    then k cu cs else None.
Proof. done. Qed.

Lemma tail_rx_inv func i pv l cs k res :
  exec false (tail_rx func) (Cursor i pv l) cs k = Some res →
  ∃ ws w4 w6 R,
    l = func ++ ws ++ "("%char :: w4 ++ ")"%char :: w6 ++ "{"%char :: R
    ∧ Forall (λ c, Char.isspace c = true) ws
    ∧ Forall (λ c, Char.neqc ")" c = true) w4
    ∧ Forall (λ c, negb (Char.eqc "{" c || Char.eqc ";" c) = true) w6.
Proof.
  unfold tail_rx. rewrite exec_seq, exec_wordb. destruct (xorb _ _); [|done].
  intros H. apply exec_lit_inv in H as (tl & -> & H).
  unfold after_name_rx, seqs in H. cbn [foldr] in H.
  rewrite exec_seq, exec_star_greedy in H.
  apply star_greedy_inv in H as (ws & tl1 & Heq & Hws & H).
  unfold moved in Heq at 1. cbn [rest] in Heq. subst tl.
  cbv beta in H. rewrite exec_seq in H.
  apply exec_chr_inv in H as (tl2 & Heq & H).
  unfold moved in Heq. cbn [rest] in Heq. subst tl1.
  cbv beta in H. rewrite exec_seq, exec_star_greedy in H.
  apply star_greedy_inv in H as (w4 & tl3 & Heq & Hw4 & H).
  cbn [rest] in Heq. subst tl2.
  cbv beta in H. rewrite exec_seq in H.
  apply exec_chr_inv in H as (tl4 & Heq & H).
  unfold moved in Heq. cbn [rest] in Heq. subst tl3.
  cbv beta in H. rewrite exec_seq, exec_star_lazy in H.
  apply star_lazy_inv in H as (w6 & tl5 & Heq & Hw6 & H).
  cbn [rest] in Heq. subst tl4.
  cbv beta in H. rewrite exec_seq in H.
  apply exec_chr_inv in H as (tl6 & Heq & H).
  unfold moved in Heq. cbn [rest] in Heq. subst tl5.
  by exists ws, w4, w6, tl6.
Qed.

Lemma prototype_eq ty name params :
  prototype ty name params
  = (ty ++ [sp]) ++ name ++ lp :: params ++ [rp; semi].
Proof. unfold prototype. simpl. by rewrite <- !app_assoc. Qed.

Lemma definition_eq ty name params body :
  definition ty name params body
  = (ty ++ [sp]) ++ name ++ lp :: params ++ rp :: sp :: lb :: body ++ [rb].
Proof. unfold definition. simpl. by rewrite <- !app_assoc. Qed.

Lemma prototype_last ty name params :
  last (prototype ty name params) = Some semi.
Proof.
  rewrite prototype_eq.
  replace ((ty ++ [sp]) ++ name ++ lp :: params ++ [rp; semi])
    with ((((ty ++ [sp]) ++ name ++ lp :: params) ++ [rp]) ++ [semi]).
  - by rewrite last_snoc.
  - repeat (rewrite <- app_assoc || rewrite <- app_comm_cons
            || rewrite app_nil_l). done.
Qed.

Lemma sig_char_spec c :
  sig_char c = true →
  Char.neqc lp c = true ∧ Char.neqc rp c = true ∧ Char.neqc Char.nl c = true
  ∧ Char.eqc Char.cr c = false.
Proof.
  unfold sig_char, Char.neqc, lp, rp.
  destruct (Char.eqc "(" c), (Char.eqc ")" c), (Char.eqc Char.nl c),
    (Char.eqc Char.cr c); simpl; done.
Qed.

Lemma isword_spec c :
  Char.isword c = true →
  Char.neqc lp c = true ∧ Char.neqc Char.nl c = true
  ∧ Char.eqc Char.cr c = false ∧ Char.isspace c = false.
Proof.
  destruct c as [[] [] [] [] [] [] [] []]; vm_compute; intros; try done;
    by repeat split.
Qed.

Lemma isspace_not_lp c : Char.isspace c = true → Char.neqc lp c = true.
Proof.
  destruct c as [[] [] [] [] [] [] [] []]; vm_compute; congruence.
Qed.

(** The same, when the second cut is given in two pieces. *)
Lemma first_outside2 (C : ascii → bool) (l1 m n r1 r2 : str) (a b : ascii) :
  l1 ++ a :: r1 = m ++ n ++ b :: r2 →
  Forall (λ c, C c = true) l1 →
  Forall (λ c, C c = true) m → Forall (λ c, C c = true) n →
  C a = false → C b = false →
  l1 = m ++ n ∧ a = b ∧ r1 = r2.
Proof.
  intros Heq H1 Hm Hn Ha Hb. rewrite app_assoc in Heq.
  apply (first_outside C) in Heq; try done. by apply Forall_app.
Qed.

Section Strings.
Variables ty name params : str.
Hypothesis name_nonempty : name ≠ [].
Hypothesis name_word : Forall (λ c, Char.isword c = true) name.
Hypothesis ty_sig : Forall (λ c, sig_char c = true) ty.
Hypothesis params_sig : Forall (λ c, sig_char c = true) params.

Lemma name_no_lp : Forall (λ c, Char.neqc lp c = true) name.
Proof.
  eapply Forall_impl; [exact name_word|]. intros c Hc. by apply isword_spec.
Qed.

Lemma spaces_no_lp ws :
  Forall (λ c, Char.isspace c = true) ws →
  Forall (λ c, Char.neqc lp c = true) ws.
Proof. intros H. eapply Forall_impl; [exact H|]. apply isspace_not_lp. Qed.

Lemma no_lp_before :
  Forall (λ c, Char.neqc lp c = true) ((ty ++ [sp]) ++ name).
Proof.
  rewrite !Forall_app. split_and!.
  - eapply Forall_impl; [exact ty_sig|]. intros c Hc. by apply sig_char_spec.
  - by repeat constructor.
  - apply name_no_lp.
Qed.

Lemma params_no_rp : Forall (λ c, Char.neqc rp c = true) params.
Proof.
  eapply Forall_impl; [exact params_sig|]. intros c Hc. by apply sig_char_spec.
Qed.

Lemma name_head : ∃ n name', name = n :: name' ∧ Char.isword n = true.
Proof.
  destruct name as [|n name']; [done|]. exists n, name'.
  split; [done|]. by inversion name_word.
Qed.

Lemma no_definition_in_prototype w1 w2 rest ws w4 w6 R :
  w1 ++ w2 = prototype ty name params →
  w2 ++ Char.nl :: rest
  = name ++ ws ++ lp :: w4 ++ rp :: w6 ++ lb :: R →
  Forall (λ c, Char.isspace c = true) ws →
  Forall (λ c, Char.neqc rp c = true) w4 →
  Forall (λ c, negb (Char.eqc lb c || Char.eqc semi c) = true) w6 →
  False.
Proof.
  rewrite prototype_eq, (app_assoc (ty ++ [sp]) name).
  intros Hsplit HS Hws Hw4 Hw6.
  destruct name_head as (n & name' & Hname & Hn).
  pose proof name_no_lp as Hnlp. pose proof (spaces_no_lp ws Hws) as Hwlp.
  apply app_eq_inv in Hsplit as [(k & -> & Hk)|(k & Hk & ->)].
  - (* the position lies at or after the parenthesis *)
    destruct k as [|x k].
    + simpl in Hk. subst w2. rewrite Hname in HS. simpl in HS.
      injection HS as <- _. done.
    + injection Hk as <- Hk.
      assert (Forall (λ c, Char.neqc lp c = true) w2) as Hw2.
      { assert (Forall (λ c, Char.neqc lp c = true) (params ++ [rp; semi]))
          as Hall.
        { rewrite Forall_app. split; [|by repeat constructor].
          eapply Forall_impl; [exact params_sig|].
          intros c Hc. by apply sig_char_spec. }
        rewrite Hk in Hall. by apply Forall_app in Hall as [_ ?]. }
      destruct (first_outside_exists
                  (λ c, Char.isword c || Char.isspace c) w2)
        as [Hall|(l1 & b & l2 & -> & Hl1 & Hb)].
      * destruct w2 as [|y w2'] eqn:Hw2eq.
        { rewrite Hname in HS. simpl in HS. injection HS as <- _. done. }
        assert (last (k ++ y :: w2') = Some semi) as Hlast.
        { rewrite <- Hk, last_app. done. }
        rewrite last_app in Hlast.
        destruct (last (y :: w2')) as [z|] eqn:Hz; [|by apply last_None in Hz].
        injection Hlast as ->.
        apply last_Some_elem_of in Hz.
        rewrite Forall_forall in Hall. by specialize (Hall _ Hz).
      * rewrite <- app_assoc in HS. simpl in HS.
        apply (first_outside2 (λ c, Char.isword c || Char.isspace c)
                 l1 name ws _ _ b lp) in HS as (_ & -> & _); try done.
        -- apply Forall_app in Hw2 as [_ Hb2]. by inversion Hb2.
        -- eapply Forall_impl; [exact name_word|]. by intros c ->.
        -- eapply Forall_impl; [exact Hws|]. intros c ->.
           by rewrite orb_true_r.
  - (* the position lies before the parenthesis *)
    assert (Forall (λ c, Char.neqc lp c = true) k) as Hkk.
    { pose proof no_lp_before as Hall. rewrite Hk in Hall.
      by apply Forall_app in Hall as [_ ?]. }
    rewrite <- app_assoc in HS. simpl in HS.
    apply (first_outside2 (Char.neqc lp) k name ws _ _ lp lp) in HS
      as (_ & _ & HS); try done.
    rewrite <- app_assoc in HS. simpl in HS.
    apply (first_outside (Char.neqc rp) params w4 _ _ rp rp) in HS
      as (_ & _ & HS); try done; [|apply params_no_rp].
    destruct w6 as [|c w6]; simpl in HS; [done|].
    injection HS as <- _. by inversion Hw6.
Qed.

Lemma no_definition_before_name u1 u2 X ws Y :
  ty ++ [sp] = u1 ++ u2 → u2 ≠ [] →
  u2 ++ name ++ lp :: X = name ++ ws ++ lp :: Y →
  Forall (λ c, Char.isspace c = true) ws →
  False.
Proof.
  intros Hu Hu2 HS Hws.
  rewrite (app_assoc u2 name) in HS.
  apply (first_outside2 (Char.neqc lp) (u2 ++ name) name ws _ _ lp lp) in HS
    as (Heq & _ & _); try done;
    [|pose proof no_lp_before as Hall; rewrite Hu, <- app_assoc in Hall;
      by apply Forall_app in Hall as [_ ?]
     |apply name_no_lp|by apply spaces_no_lp].
  assert (length ws = length u2) as Hlen.
  { apply (f_equal length) in Heq. rewrite !length_app in Heq. lia. }
  assert (last (u2 ++ name) = last (name ++ ws)) as Hl by by rewrite Heq.
  rewrite !last_app in Hl.
  destruct (last name) as [c|] eqn:Hc; [|by apply last_None in Hc].
  destruct (last ws) as [d|] eqn:Hd.
  - injection Hl as ->.
    apply last_Some_elem_of in Hc, Hd.
    pose proof name_word as Hnw.
    rewrite Forall_forall in Hnw, Hws.
    specialize (Hnw _ Hc). specialize (Hws _ Hd).
    apply isword_spec in Hnw as (_ & _ & _ & ?). congruence.
  - apply last_None in Hd. subst ws. by destruct u2.
Qed.
End Strings.

Lemma exec_grp ic n r cu cs k :
  exec ic (Grp n r) cu cs k
  = exec ic r cu cs (λ cu' cs', k cu' ((n, (pos cu, pos cu')) :: cs')).
Proof. done. Qed.

Lemma exec_alt ic r1 r2 cu cs k :
  exec ic (Alt r1 r2) cu cs k
  = match exec ic r1 cu cs k with
    | Some x => Some x
    | None => exec ic r2 cu cs k
    end.
Proof. done. Qed.

Lemma exec_chr_here c tl i pv cs k :
  exec false (Chr c) (Cursor i pv (c :: tl)) cs k
  = k (Cursor (S i) (Some c) tl) cs.
Proof. simpl. unfold chr_eq, Char.eqc. by rewrite Ascii.eqb_refl. Qed.

Lemma exec_chr_other c x tl i pv cs k :
  Char.eqc c x = false →
  exec false (Chr c) (Cursor i pv (x :: tl)) cs k = None.
Proof. intros H. simpl. unfold chr_eq. by rewrite H. Qed.

Lemma star_greedy_stop p k cs i pv c tl cnt :
  p c = false →
  star_greedy p 0 k cs i pv (c :: tl) cnt = k (Cursor i pv (c :: tl)) cs.
Proof. intros H. simpl. by rewrite H. Qed.

Section Forward.
Variables ty name params : str.
Hypothesis name_nonempty : name ≠ [].
Hypothesis name_word : Forall (λ c, Char.isword c = true) name.
Hypothesis ty_sig : Forall (λ c, sig_char c = true) ty.
Hypothesis params_sig : Forall (λ c, sig_char c = true) params.

(** From the name on, the pattern matches the head of a definition. *)
Lemma tail_rx_here Y i pv cs k res :
  wordish pv = false →
  k (Cursor (i + length name + 1 + length params + 3) (Some lb) Y) cs
  = Some res →
  exec false (tail_rx name)
    (Cursor i pv (name ++ lp :: params ++ rp :: sp :: lb :: Y)) cs k
  = Some res.
Proof.
  intros Hpv Hk. unfold tail_rx. rewrite exec_seq, exec_wordb. cbn [prev rest].
  destruct (name_head name name_nonempty name_word)
    as (n & name' & Hname & Hn).
  assert (wordish (head (name ++ lp :: params ++ rp :: sp :: lb :: Y))
          = true) as ->.
  { rewrite Hname. done. }
  rewrite Hpv. cbn [xorb]. rewrite exec_lit_app.
  unfold after_name_rx, seqs. cbn [foldr].
  rewrite exec_seq, exec_star_greedy. unfold moved. cbn [pos prev rest].
  rewrite star_greedy_stop by done.
  rewrite exec_seq, exec_chr_here.
  rewrite exec_seq, exec_star_greedy. cbn [pos prev rest].
  apply star_greedy_run; [apply params_no_rp; done|done|].
  unfold moved. rewrite exec_seq, exec_chr_here.
  rewrite exec_seq, exec_star_lazy. cbn [pos prev rest].
  cbn [star_lazy Nat.leb].
  rewrite exec_seq, exec_chr_other by done.
  change (negb (Char.eqc "{" sp || Char.eqc ";" sp)) with true. cbv iota.
  rewrite exec_seq, exec_chr_here. cbn [exec].
  replace (S (S (S (S (i + length name) + length params))))
    with (i + length name + 1 + length params + 3)%nat by lia.
  by rewrite Hk.
Qed.
End Forward.

Section Search.
Variables ty name params : str.
Hypothesis name_nonempty : name ≠ [].
Hypothesis name_word : Forall (λ c, Char.isword c = true) name.
Hypothesis ty_sig : Forall (λ c, sig_char c = true) ty.
Hypothesis params_sig : Forall (λ c, sig_char c = true) params.

Lemma ty_sp_no_nl : Forall (λ c, Char.neqc Char.nl c = true) (ty ++ [sp]).
Proof.
  rewrite Forall_app. split; [|by repeat constructor].
  eapply Forall_impl; [exact ty_sig|]. intros c Hc. by apply sig_char_spec.
Qed.

Lemma prototype_no_nl :
  Forall (λ c, Char.neqc Char.nl c = true) (prototype ty name params).
Proof.
  rewrite prototype_eq, !Forall_app. split_and!.
  - eapply Forall_impl; [exact ty_sig|]. intros c Hc. by apply sig_char_spec.
  - by repeat constructor.
  - eapply Forall_impl; [exact name_word|]. intros c Hc. by apply isword_spec.
  - constructor; [done|]. rewrite Forall_app. split; [|by repeat constructor].
    eapply Forall_impl; [exact params_sig|]. intros c Hc.
    by apply sig_char_spec.
Qed.

(** At the line feed that ends the prototype line, the pattern matches
    through the opening brace of the definition. *)
Lemma definition_rx_at_newline Y i c0 :
  Char.eqc Char.nl c0 = false →
  match_at false (definition_rx name) false
    (Cursor i (Some c0)
       (Char.nl :: (ty ++ [sp]) ++ name ++ lp :: params
                   ++ rp :: sp :: lb :: Y))
  = Some (RMatch i
            (i + (length (ty ++ [sp]) + length name + length params + 5))
            [(1%nat,
              (i, (i + (length (ty ++ [sp]) + length name + length params
                        + 5))%nat))]).
Proof.
  intros Hc0. unfold match_at. rewrite definition_rx_unfold.
  rewrite exec_grp, exec_seq, exec_alt. cbn [pos].
  assert (∀ k, exec false Bol
                 (Cursor i (Some c0)
                    (Char.nl :: (ty ++ [sp]) ++ name ++ lp :: params
                                ++ rp :: sp :: lb :: Y)) [] k = None) as ->.
  { intros k. cbn [exec prev]. by rewrite Hc0. }
  rewrite exec_chr_here, exec_seq, exec_star_lazy. cbn [pos prev rest].
  set (e := (i + (length (ty ++ [sp]) + length name + length params + 5))%nat).
  rewrite (star_lazy_first (Char.neqc Char.nl) _ [] (S i) (Some Char.nl)
             (ty ++ [sp]) _ 0%nat
             (Cursor e (Some lb) Y, [(1%nat, (i, e))]));
    [done|apply ty_sp_no_nl; done| |].
  - intros w1 w2 Hw Hw2. unfold moved.
    match goal with |- ?t = None => destruct t as [r|] eqn:Hr; [|done] end.
    exfalso. apply tail_rx_inv in Hr as (ws & w4 & w6 & R & HS & Hws & _).
    by eapply (no_definition_before_name ty name name_nonempty name_word
                 ty_sig w1 w2).
  - unfold moved. apply tail_rx_here; try done.
    + unfold last_or. by rewrite last_snoc.
    + cbn [pos]. unfold accept. cbn [andb pos].
      replace (S i + length (ty ++ [sp]) + length name + 1 + length params + 3)%nat
        with e by (unfold e; lia).
      done.
Qed.

(** No match starts inside the prototype line. *)
Lemma definition_rx_not_in_prototype w1 w2 after :
  prototype ty name params = w1 ++ w2 → w2 ≠ [] →
  match_at false (definition_rx name) false
    (moved 0 None w1 (w2 ++ Char.nl :: after))
  = None.
Proof.
  intros Hsplit Hw2. unfold match_at, moved. rewrite definition_rx_unfold.
  rewrite exec_grp, exec_seq, exec_alt.
  pose proof prototype_no_nl as Hnl. rewrite Hsplit in Hnl.
  apply Forall_app in Hnl as [Hnl1 Hnl2].
  destruct w2 as [|x w2]; [done|].
  assert (Char.eqc Char.nl x = false) as Hx.
  { inversion Hnl2 as [|? ? Hx' _]. unfold Char.neqc in Hx'.
    by destruct (Char.eqc Char.nl x). }
  simpl app. rewrite (exec_chr_other Char.nl x) by done.
  match goal with |- match ?t with _ => _ end = None =>
    assert (t = None) as ->; [|done] end.
  cbn [exec prev]. unfold last_or.
  destruct (last w1) as [c|] eqn:Hlast.
  - apply last_Some_elem_of in Hlast. rewrite Forall_forall in Hnl1.
    specialize (Hnl1 _ Hlast). unfold Char.neqc in Hnl1.
    by destruct (Char.eqc Char.nl c).
  - apply last_None in Hlast. subst w1. simpl in Hsplit.
    cbn [pos Re.rest prev length Nat.add].
    change (x :: w2 ++ Char.nl :: after) with ((x :: w2) ++ Char.nl :: after).
    rewrite star_lazy_none; [done|done|done|].
    intros a b Hab. unfold moved.
    match goal with |- ?t = None => destruct t as [r|] eqn:Hr; [|done] end.
    exfalso.
    apply tail_rx_inv in Hr as (ws & w4 & w6 & R & HS & Hws & Hw4 & Hw6).
    eapply (no_definition_in_prototype ty name params name_nonempty name_word
              ty_sig params_sig a b); [|done..].
    by rewrite Hsplit.
Qed.

(** The first match in a text that starts with the prototype line and
    goes on with the definition. *)
Lemma search_prototype_then_definition Y :
  search false (definition_rx name)
    (prototype ty name params
     ++ Char.nl :: (ty ++ [sp]) ++ name ++ lp :: params
                   ++ rp :: sp :: lb :: Y)
  = Some (RMatch (length (prototype ty name params))
            (length (prototype ty name params)
             + (length (ty ++ [sp]) + length name + length params + 5))
            [(1%nat,
              (length (prototype ty name params),
               (length (prototype ty name params)
                + (length (ty ++ [sp]) + length name + length params
                   + 5))%nat))]).
Proof.
  unfold search. rewrite search_from_skip.
  - assert (last_or None (prototype ty name params) = Some semi) as ->.
    { unfold last_or. by rewrite prototype_last. }
    cbn [search_from Nat.add].
    by rewrite definition_rx_at_newline.
  - intros w1 w2 Hsplit Hw2. by apply definition_rx_not_in_prototype.
Qed.

End Search.

Local Open Scope Z_scope.

Lemma scan_loop_mono fuel fuel' text s r :
  scan_loop fuel text s = Ok r → (fuel ≤ fuel')%nat →
  scan_loop fuel' text s = Ok r.
Proof.
  revert fuel' s. induction fuel as [|fuel IH]; intros fuel' s Hrun Hle.
  - simpl in Hrun. destruct (i s <? len text) eqn:Hlt; [done|].
    destruct fuel'; simpl; by rewrite Hlt.
  - destruct fuel' as [|fuel']; [lia|]. cbn [scan_loop] in *.
    destruct (i s <? len text); [|done].
    destruct (index text (i s)) as [ch| |]; cbn [bind] in *; try done.
    destruct (if i s + 1 <? len text then _ else _) as [nx| |];
      cbn [bind] in *; try done.
    destruct (scan_step ch nx s); [|done]. apply IH; [done|lia].
Qed.

Lemma body_char_spec c :
  body_char c = true →
  Char.eqc "/" c = false ∧ Char.eqc Char.dquote c = false
  ∧ Char.eqc "'" c = false ∧ Char.eqc "{" c = false ∧ Char.eqc "}" c = false
  ∧ Char.eqc Char.cr c = false.
Proof.
  unfold body_char.
  destruct (Char.eqc "/" c), (Char.eqc Char.dquote c), (Char.eqc "'" c),
    (Char.eqc "{" c), (Char.eqc "}" c), (Char.eqc Char.cr c); simpl; done.
Qed.

(** In normal mode at depth 1, a body without braces, quotes and
    slashes is passed over, and the brace after it closes the scan. *)
Lemma scan_plain_body (body : str) text (k : Z) (R : str) :
  0 ≤ k →
  drop (Z.to_nat k) text = body ++ rb :: R →
  Forall (λ c, body_char c = true) body →
  scan_loop (length body + 1) text (Scan k 1 false false false false false)
  = Ok (Some (k + Z.of_nat (length body)),
        Scan (k + Z.of_nat (length body)) 1 false false false false false).
Proof.
  revert k. induction body as [|c body IH]; intros k Hk Hdrop Hbody.
  - cbn [length Nat.add app] in *.
    rewrite (scan_loop_step _ _ _ rb); [|done|by eapply lookup_of_drop].
    unfold scan_step. cbn. by rewrite Z.add_0_r.
  - cbn [length Nat.add app] in *.
    apply Forall_cons in Hbody as [Hc Hbody].
    apply body_char_spec in Hc as (H1 & H2 & H3 & H4 & H5 & _).
    rewrite (scan_loop_step _ _ _ c); [|done|by eapply lookup_of_drop].
    unfold scan_step. cbn [escape_next in_string in_char in_sl_comment
                            in_ml_comment i depth].
    rewrite H1, H2, H3, H4, H5. cbn [andb].
    rewrite IH; [|lia| |done].
    + do 3 f_equal; lia.
    + replace (Z.to_nat (k + 1)) with (Z.to_nat k + 1)%nat by lia.
      by rewrite <- drop_drop, Hdrop.
Qed.

Lemma newline_before_lookup (text : str) (k : Z) (c : ascii) :
  0 < k → text !! Z.to_nat (k - 1) = Some c →
  newline_before text k = Ok (Char.eqc Char.nl c).
Proof.
  intros Hk Hc. unfold newline_before.
  pose proof (lookup_lt_Some _ _ _ Hc).
  destruct (Z.ltb_spec 0 k); [|lia].
  destruct (PyFacts.index_in_range text (k - 1)) as (c' & -> & Hc');
    [unfold len; lia|].
  rewrite Hc in Hc'. by injection Hc' as <-.
Qed.

Section Removal.
Variables ty name params body : str.
Hypothesis name_nonempty : name ≠ [].
Hypothesis name_word : Forall (λ c, Char.isword c = true) name.
Hypothesis ty_sig : Forall (λ c, sig_char c = true) ty.
Hypothesis params_sig : Forall (λ c, sig_char c = true) params.
Hypothesis body_plain : Forall (λ c, body_char c = true) body.

Lemma prototype_definition_no_cr :
  Forall (λ c, Char.eqc Char.cr c = false)
    (prototype ty name params
     ++ Char.nl :: definition ty name params body).
Proof.
  assert (Forall (λ c, Char.eqc Char.cr c = false) ty) as Hty.
  { eapply Forall_impl; [exact ty_sig|]. intros c Hc. by apply sig_char_spec. }
  assert (Forall (λ c, Char.eqc Char.cr c = false) name) as Hname.
  { eapply Forall_impl; [exact name_word|]. intros c Hc. by apply isword_spec. }
  assert (Forall (λ c, Char.eqc Char.cr c = false) params) as Hparams.
  { eapply Forall_impl; [exact params_sig|].
    intros c Hc. by apply sig_char_spec. }
  assert (Forall (λ c, Char.eqc Char.cr c = false) body) as Hbody.
  { eapply Forall_impl; [exact body_plain|].
    intros c Hc. by apply body_char_spec. }
  rewrite prototype_eq, definition_eq.
  rewrite ?Forall_app, ?Forall_cons, ?Forall_app, ?Forall_cons, ?Forall_app.
  split_and!; try done.
  repeat (constructor; [done|]). rewrite Forall_app. split; [done|].
  by repeat constructor.
Qed.

Lemma remove_after_prototype (tail : str) :
  let text :=
    prototype ty name params
    ++ Char.nl :: definition ty name params body ++ tail in
  ∀ src_text, replace_crlf src_text = text →
  _remove_function_from_c_source src_text name
  = Ok (Removal (prototype ty name params ++ (stays_after tail).1) true
          (Removed (1 + len (definition ty name params body)
                    + (stays_after tail).2))).
Proof.
  intros text src_text Hsrc. unfold _remove_function_from_c_source.
  rewrite Hsrc, locate_by_search.
  set (proto := prototype ty name params) in *.
  set (hd := (length (ty ++ [sp]) + length name + length params + 5)%nat).
  assert (text = proto ++ Char.nl :: (ty ++ [sp]) ++ name ++ lp :: params
                       ++ rp :: sp :: lb :: body ++ rb :: tail) as Htext.
  { unfold text. rewrite definition_eq. by norm_app. }
  rewrite Htext at 1.
  rewrite (search_prototype_then_definition ty name params name_nonempty
             name_word ty_sig params_sig).
  fold proto hd. cbn [bind m_start m_end].
  (* the scan *)
  set (B := (length proto + hd - 1)%nat).
  replace (Z.of_nat (length proto + hd) - 1) with (Z.of_nat B)
    by (unfold B, hd; lia).
  assert (text = (proto ++ Char.nl :: (ty ++ [sp]) ++ name ++ lp :: params
                        ++ [rp; sp]) ++ lb :: body ++ rb :: tail) as Hsplit1.
  { rewrite Htext. by norm_app. }
  assert (length (proto ++ Char.nl :: (ty ++ [sp]) ++ name ++ lp :: params
                        ++ [rp; sp]) = B) as HlenB.
  { unfold B, hd. norm_len. lia. }
  assert (text !! B = Some lb) as HB.
  { rewrite Hsplit1. by apply list_lookup_middle. }
  assert (drop (S B) text = body ++ rb :: tail) as Hdrop.
  { rewrite Hsplit1, (cons_middle lb), (app_assoc _ [lb]).
    apply drop_app_length'. rewrite (length_app _ [lb]), HlenB. simpl. lia. }
  assert (length text = (S B + length body + 1 + length tail)%nat) as Hlen.
  { rewrite Hsplit1, length_app, HlenB. norm_len. lia. }
  assert (scan_loop (length text) text
            (Scan (Z.of_nat B) 0 false false false false false)
          = Ok (Some (Z.of_nat B + 1 + Z.of_nat (length body)),
                Scan (Z.of_nat B + 1 + Z.of_nat (length body)) 1
                  false false false false false)) as ->.
  { apply (scan_loop_mono (S (length body + 1))); [|lia].
    rewrite (scan_loop_step _ _ _ lb); [|simpl; lia|].
    - unfold scan_step. cbn.
      apply (scan_plain_body body text _ tail); [lia| |done].
      by replace (Z.to_nat (Z.of_nat B + 1)) with (S B) by lia.
    - cbn [i]. by rewrite Nat2Z.id. }
  cbn [bind].
  set (at_i := Z.of_nat B + 1 + Z.of_nat (length body)).
  (* the cut *)
  unfold cut_span.
  assert (take (length proto) text = proto) as Htake.
  { rewrite Htext. by rewrite take_app_length. }
  assert (0 < length proto)%nat as Hpos.
  { unfold proto. rewrite prototype_eq. norm_len. lia. }
  assert (text !! Z.to_nat (Z.of_nat (length proto) - 1) = Some semi) as Hsemi.
  { replace (Z.to_nat (Z.of_nat (length proto) - 1))
      with (pred (length proto)) by lia.
    rewrite <- (lookup_take_lt text (length proto)) by lia.
    rewrite Htake, <- last_lookup. apply prototype_last. }
  rewrite (newline_before_lookup text _ semi);
    [|lia|done].
  change (Char.eqc Char.nl semi) with false. cbn [bind].
  assert (drop (Z.to_nat (at_i + 1)) text = tail) as Hdrop2.
  { unfold at_i.
    replace (Z.to_nat (Z.of_nat B + 1 + Z.of_nat (length body) + 1))
      with (S B + (length body + 1))%nat by lia.
    rewrite <- drop_drop, Hdrop, (cons_middle rb), (app_assoc _ [rb]).
    apply drop_app_length'. rewrite length_app. simpl. lia. }
  assert (Z.of_nat (length proto) + 1 + len (definition ty name params body)
          = at_i + 1) as Hdef.
  { unfold at_i, B, hd, len. rewrite definition_eq. norm_len. lia. }
  assert (len text = at_i + 1 + Z.of_nat (length tail)) as Hlen'.
  { unfold len, at_i. rewrite Hlen. lia. }
  destruct tail as [|c tail'] eqn:Htail.
  - rewrite newline_at_end by (rewrite Hlen'; simpl; lia).
    cbn [bind stays_after fst snd]. unfold slice_to, slice_from.
    rewrite !PyFacts.clip_nonneg by (rewrite Hlen'; simpl; lia).
    rewrite Nat2Z.id, Htake, Hdrop2. do 3 f_equal. lia.
  - rewrite (newline_at_lookup _ _ c);
      [|lia|by eapply lookup_of_drop].
    cbn [bind stays_after]. unfold slice_to, slice_from.
    destruct (Char.eqc Char.nl c); cbn [fst snd];
      rewrite !PyFacts.clip_nonneg by (rewrite Hlen'; simpl length; lia);
      rewrite Nat2Z.id, Htake.
    + replace (Z.to_nat (at_i + 1 + 1)) with (Z.to_nat (at_i + 1) + 1)%nat
        by lia.
      rewrite <- drop_drop, Hdrop2. simpl. do 3 f_equal. lia.
    + rewrite Hdrop2. do 3 f_equal. lia.
Qed.


End Removal.

(** The input of the specification is the instance [void], [bar],
    [int x], [ return; ] with nothing after it. *)
Example specification_input :
  Samples.proto_then_definition
  = prototype (lit_str "void") Samples.bar (lit_str "int x")
    ++ Char.nl :: definition (lit_str "void") Samples.bar (lit_str "int x")
                    (lit_str " return; ") ++ []
  ∧ _remove_function_from_c_source Samples.proto_then_definition Samples.bar
    = Ok (Removal Samples.proto_line true (Removed 28)).
Proof. split; [reflexivity|vm_compute; reflexivity]. Qed.



End PrototypeFacts.

(* ===================================================================== *)
(** * Further properties of the matcher *)
(* ===================================================================== *)
Module MatchFacts.
Import Re Py Notions MoreNotions ReFacts PrototypeFacts.
Local Close Scope Z_scope.

Lemma exec_eps ic cu cs k : exec ic Eps cu cs k = k cu cs.
Proof. reflexivity. Qed.

Lemma exec_not_behind ic p cu cs k :
  exec ic (NotBehind p) cu cs k
  = match prev cu with
    | Some c => if p c then None else k cu cs
    | None => k cu cs
    end.
Proof. reflexivity. Qed.

Lemma exec_not_ahead ic p cu cs k :
  exec ic (NotAhead p) cu cs k
  = match rest cu with
    | c :: _ => if p c then None else k cu cs
    | [] => k cu cs
    end.
Proof. reflexivity. Qed.

Lemma exec_wordb_inv ic cu cs k res :
  exec ic WordB cu cs k = Some res →
  xorb (wordish (prev cu)) (wordish (head (rest cu))) = true
  ∧ k cu cs = Some res.
Proof. rewrite exec_wordb. by destruct (xorb _ _). Qed.

Lemma exec_not_behind_inv ic p cu cs k res :
  exec ic (NotBehind p) cu cs k = Some res →
  none_or p (prev cu) ∧ k cu cs = Some res.
Proof.
  rewrite exec_not_behind. unfold none_or.
  destruct (prev cu) as [c|]; [|done]. by destruct (p c).
Qed.

Lemma exec_not_ahead_inv ic p cu cs k res :
  exec ic (NotAhead p) cu cs k = Some res →
  none_or p (head (rest cu)) ∧ k cu cs = Some res.
Proof.
  rewrite exec_not_ahead. unfold none_or.
  destruct (rest cu) as [|c tl]; [done|]. cbn [head]. by destruct (p c).
Qed.

Lemma accept_inv must start cu cs res :
  accept must start cu cs = Some res → res = (cu, cs).
Proof. unfold accept. case_match; [done|]. by intros [= <-]. Qed.

Lemma match_at_inv ic r must cu m :
  match_at ic r must cu = Some m →
  ∃ cu' cs, exec ic r cu [] (accept must (pos cu)) = Some (cu', cs)
            ∧ m = RMatch (pos cu) (pos cu') cs.
Proof.
  unfold match_at. destruct (exec _ _ _ _ _) as [[cu' cs]|]; [|done].
  intros [= <-]. by exists cu', cs.
Qed.

Lemma matches_here_inv ic r cu m :
  m ∈ matches_here ic r cu → ∃ must, match_at ic r must cu = Some m.
Proof.
  unfold matches_here.
  destruct (match_at ic r false cu) as [m0|] eqn:H0;
    [|by intros ?%elem_of_nil].
  destruct (m_end m0 =? pos cu);
    [destruct (match_at ic r true cu) as [m1|] eqn:H1|].
  - intros [->|[->|?%elem_of_nil]%elem_of_cons]%elem_of_cons; eauto. done.
  - intros [->|?%elem_of_nil]%elem_of_cons; eauto. done.
  - intros [->|?%elem_of_nil]%elem_of_cons; eauto. done.
Qed.

(** Every match of an iteration is a match at some position of the
    subject. *)
Lemma finditer_from_inv ic r next i pv l m :
  m ∈ finditer_from ic r next i pv l →
  ∃ w tl must, l = w ++ tl ∧ match_at ic r must (moved i pv w tl) = Some m.
Proof.
  revert next i pv. induction l as [|c tl IH]; intros next i pv;
    cbn [finditer_from]; destruct (i <? next).
  - by intros ?%elem_of_nil.
  - intros [must Hm]%matches_here_inv. exists [], [], must.
    by rewrite moved_nil.
  - intros (w & tl' & must & -> & Hm)%IH. exists (c :: w), tl', must.
    by rewrite moved_cons.
  - intros [[must Hm]%matches_here_inv|(w & tl' & must & -> & Hm)%IH]%elem_of_app.
    + exists [], (c :: tl), must. by rewrite moved_nil.
    + exists (c :: w), tl', must. by rewrite moved_cons.
Qed.

Lemma finditer_inv ic r text m :
  m ∈ finditer ic r text →
  ∃ w tl must, text = w ++ tl
               ∧ match_at ic r must (moved 0 None w tl) = Some m.
Proof. apply finditer_from_inv. Qed.

Lemma search_from_inv ic r i pv l m :
  search_from ic r i pv l = Some m →
  ∃ w tl, l = w ++ tl ∧ match_at ic r false (moved i pv w tl) = Some m.
Proof.
  revert i pv. induction l as [|c tl IH]; intros i pv; cbn [search_from];
    destruct (match_at ic r false (Cursor i pv _)) as [m0|] eqn:H0.
  - intros [= <-]. exists [], []. by rewrite moved_nil.
  - done.
  - intros [= <-]. exists [], (c :: tl). by rewrite moved_nil.
  - intros (w & tl' & -> & Hm)%IH. exists (c :: w), tl'.
    by rewrite moved_cons.
Qed.

(** A search finds something as soon as some position matches. *)
Lemma search_from_complete ic r i pv w tl :
  is_Some (match_at ic r false (moved i pv w tl)) →
  is_Some (search_from ic r i pv (w ++ tl)).
Proof.
  revert i pv. induction w as [|c w IH]; intros i pv.
  - rewrite moved_nil. intros [m Hm]. destruct tl; cbn [app search_from];
      rewrite Hm; by eexists.
  - rewrite moved_cons. intros Hm. cbn [app search_from].
    destruct (match_at ic r false (Cursor i pv _)); [by eexists|].
    by apply IH.
Qed.

(** A greedy repetition succeeds as soon as the continuation succeeds
    after some run of the class. *)
Lemma star_greedy_complete p k cs i pv w tl cnt :
  Forall (λ c, p c = true) w →
  is_Some (k (moved i pv w tl) cs) →
  is_Some (star_greedy p 0 k cs i pv (w ++ tl) cnt).
Proof.
  intros Hw. revert i pv cnt. induction Hw as [|c w Hc Hw IH]; intros i pv cnt.
  - rewrite moved_nil. intros Hk.
    destruct tl as [|c tl]; cbn [app star_greedy Nat.leb]; [done|].
    destruct (p c); [|done].
    destruct (star_greedy _ _ _ _ _ _ _ _); [by eexists|done].
  - rewrite moved_cons. intros Hk. cbn [app star_greedy Nat.leb]. rewrite Hc.
    destruct (IH _ _ (S cnt) Hk) as [res ->]. by eexists.
Qed.

Lemma last_or_app pv (w1 w2 : str) :
  last_or pv (w1 ++ w2) = last_or (last_or pv w1) w2.
Proof.
  unfold last_or. rewrite last_app. by destruct (last w2), (last w1).
Qed.

Lemma last_or_some c (w : str) : last_or (Some c) w = last (c :: w).
Proof. unfold last_or. rewrite last_cons. by destruct (last w). Qed.

Lemma slice_occurs (text : str) (a b : nat) :
  occurs (Re.slice text a b) text.
Proof.
  exists (take a text), (drop (b - a) (drop a text)). unfold Re.slice.
  by rewrite take_drop, take_drop.
Qed.

Lemma group_occurs (text : str) (m : rmatch) (n : nat) (s : str) :
  Re.group text m n = Some s → occurs s text.
Proof.
  unfold Re.group. destruct n.
  - intros [= <-]. apply slice_occurs.
  - destruct (list_find _ _) as [[? [? [a b]]]|]; [|done].
    intros [= <-]. apply slice_occurs.
Qed.

Lemma occurs_app_r (sub pre s : str) : occurs sub s → occurs sub (pre ++ s).
Proof.
  intros (a & b & ->). exists (pre ++ a), b. by rewrite <- app_assoc.
Qed.

End MatchFacts.

(* ===================================================================== *)
(** * [str.find] and occurrences *)
(* ===================================================================== *)
Module FindFacts.
Import Re Py Notions MoreNotions PyFacts.

Lemma eqc_eq (c x : ascii) : Char.eqc c x = true ↔ c = x.
Proof. apply Ascii.eqb_eq. Qed.

Lemma starts_with_spec (sub l : str) :
  starts_with sub l = true ↔ ∃ tl, l = sub ++ tl.
Proof.
  revert l. induction sub as [|c sub IH]; intros l; cbn [starts_with].
  - split; [by exists l|done].
  - destruct l as [|x l]; [naive_solver|].
    rewrite andb_true_iff, eqc_eq, IH. naive_solver.
Qed.

(** [find_from] answers [-1] exactly when [sub] does not occur. *)
Lemma find_from_none (sub : str) (i : nat) (l : str) :
  find_from sub i l = -1 ↔ ¬ occurs sub l.
Proof.
  revert i. induction l as [|x l IH]; intros i; cbn [find_from];
    destruct (starts_with sub _) eqn:Hs.
  - apply starts_with_spec in Hs as [tl Hs]. split; [lia|].
    intros []. by exists [], tl.
  - split; [|done]. intros _ (pre & post & Heq).
    destruct pre; [|done]. destruct sub; [done|done].
  - apply starts_with_spec in Hs as [tl Hs]. split; [lia|].
    intros []. by exists [], tl.
  - rewrite IH. split; intros Hn (pre & post & Heq).
    + destruct pre as [|y pre].
      * assert (starts_with sub (x :: l) = true) as Ht; [|congruence].
        apply starts_with_spec. by exists post.
      * injection Heq as -> ->. apply Hn. by exists pre, post.
    + apply Hn. exists (x :: pre), post. by rewrite Heq.
Qed.

Lemma find_none (s sub : str) : find s sub 0 = -1 ↔ ¬ occurs sub s.
Proof.
  unfold find. cbn. pose proof (len_nonneg s).
  destruct (Z.ltb_spec (len s) 0); [lia|]. apply find_from_none.
Qed.

(** Where [find_from] answers an index, [sub] stands at that index. *)
Lemma find_from_some (sub : str) (i : nat) (l : str) (r : Z) :
  find_from sub i l = r → r ≠ -1 →
  ∃ pre post, l = pre ++ sub ++ post ∧ r = Z.of_nat (i + length pre).
Proof.
  revert i. induction l as [|x l IH]; intros i; cbn [find_from];
    destruct (starts_with sub _) eqn:Hs.
  - apply starts_with_spec in Hs as [tl Hs]. intros <- _.
    exists [], tl. split; [done|]. cbn. lia.
  - by intros <-.
  - apply starts_with_spec in Hs as [tl Hs]. intros <- _.
    exists [], tl. split; [done|]. cbn. lia.
  - intros Hr Hne. destruct (IH _ Hr Hne) as (pre & post & -> & ->).
    exists (x :: pre), post. split; [done|]. cbn. lia.
Qed.

End FindFacts.

(* ===================================================================== *)
(** * Further properties of the pointer-usage scanner *)
(* ===================================================================== *)
Module UsageFacts.
Import Re Py Slicer Notions MoreNotions ReFacts PrototypeFacts MatchFacts.
Local Close Scope Z_scope.

(** ** What the two patterns of the scanner match *)

Lemma addr_match_inv target must i pv l m :
  match_at false (p_rx (addr_pattern target)) must (Cursor i pv l) = Some m →
  ∃ ws tl, l = "&"%char :: ws ++ target ++ tl
           ∧ Forall (λ c, Char.isspace c = true) ws
           ∧ word_boundary ("&"%char :: ws ++ target) tl
           ∧ m_start m = i
           ∧ m_end m = i + 1 + length ws + length target.
Proof.
  intros (cu' & cs & H & ->)%match_at_inv. cbn [pos] in *.
  unfold addr_pattern, p_rx, seqs, spaces in H. cbn [foldr] in H.
  rewrite exec_seq in H. apply exec_chr_inv in H as (tl0 & Heq & H).
  cbn [rest pos] in *. subst l.
  rewrite exec_seq, exec_star_greedy in H. cbn [pos prev rest] in H.
  apply star_greedy_inv in H as (ws & tl1 & -> & Hws & H).
  unfold moved in H at 1. apply exec_lit_inv in H as (tl & -> & H).
  rewrite exec_seq in H. apply exec_wordb_inv in H as [Hb H].
  rewrite exec_eps in H. apply accept_inv in H as [= -> ->].
  exists ws, tl. unfold moved in *. cbn [m_start m_end pos prev rest] in *.
  rewrite <- last_or_app, last_or_some in Hb.
  split_and!; [done|done|exact Hb|done|lia].
Qed.

Lemma addr_match_complete target i pv pre ws post :
  Forall (λ c, Char.isspace c = true) ws →
  word_boundary ("&"%char :: ws ++ target) post →
  is_Some (match_at false (p_rx (addr_pattern target)) false
             (moved i pv pre ("&"%char :: ws ++ target ++ post))).
Proof.
  intros Hws Hb. unfold match_at.
  assert (is_Some (exec false (p_rx (addr_pattern target))
                     (moved i pv pre ("&"%char :: ws ++ target ++ post)) []
                     (accept false (pos (moved i pv pre
                        ("&"%char :: ws ++ target ++ post))))))
    as [[cu' cs] ->]; [|by eexists].
  unfold addr_pattern, p_rx, seqs, spaces. cbn [foldr].
  unfold moved at 1. rewrite exec_seq, exec_chr_here.
  rewrite exec_seq, exec_star_greedy. cbn [pos prev rest].
  apply star_greedy_complete; [done|].
  unfold moved at 1. rewrite exec_lit_app, exec_seq, exec_wordb, exec_eps.
  unfold moved. cbn [pos prev rest].
  rewrite <- last_or_app, last_or_some. unfold word_boundary in Hb.
  rewrite Hb. by eexists.
Qed.

Lemma bare_match_inv target must i pv l m :
  match_at false (p_rx (bare_name_pattern target)) must (Cursor i pv l)
  = Some m →
  ∃ tl, l = target ++ tl
        ∧ none_or ident_start pv
        ∧ none_or ident_or_paren (head tl)
        ∧ m_start m = i ∧ m_end m = i + length target.
Proof.
  intros (cu' & cs & H & ->)%match_at_inv. cbn [pos] in *.
  unfold bare_name_pattern, p_rx, seqs in H. cbn [foldr] in H.
  rewrite exec_seq in H. apply exec_not_behind_inv in H as [Hpv H].
  apply exec_lit_inv in H as (tl & -> & H).
  rewrite exec_seq in H. apply exec_not_ahead_inv in H as [Htl H].
  rewrite exec_eps in H. apply accept_inv in H as [= -> ->].
  exists tl. unfold moved. cbn [m_start m_end pos]. by split_and!.
Qed.

(** ** The three passes *)

Lemma fold_left_preserves {A B} (f : A → B → A) (I : A → Prop)
    (l : list B) (a : A) :
  I a → (∀ a b, b ∈ l → I a → I (f a b)) → I (fold_left f l a).
Proof.
  revert a. induction l as [|b l IH]; intros a Ha Hstep; [done|].
  cbn [fold_left]. apply IH.
  - apply Hstep; [by left|done].
  - intros a' b' Hb'. apply Hstep. by right.
Qed.

Lemma addr_pass_flag c_text ms res :
  Usage.has_address_taken (fold_left (addr_step c_text) ms res)
  = Usage.has_address_taken res || nonempty ms.
Proof.
  revert res. induction ms as [|m ms IH]; intros res; cbn [fold_left].
  - by rewrite orb_false_r.
  - rewrite IH. cbn. by rewrite orb_true_r.
Qed.

Lemma addr_pass_suspicious c_text ms res :
  Usage.suspicious_patterns (fold_left (addr_step c_text) ms res)
  = Usage.suspicious_patterns res.
Proof.
  revert res. induction ms as [|m ms IH]; intros res; cbn [fold_left];
    [done|]. by rewrite IH.
Qed.

Lemma registration_step_keeps c_text target res m :
  Usage.has_address_taken (registration_step c_text target res m)
  = Usage.has_address_taken res
  ∧ Usage.suspicious_patterns (registration_step c_text target res m)
    = Usage.suspicious_patterns res.
Proof. unfold registration_step. by case_bool_decide. Qed.

Lemma registration_pass_keeps c_text target (ps : list pattern) res :
  let res' :=
    fold_left (λ res p, fold_left (registration_step c_text target)
                          (p_finditer p c_text) res) ps res in
  Usage.has_address_taken res' = Usage.has_address_taken res
  ∧ Usage.suspicious_patterns res' = Usage.suspicious_patterns res.
Proof.
  cbv zeta.
  apply (fold_left_preserves _
           (λ r, Usage.has_address_taken r = Usage.has_address_taken res
                 ∧ Usage.suspicious_patterns r
                   = Usage.suspicious_patterns res)); [done|].
  intros r p _ Hr.
  apply (fold_left_preserves _
           (λ r, Usage.has_address_taken r = Usage.has_address_taken res
                 ∧ Usage.suspicious_patterns r
                   = Usage.suspicious_patterns res)); [done|].
  intros r' m _ [H1 H2].
  destruct (registration_step_keeps c_text target r' m) as [-> ->]. done.
Qed.

Lemma bare_step_flag c_text res m :
  Usage.has_address_taken (bare_step c_text res m)
  = Usage.has_address_taken res.
Proof. unfold bare_step. by repeat case_match. Qed.

Lemma bare_pass_flag c_text ms res :
  Usage.has_address_taken (fold_left (bare_step c_text) ms res)
  = Usage.has_address_taken res.
Proof.
  apply (fold_left_preserves _
           (λ r, Usage.has_address_taken r = Usage.has_address_taken res));
    [done|].
  intros r m _ <-. apply bare_step_flag.
Qed.

Lemma check_flag c_text target :
  Usage.has_address_taken (check_function_pointer_usage c_text target)
  = nonempty (p_finditer (addr_pattern target) c_text).
Proof.
  unfold check_function_pointer_usage. rewrite bare_pass_flag.
  destruct (registration_pass_keeps c_text target (take 2 FUNC_PTR_PATTERNS)
              (fold_left (addr_step c_text)
                 (p_finditer (addr_pattern target) c_text)
                 (Usage.Make false [] [] []))) as [-> _].
  by rewrite addr_pass_flag.
Qed.

(** X6. The address of [target] is reported as taken exactly when the
    text holds an ampersand, then white space (possibly none), then
    [target] ending at a word boundary. *)
Theorem address_taken_iff (c_text target : str) :
  Usage.has_address_taken (check_function_pointer_usage c_text target) = true
  ↔ ∃ pre ws post,
      c_text = pre ++ "&"%char :: ws ++ target ++ post
      ∧ Forall (λ c, Char.isspace c = true) ws
      ∧ word_boundary ("&"%char :: ws ++ target) post.
Proof.
  rewrite check_flag.
  change (p_finditer (addr_pattern target) c_text)
    with (finditer false (p_rx (addr_pattern target)) c_text).
  split.
  - destruct (finditer false (p_rx (addr_pattern target)) c_text)
      as [|m ms] eqn:Hms; [done|]. intros _.
    assert (m ∈ finditer false (p_rx (addr_pattern target)) c_text) as Hm.
    { rewrite Hms. by left. }
    apply finditer_inv in Hm as (w & tl & must & -> & Hm).
    apply addr_match_inv in Hm as (ws & post & -> & Hws & Hb & _).
    by exists w, ws, post.
  - intros (pre & ws & post & -> & Hws & Hb).
    pose proof (addr_match_complete target 0 None pre ws post Hws Hb) as Hm.
    apply search_from_complete in Hm as [m Hm].
    pose proof (head_finditer false (p_rx (addr_pattern target))
                  (pre ++ "&"%char :: ws ++ target ++ post)) as Hh.
    unfold search in Hh. rewrite Hm in Hh.
    by destruct (finditer false (p_rx (addr_pattern target)) _).
Qed.

Lemma finditer_absent ic r (text : str) (P : Prop) :
  ¬ P →
  (∀ must i pv l m, match_at ic r must (Cursor i pv l) = Some m →
                    ∀ pre, text = pre ++ l → P) →
  finditer ic r text = [].
Proof.
  intros HP Hinv. destruct (finditer ic r text) as [|m ms] eqn:Hms; [done|].
  assert (m ∈ finditer ic r text) as Hm by (rewrite Hms; by left).
  apply finditer_inv in Hm as (w & tl & must & Heq & Hm).
  destruct HP. by apply (Hinv _ _ _ _ _ Hm w).
Qed.

Lemma addr_absent (c_text target : str) :
  ¬ occurs target c_text →
  finditer false (p_rx (addr_pattern target)) c_text = [].
Proof.
  intros Habs. apply (finditer_absent _ _ c_text _ Habs).
  intros must i pv l m (ws & tl & -> & _)%addr_match_inv pre ->.
  exists (pre ++ "&"%char :: ws), tl. by rewrite <- !app_assoc.
Qed.

Lemma bare_absent (c_text target : str) :
  ¬ occurs target c_text →
  finditer false (p_rx (bare_name_pattern target)) c_text = [].
Proof.
  intros Habs. apply (finditer_absent _ _ c_text _ Habs).
  intros must i pv l m (tl & -> & _)%bare_match_inv pre ->.
  by exists pre, tl.
Qed.

Lemma registration_absent (c_text target : str) (ps : list pattern) res :
  ¬ occurs target c_text →
  fold_left (λ res p, fold_left (registration_step c_text target)
                        (p_finditer p c_text) res) ps res = res.
Proof.
  intros Habs.
  apply (fold_left_preserves _ (λ r, r = res)); [done|]. intros r p _ ->.
  apply (fold_left_preserves _ (λ r, r = res)); [done|]. intros r m _ ->.
  unfold registration_step. case_bool_decide as Hg; [|done].
  destruct Habs. by apply (group_occurs _ _ _ _ Hg).
Qed.

(** X7. For a name that does not occur in the text, no evidence is
    reported: no address taken, no registration, no suspicious pattern,
    no snippet. *)
Theorem absent_name_no_evidence (c_text target : str) :
  ¬ occurs target c_text →
  check_function_pointer_usage c_text target = Usage.Make false [] [] [].
Proof.
  intros Habs. unfold check_function_pointer_usage, p_finditer.
  change (p_ic (addr_pattern target)) with false.
  change (p_ic (bare_name_pattern target)) with false.
  rewrite (addr_absent c_text target Habs).
  rewrite (bare_absent c_text target Habs).
  cbn [fold_left]. by apply registration_absent.
Qed.

Lemma skip_space_spec (i : Z) (l : str) :
  ∃ ws rest, l = ws ++ rest
             ∧ Forall (λ c, Char.isspace c = true) ws
             ∧ none_or (λ c, Char.isspace c) (head rest)
             ∧ skip_space i l = (i + Z.of_nat (length ws))%Z.
Proof.
  revert i. induction l as [|c l IH]; intros i.
  - exists [], []. split_and!; [done..|]. cbn. lia.
  - cbn [skip_space]. destruct (Char.isspace c) eqn:Hc.
    + destruct (IH (i + 1)%Z) as (ws & rest & -> & Hws & Hr & ->).
      exists (c :: ws), rest. split_and!; [done|by constructor|done|].
      cbn [length]. lia.
    + exists [], (c :: l). split_and!; [done..|]. cbn. lia.
Qed.

(** X8. Every position reported as a bare reference is the start of an
    occurrence of [target] that is not preceded by a letter or an
    underscore, not followed at once by a letter, a digit, an underscore
    or an opening parenthesis, and followed, after white space, by a
    character that is not an opening parenthesis. *)
Theorem suspicious_positions (c_text target : str) (p : Z) :
  p ∈ Usage.suspicious_patterns (check_function_pointer_usage c_text target) →
  ∃ pre ws c post,
    c_text = pre ++ target ++ ws ++ c :: post
    ∧ p = len pre
    ∧ none_or ident_start (last pre)
    ∧ none_or ident_or_paren (head (ws ++ c :: post))
    ∧ Forall (λ c, Char.isspace c = true) ws
    ∧ Char.isspace c = false ∧ c ≠ "("%char.
Proof.
  unfold check_function_pointer_usage. revert p.
  apply (fold_left_preserves _
    (λ r, ∀ p, p ∈ Usage.suspicious_patterns r →
       ∃ pre ws c post,
         c_text = pre ++ target ++ ws ++ c :: post
         ∧ p = len pre
         ∧ none_or ident_start (last pre)
         ∧ none_or ident_or_paren (head (ws ++ c :: post))
         ∧ Forall (λ c, Char.isspace c = true) ws
         ∧ Char.isspace c = false ∧ c ≠ "("%char)).
  { destruct (registration_pass_keeps c_text target
                (take 2 FUNC_PTR_PATTERNS)
                (fold_left (addr_step c_text)
                   (p_finditer (addr_pattern target) c_text)
                   (Usage.Make false [] [] []))) as [_ ->].
    rewrite addr_pass_suspicious. by intros p ?%elem_of_nil. }
  intros r m Hm Hr p. unfold bare_step.
  destruct (_ <? _)%Z eqn:Hlt; [|by apply Hr].
  destruct (_ && _) eqn:Hok; [|by apply Hr].
  cbn [Usage.suspicious_patterns].
  intros [Hp|Hp%list_elem_of_singleton]%elem_of_app; [by apply Hr|].
  subst p.
  apply finditer_inv in Hm as (pre & tl & must & Heq & Hm).
  apply bare_match_inv in Hm as (tl' & -> & Hpv & Hnx & Hs & He).
  unfold moved in *. cbn [pos prev] in *.
  rewrite Hs, He in *. clear Hs He.
  apply andb_true_iff in Hok as [Hn Hc].
  assert (drop (Z.to_nat (Z.of_nat (0 + length pre + length target))) c_text
          = tl') as Hdrop.
  { rewrite Nat2Z.id, Heq, app_assoc, drop_app_length'; [done|].
    rewrite length_app. lia. }
  rewrite Hdrop in *.
  destruct (skip_space_spec (Z.of_nat (0 + length pre + length target)) tl')
    as (ws & rest & -> & Hws & Hrest & Hskip).
  rewrite Hskip in *.
  assert (c_text !! Z.to_nat (Z.of_nat (0 + length pre + length target)
                              + Z.of_nat (length ws))
          = head rest) as Hlook.
  { rewrite Heq.
    replace (Z.to_nat _) with (length (pre ++ target ++ ws) + 0)
      by (rewrite !length_app; lia).
    replace (pre ++ target ++ ws ++ rest)
      with ((pre ++ target ++ ws) ++ rest) by (by rewrite <- !app_assoc).
    rewrite lookup_app_r by lia.
    replace (_ - _) with 0 by lia.
    by destruct rest. }
  rewrite Hlook in Hc. destruct rest as [|c post]; [done|].
  cbn [head] in *. exists pre, ws, c, post. split_and!; try done.
  - unfold last_or in Hpv. by destruct (last pre).
  - unfold Char.neqc in Hc. intros ->. by rewrite Ascii.eqb_refl in Hc.
Qed.

(** ** Instances *)

Lemma absent_name_no_evidence_witness :
  ¬ occurs Samples.foo (lit_str "int bar(void);")
  ∧ check_function_pointer_usage (lit_str "int bar(void);") Samples.foo
    = Usage.Make false [] [] [].
Proof.
  assert (¬ occurs Samples.foo (lit_str "int bar(void);")) as H.
  { apply FindFacts.find_none. vm_compute. reflexivity. }
  split; [exact H|].
  exact (absent_name_no_evidence (lit_str "int bar(void);") Samples.foo H).
Defined.

Lemma suspicious_positions_witness :
  5%Z ∈ Usage.suspicious_patterns
          (check_function_pointer_usage (lit_str "cb = f;") Samples.f)
  ∧ ∃ pre ws c post,
      lit_str "cb = f;" = pre ++ Samples.f ++ ws ++ c :: post
      ∧ 5%Z = len pre
      ∧ none_or ident_start (last pre)
      ∧ none_or ident_or_paren (head (ws ++ c :: post))
      ∧ Forall (λ c, Char.isspace c = true) ws
      ∧ Char.isspace c = false ∧ c ≠ "("%char.
Proof.
  assert (5%Z ∈ Usage.suspicious_patterns
                  (check_function_pointer_usage (lit_str "cb = f;")
                     Samples.f)) as H.
  { vm_compute. left. }
  split; [exact H|].
  exact (suspicious_positions (lit_str "cb = f;") Samples.f 5%Z H).
Defined.

End UsageFacts.

(* ===================================================================== *)
(** * Further properties of the call-graph parser *)
(* ===================================================================== *)
Module DumpFacts.
Import Re Py Slicer Notions MoreNotions ParserFacts MatchFacts.

Lemma header_is_header line a : header_of line = Some a → is_header line = true.
Proof. unfold header_of, is_header. by destruct (p_match NODE_RX line). Qed.

Lemma callee_not_header line b :
  callee_of line = Some b → is_header line = false.
Proof. unfold callee_of, is_header. by destruct (p_match NODE_RX line). Qed.

Lemma not_header_of line : is_header line = false → header_of line = None.
Proof. unfold header_of, is_header. by destruct (p_match NODE_RX line). Qed.

(** ** One line of the loop of [parse_callgraph_text] *)

Lemma callers_line_header (cur : option str) (m : gmap str (gset str))
    (line : str) :
  is_header line = true →
  callers_line (cur, m) line = (header_of line, m).
Proof.
  unfold is_header, header_of, callers_line.
  by destruct (p_match NODE_RX line).
Qed.

Lemma callers_line_call (a : str) (m : gmap str (gset str))
    (line b : str) :
  a ≠ [] → callee_of line = Some b →
  callers_line (Some a, m) line
  = (Some a, <[b := {[a]} ∪ get_set m b]> m).
Proof.
  unfold callee_of, callers_line. intros Ha.
  destruct (p_match NODE_RX line); [done|].
  destruct a; [done|]. cbn [truthy].
  destruct (p_match CALL_RX line); [|done]. by intros ->.
Qed.

Lemma callers_line_other (cur : option str) (m : gmap str (gset str))
    (line : str) :
  is_header line = false →
  (truthy cur = false ∨ callee_of line = None) →
  callers_line (cur, m) line = (cur, m).
Proof.
  unfold is_header, callee_of, callers_line.
  destruct (p_match NODE_RX line); [done|]. intros _ [->|H]; [done|].
  destruct (truthy cur); [|done].
  destruct (p_match CALL_RX line); [|done]. by rewrite H.
Qed.

Lemma call_ahead_cons line lines b :
  call_ahead (line :: lines) b
  ↔ callee_of line = Some b ∨ (is_header line = false ∧ call_ahead lines b).
Proof.
  unfold call_ahead. split.
  - intros (l2 & c & l3 & Heq & Hl2 & Hc). destruct l2 as [|x l2].
    + injection Heq as -> ->. by left.
    + injection Heq as -> ->. apply Forall_cons in Hl2 as [Hx Hl2].
      right. split; [done|]. by exists l2, c, l3.
  - intros [Hc|[Hh (l2 & c & l3 & -> & Hl2 & Hc)]].
    + by exists [], line, lines.
    + exists (line :: l2), c, l3. split_and!; [done| |done].
      by apply Forall_cons.
Qed.

Lemma edge_in_cons line lines a b :
  edge_in (line :: lines) a b
  ↔ (header_of line = Some a ∧ a ≠ [] ∧ call_ahead lines b)
    ∨ edge_in lines a b.
Proof.
  unfold edge_in. split.
  - intros (l1 & h & rest & Heq & Hh & Ha & Hc). destruct l1 as [|x l1].
    + injection Heq as -> ->. by left.
    + injection Heq as -> ->. right. by exists l1, h, rest.
  - intros [(Hh & Ha & Hc)|(l1 & h & rest & -> & Hh & Ha & Hc)].
    + by exists [], line, lines.
    + by exists (line :: l1), h, rest.
Qed.

(** The loop of [parse_callgraph_text], read as a set of edges. *)
Lemma callers_fold_edges (lines : list str) (cur : option str)
    (m : gmap str (gset str))
    (a b : str) :
  a ∈ get_set (fold_left callers_line lines (cur, m)).2 b
  ↔ a ∈ get_set m b
    ∨ (cur = Some a ∧ a ≠ [] ∧ call_ahead lines b)
    ∨ edge_in lines a b.
Proof.
  revert cur m. induction lines as [|line lines IH]; intros cur m.
  - cbn [fold_left snd]. unfold call_ahead, edge_in. split; [by left|].
    intros [?|[(_ & _ & l2 & c & l3 & Heq & _)|(l1 & h & rest & Heq & _)]];
      [done|by destruct l2|by destruct l1].
  - cbn [fold_left]. rewrite call_ahead_cons, edge_in_cons.
    destruct (is_header line) eqn:Hh.
    + rewrite callers_line_header, IH by done.
      assert (callee_of line ≠ Some b) as Hnc.
      { intros Hc%callee_not_header. congruence. }
      naive_solver.
    + pose proof (not_header_of line Hh) as Hno.
      destruct (callee_of line) as [b0|] eqn:Hc; cycle 1.
      { rewrite callers_line_other, IH by auto. naive_solver. }
      destruct (truthy cur) eqn:Ht; cycle 1.
      { rewrite callers_line_other, IH by auto.
        assert (∀ x, cur = Some x → x = []) as He.
        { intros x ->. by destruct x. }
        naive_solver. }
      destruct cur as [[|c0 a0]|]; try done.
      rewrite (callers_line_call (c0 :: a0) m line b0), IH by done.
      rewrite get_set_insert. case_decide as Hb.
      * subst b0. rewrite elem_of_union, elem_of_singleton. naive_solver.
      * naive_solver.
Qed.

(** X9. [a] is recorded as a caller of [b] exactly when the dump holds a
    header line for [a] and, after it and before the next header line,
    a call line for [b]. *)
Theorem reverse_map_edges (text a b : str) :
  a ∈ get_set (parse_callgraph_text text) b ↔ edge_in (splitlines text) a b.
Proof.
  unfold parse_callgraph_text. rewrite callers_fold_edges.
  unfold get_set. rewrite lookup_empty. cbn [default].
  split; [|by auto]. intros [?%not_elem_of_empty|[(? & _)|?]]; done.
Qed.

(** ** The keys of the forward map *)

Lemma callees_line_keys (cur : option str) (m : gmap str (gset str))
    (line : str) (cur' : option str) (m' : gmap str (gset str)) (a : str) :
  callees_line (cur, m) line = Ok (cur', m') →
  is_Some (m' !! a) ↔ is_Some (m !! a) ∨ header_of line = Some a.
Proof.
  unfold callees_line, header_of.
  destruct (p_match NODE_RX line) as [mt|].
  - destruct (Re.group line mt 1) as [c|]; [|intros [= <- <-]; naive_solver].
    destruct (m !! c) as [s|] eqn:Hc; intros [= <- <-].
    + split; [by left|]. intros [?|[= <-]]; [done|]. by rewrite Hc.
    + destruct (decide (c = a)) as [->|Hne].
      * rewrite lookup_insert_eq. naive_solver.
      * rewrite lookup_insert_ne by done. naive_solver.
  - destruct (truthy cur); [|intros [= <- <-]; naive_solver].
    destruct (p_match CALL_RX line) as [m2|];
      [|intros [= <- <-]; naive_solver].
    destruct (Re.group line m2 1) as [callee|], cur as [c|];
      try (intros [= <- <-]; naive_solver).
    destruct (m !! c) as [s|] eqn:Hc; [|done]. intros [= <- <-].
    destruct (decide (c = a)) as [->|Hne].
    + rewrite lookup_insert_eq, Hc. naive_solver.
    + rewrite lookup_insert_ne by done. naive_solver.
Qed.

Lemma callees_loop_keys (lines : list str) (cur : option str)
    (m fwd : gmap str (gset str))
    (a : str) :
  callees_loop lines (cur, m) = Ok fwd →
  is_Some (fwd !! a)
  ↔ is_Some (m !! a) ∨ ∃ line, line ∈ lines ∧ header_of line = Some a.
Proof.
  revert cur m. induction lines as [|line lines IH]; intros cur m.
  - cbn. intros [= <-]. split; [by left|].
    intros [?|(line & ?%elem_of_nil & _)]; done.
  - cbn [callees_loop].
    destruct (callees_line (cur, m) line) as [[cur' m']| |] eqn:Hl; try done.
    cbn [bind]. intros Hrun. rewrite (IH _ _ Hrun).
    rewrite (callees_line_keys _ _ _ _ _ a Hl).
    setoid_rewrite elem_of_cons. naive_solver.
Qed.

(** X10. [parse_callees_map] returns, and the keys of the forward map
    are exactly the names that have a header line. *)
Theorem forward_keys_are_headers (text : str) :
  ∃ fwd, parse_callees_map text = Ok fwd
         ∧ ∀ a, is_Some (fwd !! a)
                ↔ ∃ line, line ∈ splitlines text ∧ header_of line = Some a.
Proof.
  destruct (loops_agree (splitlines text) None ∅ ∅) as (fwd & Hrun & _);
    [done|done|].
  exists fwd. split; [done|]. intros a.
  rewrite (callees_loop_keys _ _ _ _ a Hrun), lookup_empty.
  split; [|by auto]. by intros [[? ?]|?].
Qed.

End DumpFacts.

(* ===================================================================== *)
(** * The static part of the pipeline *)
(* ===================================================================== *)
Module PipelineFacts.
Import Re Py Slicer Notions MoreNotions TraversalFacts ParserFacts
  MatchFacts UsageFacts DumpFacts WalkFacts.

Lemma occurs_trans (a b c : str) : occurs a b → occurs b c → occurs a c.
Proof.
  intros (p1 & q1 & ->) (p2 & q2 & ->).
  exists (p2 ++ p1), (q1 ++ q2). by rewrite <- !app_assoc.
Qed.

Lemma occurs_prefix (a b : str) : occurs a (a ++ b).
Proof. by exists [], b. Qed.

(** Every line of [splitlines] is a piece of the text. *)
Lemma splitlines_aux_occurs (n : nat) (cur s line : str) :
  (length s ≤ n)%nat →
  line ∈ splitlines_aux cur s → occurs line (reverse cur ++ s).
Proof.
  revert cur s. induction n as [|n IH]; intros cur s Hn.
  { destruct s; [|cbn in Hn; lia]. cbn [splitlines_aux].
    destruct cur; [by intros ?%elem_of_nil|].
    intros ->%list_elem_of_singleton. apply occurs_prefix. }
  destruct s as [|c tl]; cbn [splitlines_aux].
  { destruct cur; [by intros ?%elem_of_nil|].
    intros ->%list_elem_of_singleton. apply occurs_prefix. }
  cbn [length] in Hn.
  assert (∀ l, (length l ≤ n)%nat → line ∈ splitlines_aux [] l →
               ∀ pre, occurs line (pre ++ l)) as Hrest.
  { intros l Hl Hin pre. apply occurs_app_r. by apply (IH [] l). }
  destruct (Char.eqc Char.cr c).
  - destruct tl as [|d tl'].
    + intros ->%list_elem_of_singleton. apply occurs_prefix.
    + cbn [length] in Hn. destruct (Char.eqc Char.nl d).
      * intros [->|Hl]%elem_of_cons; [apply occurs_prefix|].
        pose proof (Hrest tl' ltac:(lia) Hl (reverse cur ++ [c; d])) as Ho.
        by rewrite <- app_assoc in Ho.
      * intros [->|Hl]%elem_of_cons; [apply occurs_prefix|].
        pose proof (Hrest (d :: tl') ltac:(cbn; lia) Hl (reverse cur ++ [c]))
          as Ho.
        by rewrite <- app_assoc in Ho.
  - destruct (Char.is_linebreak c).
    + intros [->|Hl]%elem_of_cons; [apply occurs_prefix|].
      pose proof (Hrest tl ltac:(lia) Hl (reverse cur ++ [c])) as Ho.
      by rewrite <- app_assoc in Ho.
    + intros Hl. apply (IH (c :: cur) tl) in Hl; [|lia].
      by rewrite reverse_cons, <- app_assoc in Hl.
Qed.

Lemma splitlines_occurs (text line : str) :
  line ∈ splitlines text → occurs line text.
Proof. apply (splitlines_aux_occurs (length text) []). done. Qed.

Lemma callee_of_occurs (line b : str) :
  callee_of line = Some b → occurs b line.
Proof.
  unfold callee_of. destruct (p_match NODE_RX line); [done|].
  destruct (p_match CALL_RX line); [|done]. apply group_occurs.
Qed.

(** A name that the dump does not hold has no recorded caller. *)
Lemma absent_no_callers (cg tgt : str) :
  ¬ occurs tgt cg → get_set (parse_callgraph_text cg) tgt = ∅.
Proof.
  intros Habs. apply set_eq. intros a. split; [|by intros ?%not_elem_of_empty].
  unfold parse_callgraph_text. rewrite callers_fold_edges.
  unfold get_set at 1. rewrite lookup_empty. cbn [default].
  intros [?%not_elem_of_empty|[(? & _)|Hedge]]; [done|done|].
  destruct Hedge as (l1 & h & rest & Heq & _ & _ & l2 & c & l3 & -> & _ & Hc).
  destruct Habs. apply (occurs_trans _ c); [by apply callee_of_occurs|].
  apply splitlines_occurs. rewrite Heq.
  rewrite !elem_of_app, !elem_of_cons, elem_of_app, elem_of_cons. auto.
Qed.

(** The reverse map, read as a set of edges of the dump. *)
Lemma recorded_callers_edges (cg a b : str) :
  a ∈ get_set (parse_callgraph_text cg) b ↔ edge_in (splitlines cg) a b.
Proof.
  unfold parse_callgraph_text. rewrite callers_fold_edges.
  unfold get_set. rewrite lookup_empty. cbn [default].
  split; [|by auto]. intros [?%not_elem_of_empty|[(? & _)|?]]; done.
Qed.

Section WithIteration.
Variable set_iter : gset str → list str.
Hypothesis set_iter_perm : ∀ s, set_iter s ≡ₚ elements s.

Lemma parse_graph_returns (cg : str) :
  ∃ fwd, parse_graph cg = Ok (parse_callgraph_text cg, fwd)
         ∧ same_edges fwd (parse_callgraph_text cg).
Proof.
  destruct (loops_agree (splitlines cg) None ∅ ∅) as (fwd & Hrun & Hsame);
    [done|done|].
  exists fwd. split; [|done]. unfold parse_graph, parse_callees_map.
  by rewrite Hrun.
Qed.

(** X11. Whenever the static part of the pipeline, [parse_graph] then
    [analyze_target], hands back an analysis, its direct callers are
    exactly the names with a header line followed, before the next
    header line, by a call line for the target, and its direct callees
    are exactly the names with a call line under a header line of the
    target. *)
Theorem static_analysis_edges (cg c tgt : str) (a : Analysis) :
  static_analysis set_iter cg c tgt = Ok a →
  a_target a = tgt
  ∧ (∀ x, x ∈ a_callers a ↔ edge_in (splitlines cg) x tgt)
  ∧ (∀ x, x ∈ a_callees a ↔ edge_in (splitlines cg) tgt x).
Proof.
  intros Hrun.
  destruct (parse_graph_returns cg) as (fwd & Hg & Hsame).
  unfold static_analysis in Hrun. rewrite Hg in Hrun. cbn [bind] in Hrun.
  unfold analyze_target in Hrun.
  cbn [target callers_map callees_map cg_text c_text] in Hrun.
  destruct (get_transitive_callers_spec set_iter set_iter_perm
              (parse_callgraph_text cg) tgt) as (seen & Hs & _).
  rewrite Hs in Hrun.
  destruct (get_transitive_callees_returns set_iter set_iter_perm fwd tgt 10)
    as [l Hl].
  rewrite Hl in Hrun. cbn [mbind option_bind] in Hrun.
  destruct (decide_target _ _ _ _) as [d ws]. injection Hrun as <-.
  cbn [a_target a_callers a_callees].
  split_and!; [done|..]; intros x;
    rewrite (elem_of_sorted set_iter set_iter_perm).
  - apply recorded_callers_edges.
  - rewrite (Hsame tgt x). apply recorded_callers_edges.
Qed.


End WithIteration.

(** ** Instances *)

Lemma static_analysis_edges_witness :
  (∀ s : gset str, elements s ≡ₚ elements s)
  ∧ ∃ a, static_analysis elements Samples.cycle_dump [] Samples.name_A = Ok a
         ∧ a_target a = Samples.name_A
         ∧ (∀ x, x ∈ a_callers a
                 ↔ edge_in (splitlines Samples.cycle_dump) x Samples.name_A)
         ∧ (∀ x, x ∈ a_callees a
                 ↔ edge_in (splitlines Samples.cycle_dump) Samples.name_A x).
Proof.
  split; [reflexivity|].
  eexists. split; [vm_compute; reflexivity|].
  apply (static_analysis_edges elements (λ s, reflexivity _)
           Samples.cycle_dump [] Samples.name_A).
  vm_compute. reflexivity.
Defined.


End PipelineFacts.

(* ===================================================================== *)
(** * Further properties of the function remover *)
(* ===================================================================== *)
Module LocateFacts.
Import Re Py App Notions MoreNotions ReFacts PyFacts AppFacts
  PrototypeFacts MatchFacts FindFacts.

Local Close Scope Z_scope.

Lemma tail_rx_inv_pos func i pv l cs k res :
  exec false (tail_rx func) (Cursor i pv l) cs k = Some res →
  ∃ ws w4 w6 R,
    l = func ++ ws ++ "("%char :: w4 ++ ")"%char :: w6 ++ "{"%char :: R
    ∧ k (Cursor (i + length func + length ws + length w4 + length w6 + 3)
           (Some "{"%char) R) cs = Some res.
Proof.
  unfold tail_rx. rewrite exec_seq. intros [_ H]%exec_wordb_inv.
  apply exec_lit_inv in H as (tl & -> & H).
  unfold after_name_rx, seqs in H. cbn [foldr] in H.
  rewrite exec_seq, exec_star_greedy in H.
  apply star_greedy_inv in H as (ws & tl1 & Heq & Hws & H).
  unfold moved in Heq at 1. cbn [rest] in Heq. subst tl.
  cbv beta in H. rewrite exec_seq in H.
  apply exec_chr_inv in H as (tl2 & Heq & H).
  unfold moved in Heq. cbn [rest] in Heq. subst tl1.
  cbv beta in H. rewrite exec_seq, exec_star_greedy in H.
  apply star_greedy_inv in H as (w4 & tl3 & Heq & Hw4 & H).
  cbn [rest] in Heq. subst tl2.
  cbv beta in H. rewrite exec_seq in H.
  apply exec_chr_inv in H as (tl4 & Heq & H).
  unfold moved in Heq. cbn [rest] in Heq. subst tl3.
  cbv beta in H. rewrite exec_seq, exec_star_lazy in H.
  apply star_lazy_inv in H as (w6 & tl5 & Heq & Hw6 & H).
  cbn [rest] in Heq. subst tl4.
  cbv beta in H. rewrite exec_seq in H.
  apply exec_chr_inv in H as (tl6 & Heq & H).
  unfold moved in Heq. cbn [rest] in Heq. subst tl5.
  rewrite exec_eps in H.
  exists ws, w4, w6, tl6. split; [done|].
  unfold moved in H. cbn [pos prev] in H.
  by replace (S (S (S (i + length func + length ws) + length w4) + length w6))
    with (i + length func + length ws + length w4 + length w6 + 3)
    in H by lia.
Qed.

Lemma definition_rx_inv func must i pv l m :
  match_at false (definition_rx func) must (Cursor i pv l) = Some m →
  ∃ w0 ws w4 w6 R,
    l = w0 ++ func ++ ws ++ "("%char :: w4 ++ ")"%char :: w6
        ++ "{"%char :: R
    ∧ m_start m = i
    ∧ m_end m = i + length w0 + length func + length ws + length w4
                + length w6 + 3.
Proof.
  intros (cu' & cs & H & ->)%match_at_inv. cbn [pos m_start m_end] in *.
  rewrite definition_rx_unfold, exec_grp, exec_seq, exec_alt in H.
  assert (∃ wa tl, l = wa ++ tl
            ∧ exec false (Seq (Star false 0 (Char.neqc Char.nl))
                            (tail_rx func))
                (moved i pv wa tl) []
                (λ cu' cs', accept must i cu' ((1, (i, pos cu')) :: cs'))
              = Some (cu', cs)) as (wa & tl & -> & H').
  { destruct (exec false Bol _ _ _) as [res|] eqn:Hb.
    - injection H as ->. exists [], l. rewrite moved_nil. split; [done|].
      cbn [exec] in Hb. cbn [prev pos] in *. by repeat case_match.
    - apply exec_chr_inv in H as (tl & Heq & H). cbn [rest pos] in *.
      subst l. exists [Char.nl], tl. split; [done|].
      by rewrite moved_cons, moved_nil. }
  clear H. rewrite exec_seq, exec_star_lazy in H'.
  apply star_lazy_inv in H' as (wl & tl1 & Heq & _ & H).
  unfold moved in Heq at 1. cbn [rest] in Heq. subst tl.
  unfold moved in H at 1. cbv beta in H.
  apply tail_rx_inv_pos in H as (ws & w4 & w6 & R & -> & H).
  apply accept_inv in H as [= -> ->]. cbn [pos].
  exists (wa ++ wl), ws, w4, w6, R. split_and!; [|done|].
  - by rewrite <- !app_assoc.
  - unfold moved. cbn [pos]. rewrite length_app. lia.
Qed.

Local Open Scope Z_scope.

Lemma stands_at_occurs (sub s : str) (n : Z) : stands_at sub s n → occurs sub s.
Proof. intros (pre & post & -> & _). by exists pre, post. Qed.

Lemma stands_at_lookup (sub s : str) (n : Z) (j : nat) (c : ascii) :
  stands_at sub s n → sub !! j = Some c →
  s !! Z.to_nat (n + Z.of_nat j) = Some c.
Proof.
  intros (pre & post & -> & ->) Hj. unfold len.
  replace (Z.to_nat _) with (length pre + j)%nat by lia.
  rewrite lookup_app_r by lia.
  replace (_ - _)%nat with j by lia. by apply lookup_app_l_Some.
Qed.

(** Where [find] answers an index, [sub] stands at that index, at or
    after [start]. *)
Lemma find_stands (s sub : str) (start : Z) :
  0 ≤ start →
  find s sub start = -1
  ∨ (start ≤ find s sub start ∧ stands_at sub s (find s sub start)).
Proof.
  intros Hs. unfold find. destruct (Z.ltb_spec start 0); [lia|].
  destruct (Z.ltb_spec (len s) start); [by left|].
  destruct (Z.eq_dec (find_from sub (Z.to_nat start)
                        (drop (Z.to_nat start) s)) (-1)) as [|Hne];
    [by left|right].
  destruct (find_from_some _ _ _ _ eq_refl Hne) as (pre & post & Hd & Hr).
  rewrite Hr. split; [lia|].
  exists (take (Z.to_nat start) s ++ pre), post. split.
  - by rewrite <- app_assoc, <- Hd, take_drop.
  - unfold len in *. rewrite length_app, length_take. lia.
Qed.

Lemma signature_start_le text name_idx brace_idx :
  0 ≤ name_idx →
  ∃ s, signature_start text name_idx brace_idx = Ok (Found s brace_idx)
       ∧ 0 ≤ s ≤ name_idx.
Proof.
  intros Hn. unfold signature_start.
  pose proof (rfind_range text Char.nl name_idx ltac:(lia)) as Hr.
  destruct (back_scan_ok
              (Z.to_nat (rfind text [Char.nl] 0 name_idx + 1 - 1)) text
              (rfind text [Char.nl] 0 name_idx + 1)
              (rfind text [Char.nl] 0 name_idx + 1 - 1))
    as (r & -> & Hrange); [lia..|].
  exists r. split; [done|lia].
Qed.

Lemma brace_after_name (text func : str) (n b : Z) :
  stands_at func text n → n ≤ b →
  text !! Z.to_nat b = Some "{"%char →
  "{"%char ∉ func → n + len func ≤ b.
Proof.
  intros Hst Hnb Hb Hno. destruct (Z.lt_ge_cases b (n + len func)); [|done].
  destruct Hno. unfold len in *.
  destruct (lookup_lt_is_Some_2 func (Z.to_nat (b - n))) as [c Hc]; [lia|].
  pose proof (stands_at_lookup _ _ _ _ _ Hst Hc) as Hl.
  replace (n + Z.of_nat (Z.to_nat (b - n))) with b in Hl by lia.
  rewrite Hb in Hl. injection Hl as <-. by eapply list_elem_of_lookup_2.
Qed.

Lemma found_by_find (text func : str) (name_idx : Z) :
  0 ≤ name_idx →
  stands_at (func ++ lit_str "(") text name_idx →
  find text (lit_str "{") name_idx ≠ -1 →
  ∃ loc, signature_start text name_idx (find text (lit_str "{") name_idx)
         = Ok loc
         ∧ located_at text func loc.
Proof.
  intros Hn Hst Hb.
  destruct (find_stands text (lit_str "{") name_idx Hn) as [?|[Hle Hbr]];
    [done|].
  destruct (signature_start_le text name_idx
              (find text (lit_str "{") name_idx) Hn) as (s & -> & Hs).
  eexists. split; [done|]. cbn [located_at]. exists name_idx.
  assert (stands_at func text name_idx) as Hf.
  { destruct Hst as (pre & post & -> & ->).
    exists pre, (lit_str "(" ++ post). by rewrite <- app_assoc. }
  assert (text !! Z.to_nat (find text (lit_str "{") name_idx)
          = Some "{"%char) as Hl.
  { pose proof (stands_at_lookup _ _ _ 0 "{"%char Hbr eq_refl) as Hl.
    by rewrite Z.add_0_r in Hl. }
  split_and!; [lia|lia|lia|done|done|].
  by apply (brace_after_name text).
Qed.

Lemma fallback_at text func :
  ∃ loc, fallback text func = Ok loc ∧ located_at text func loc.
Proof.
  unfold fallback.
  destruct (find_stands text (func ++ lit_str "(") 0 ltac:(lia))
    as [Hnone|[Hle Hst]].
  { rewrite Hnone. cbn. exists (Fail NotFound). split; [done|].
    by apply find_none. }
  destruct (Z.eqb_spec (find text (func ++ lit_str "(") 0) (-1)); [lia|].
  set (name_idx := find text (func ++ lit_str "(") 0) in *.
  pose proof (stands_at_occurs _ _ _ Hst) as Hocc.
  destruct (Z.eqb_spec (find text (lit_str "{") name_idx) (-1)) as [|Hb];
    [by exists (Fail NoOpeningBrace)|].
  destruct (negb _ && _).
  - destruct (find_stands text (func ++ lit_str "(") (name_idx + 1)
                ltac:(lia)) as [Hnone|[Hle2 Hst2]].
    { rewrite Hnone. cbn. by exists (Fail PrototypeOnly). }
    destruct (Z.eqb_spec (find text (func ++ lit_str "(") (name_idx + 1))
                (-1)); [lia|].
    set (name_idx2 := find text (func ++ lit_str "(") (name_idx + 1)) in *.
    destruct (Z.eqb_spec (find text (lit_str "{") name_idx2) (-1)) as [|Hb2];
      [by exists (Fail NoOpeningBrace)|].
    apply found_by_find; [lia|done|done].
  - apply found_by_find; [lia|done|done].
Qed.

(** [locate] returns, and what it has found. *)
Lemma locate_at text func :
  ∃ loc, locate text func = Ok loc ∧ located_at text func loc.
Proof.
  rewrite locate_by_search.
  destruct (search false (definition_rx func) text) as [m|] eqn:Hm;
    [|apply fallback_at].
  eexists. split; [done|]. cbn [located_at].
  apply search_from_inv in Hm as (pre & l & -> & Hm).
  apply definition_rx_inv in Hm
    as (w0 & ws & w4 & w6 & R & -> & -> & ->).
  exists (Z.of_nat (length pre + length w0)).
  assert (((pre ++ w0 ++ func ++ ws ++ "("%char :: w4 ++ ")"%char :: w6
            ++ "{"%char :: R) : str)
          !! Z.to_nat (Z.of_nat (0 + length pre + length w0 + length func
                                 + length ws + length w4 + length w6 + 3)
                       - 1) = Some "{"%char) as Hl.
  { replace (pre ++ w0 ++ func ++ ws ++ "("%char :: w4 ++ ")"%char :: w6
             ++ "{"%char :: R)
      with ((pre ++ w0 ++ func ++ ws ++ "("%char :: w4 ++ ")"%char :: w6)
            ++ "{"%char :: R)
      by (by rewrite <- !app_assoc, <- !app_comm_cons, <- !app_assoc).
    rewrite lookup_app_r
      by (rewrite !length_app; cbn [length]; rewrite !length_app;
          cbn [length]; lia).
    replace (_ - _)%nat with 0%nat; [done|].
    rewrite !length_app. cbn [length]. rewrite !length_app. cbn [length].
    lia. }
  split_and!; [lia|lia|lia| |done|intros _; unfold len; lia].
  exists (pre ++ w0), (ws ++ "("%char :: w4 ++ ")"%char :: w6
                        ++ "{"%char :: R).
  split; [by rewrite <- !app_assoc|]. unfold len. rewrite length_app. lia.
Qed.

(** ** The brace scan keeps the depth positive *)

Lemma scan_step_depth ch nx s s' :
  1 ≤ depth s → scan_step ch nx s = Next s' → 1 ≤ depth s'.
Proof.
  unfold scan_step. intros Hd.
  destruct (Z.eqb_spec (depth s - 1) 0);
    repeat case_match; intros [= <-]; cbn [depth]; lia.
Qed.

Lemma scan_loop_depth fuel text s s' :
  1 ≤ depth s → scan_loop fuel text s = Ok (None, s') → 1 ≤ depth s'.
Proof.
  revert s. induction fuel as [|fuel IH]; intros s Hd; cbn [scan_loop];
    destruct (i s <? len text); try done; try (by intros [= <-]).
  destruct (index text (i s)) as [ch| |]; [|done..]. cbn [bind].
  destruct (if i s + 1 <? len text
            then bind (index text (i s + 1)) (λ c, Ok (Some c))
            else Ok None) as [nx| |]; [|done..]. cbn [bind].
  destruct (scan_step ch nx s) as [s1|at_i] eqn:Hstep; [|done].
  apply IH. by apply (scan_step_depth ch nx s).
Qed.

Lemma scan_first fuel text (b : Z) :
  0 ≤ b → text !! Z.to_nat b = Some "{"%char →
  scan_loop (S fuel) text (Scan b 0 false false false false false)
  = scan_loop fuel text (Scan (b + 1) 1 false false false false false).
Proof.
  intros Hb Hl. by rewrite (scan_loop_step fuel text _ "{"%char).
Qed.

(** ** The outcomes of the whole function *)

Lemma removal_cases (src_text func : str) :
  ∃ loc, locate (replace_crlf src_text) func = Ok loc
    ∧ located_at (replace_crlf src_text) func loc
    ∧ match loc with
      | Fail why =>
          _remove_function_from_c_source src_text func
          = Ok (Removal src_text false why)
      | Found sig_start brace_idx =>
          (∃ d, 1 ≤ d
                ∧ _remove_function_from_c_source src_text func
                  = Ok (Removal src_text false (Unbalanced d)))
          ∨ (∃ at_i cut_start cut_end,
               brace_idx < at_i < len (replace_crlf src_text)
               ∧ 0 ≤ cut_start ≤ sig_start
               ∧ at_i < cut_end ≤ len (replace_crlf src_text)
               ∧ (replace_crlf src_text) !! Z.to_nat (cut_end - 1)
                 ∈ [Some "}"%char; Some Char.nl]
               ∧ _remove_function_from_c_source src_text func
                 = Ok (Removal
                         (take (Z.to_nat cut_start) (replace_crlf src_text)
                          ++ drop (Z.to_nat cut_end) (replace_crlf src_text))
                         true (Removed (cut_end - cut_start))))
      end.
Proof.
  unfold _remove_function_from_c_source.
  set (text := replace_crlf src_text).
  destruct (locate_at text func) as ([why|sig_start brace_idx] & -> & Hloc);
    cbn [bind].
  { by eexists. }
  eexists. split; [done|]. split; [done|].
  destruct Hloc as (n & Hs & Hn & Hst & Hb & _).
  pose proof (lookup_lt_Some _ _ _ Hb) as Hlen.
  destruct (length text) as [|fuel] eqn:Hfuel; [lia|].
  rewrite scan_first by (done || lia).
  destruct (scan_loop_ok fuel text
              (Scan (brace_idx + 1) 1 false false false false false))
    as ([at_i|] & s' & Hrun & Hat); [cbn [i]; unfold len; lia..| |].
  - right. rewrite Hrun. cbn [bind].
    destruct (Hat at_i eq_refl) as [Hrange Hbrace]. cbn [i] in Hrange.
    destruct (cut_span_ok text sig_start at_i) as (cs & ce & -> & Hcs & Hce);
      [lia..|].
    cbn [bind]. exists at_i, cs, ce.
    assert (text !! Z.to_nat (ce - 1) ∈ [Some "}"%char; Some Char.nl]) as Hlast.
    { destruct Hce as [->|(-> & _ & Hnl)].
      - replace (at_i + 1 - 1) with at_i by lia. rewrite Hbrace. by left.
      - replace (at_i + 2 - 1) with (at_i + 1) by lia. rewrite Hnl.
        right. by left. }
    split_and!; [lia|lia|lia|lia|lia|unfold len in *; lia|done|].
    unfold slice_to, slice_from.
    rewrite !clip_nonneg; [done|unfold len in *; lia..].
  - left. rewrite Hrun. cbn [bind]. exists (depth s'). split; [|done].
    apply (scan_loop_depth fuel text
             (Scan (brace_idx + 1) 1 false false false false false) s');
      [cbn [depth]; lia|done].
Qed.

(** X13. The function returns, and its failure reasons mean what they
    say: [NotFound] is given only when the name followed by an opening
    parenthesis occurs nowhere, and always when the name occurs nowhere;
    the two other locating failures are given only when it occurs; an
    [Unbalanced] report names a depth of at least 1, for a name that
    occurs. Text is the input with CRLF read as LF. *)
Theorem failure_reasons (src_text func : str) :
  ∃ r, _remove_function_from_c_source src_text func = Ok r
    ∧ (info_msg r = NotFound →
       ¬ occurs (func ++ lit_str "(") (replace_crlf src_text))
    ∧ (info_msg r = NoOpeningBrace ∨ info_msg r = PrototypeOnly →
       occurs (func ++ lit_str "(") (replace_crlf src_text))
    ∧ (∀ d, info_msg r = Unbalanced d →
            1 ≤ d ∧ occurs func (replace_crlf src_text))
    ∧ (¬ occurs func (replace_crlf src_text) →
       r = Removal src_text false NotFound).
Proof.
  destruct (removal_cases src_text func) as (loc & _ & Hloc & Hrun).
  destruct loc as [why|sig_start brace_idx].
  - exists (Removal src_text false why). split; [done|].
    cbn [info_msg]. cbn [located_at] in Hloc.
    destruct why; split_and!; try done; try (by intros [|]);
      intros Habs; destruct Habs; destruct Hloc as (pre & post & ->);
      exists pre, (lit_str "(" ++ post); by rewrite <- app_assoc.
  - destruct Hloc as (n & _ & _ & Hst%stands_at_occurs & _).
    destruct Hrun as [(d & Hd & Hrun)|(at_i & cs & ce & _ & _ & _ & _ & Hrun)];
      eexists; (split; [exact Hrun|]); cbn [info_msg];
      split_and!; try done; try (by intros [|]).
    by intros d' [= <-].
Qed.

(** X14. When the name holds no opening brace, a successful removal
    cuts one contiguous piece out of the text (the input with CRLF read
    as LF): the piece holds the name, ends with a closing brace or with
    the line feed after it, and its length is the count reported. *)
Theorem removed_piece_holds_name (src_text func : str) (r : removal) :
  "{"%char ∉ func →
  _remove_function_from_c_source src_text func = Ok r →
  removed r = true →
  ∃ before piece after,
    replace_crlf src_text = before ++ piece ++ after
    ∧ new_text r = before ++ after
    ∧ info_msg r = Removed (len piece)
    ∧ occurs func piece
    ∧ (last piece = Some "}"%char ∨ last piece = Some Char.nl).
Proof.
  intros Hno Hr Hrem.
  destruct (removal_cases src_text func) as (loc & _ & Hloc & Hrun).
  set (text := replace_crlf src_text) in *.
  destruct loc as [why|sig_start brace_idx];
    [rewrite Hrun in Hr; by injection Hr as <-|].
  destruct Hrun as [(d & _ & Hrun)|(at_i & cs & ce & Hat & Hcs & Hce & Hl & Hrun)];
    [rewrite Hrun in Hr; by injection Hr as <-|].
  rewrite Hrun in Hr. injection Hr as <-. clear Hrun Hrem.
  destruct Hloc as (n & Hs & Hn & (pre & post & Htext & ->) & Hb & Hlen).
  specialize (Hlen Hno). unfold len in *.
  exists (take (Z.to_nat cs) text),
    (take (Z.to_nat (ce - cs)) (drop (Z.to_nat cs) text)),
    (drop (Z.to_nat ce) text).
  assert (length (take (Z.to_nat (ce - cs)) (drop (Z.to_nat cs) text))
          = Z.to_nat (ce - cs)) as Hpl.
  { rewrite length_take, length_drop. lia. }
  split_and!.
  - rewrite <- (take_drop (Z.to_nat cs) text) at 1. f_equal.
    rewrite <- (take_drop (Z.to_nat (ce - cs)) (drop (Z.to_nat cs) text)) at 1.
    f_equal. rewrite drop_drop. f_equal. lia.
  - done.
  - cbn [info_msg]. f_equal. rewrite Hpl. lia.
  - exists (drop (Z.to_nat cs) pre),
      (take (Z.to_nat ce - length pre - length func) post).
    rewrite Htext, drop_app_le by lia.
    rewrite take_app_ge by (rewrite length_drop; lia).
    f_equal. rewrite length_drop.
    rewrite take_app_ge by lia. f_equal. f_equal. lia.
  - rewrite last_lookup, Hpl, lookup_take_lt by lia.
    rewrite lookup_drop.
    replace (Z.to_nat cs + pred (Z.to_nat (ce - cs)))%nat
      with (Z.to_nat (ce - 1)) by lia.
    apply elem_of_cons in Hl as [->|[->|?%elem_of_nil]%elem_of_cons]; auto.
    done.
Qed.

(** ** Instances *)

Lemma removed_piece_holds_name_witness :
  ("{"%char ∉ Samples.f)
  ∧ ∃ before piece after,
      replace_crlf Samples.crlf_source = before ++ piece ++ after
      ∧ lit_str "int a;" ++ [Char.nl] ++ lit_str "int b;"
        ++ lit_str "int c;" ++ [Char.nl] = before ++ after
      ∧ Removed 18 = Removed (len piece)
      ∧ occurs Samples.f piece
      ∧ (last piece = Some "}"%char ∨ last piece = Some Char.nl).
Proof.
  assert ("{"%char ∉ Samples.f) as H.
  { by intros [=]%list_elem_of_singleton. }
  split; [exact H|].
  apply (removed_piece_holds_name Samples.crlf_source Samples.f
           (Removal (lit_str "int a;" ++ [Char.nl] ++ lit_str "int b;"
                     ++ lit_str "int c;" ++ [Char.nl])
              true (Removed 18)) H);
    [vm_compute; reflexivity|reflexivity].
Defined.

End LocateFacts.

(* ===================================================================== *)
(** * The grammar of a header line *)
(* ===================================================================== *)
Module NodeFacts.
Import Re Py Slicer Notions MoreNotions ReFacts PrototypeFacts
  MatchFacts.
Local Close Scope Z_scope.

Lemma star_greedy_inv_lo p lo k cs i pv l cnt res :
  star_greedy p lo k cs i pv l cnt = Some res →
  ∃ w tl, l = w ++ tl ∧ Forall (λ c, p c = true) w
          ∧ lo ≤ cnt + length w
          ∧ k (moved i pv w tl) cs = Some res.
Proof.
  revert i pv cnt. induction l as [|c l IH]; intros i pv cnt;
    cbn [star_greedy].
  - destruct (Nat.leb_spec lo cnt); [|done]. intros Hk.
    exists [], []. rewrite moved_nil. split_and!; [done..|cbn; lia|done].
  - destruct (p c) eqn:Hc.
    + destruct (star_greedy p lo k cs (S i) (Some c) l (S cnt)) eqn:Hrec.
      * intros [= <-].
        destruct (IH _ _ _ Hrec) as (w & tl & -> & Hw & Hlo & Hk).
        exists (c :: w), tl. rewrite moved_cons.
        split_and!; [done|by constructor|cbn; lia|done].
      * destruct (Nat.leb_spec lo cnt); [|done]. intros Hk.
        exists [], (c :: l). rewrite moved_nil.
        split_and!; [done..|cbn; lia|done].
    + destruct (Nat.leb_spec lo cnt); [|done]. intros Hk.
      exists [], (c :: l). rewrite moved_nil.
      split_and!; [done..|cbn; lia|done].
Qed.

Lemma star_greedy_run_lo p lo k cs i pv w tl cnt res :
  Forall (λ c, p c = true) w →
  match tl with c :: _ => p c = false | [] => True end →
  lo ≤ cnt + length w →
  k (moved i pv w tl) cs = Some res →
  star_greedy p lo k cs i pv (w ++ tl) cnt = Some res.
Proof.
  intros Hw Htl. revert i pv cnt.
  induction Hw as [|c w Hc Hw IH]; intros i pv cnt Hlo Hk.
  - rewrite moved_nil in Hk. cbn [length] in Hlo.
    assert ((lo <=? cnt) = true) as Hle by (apply Nat.leb_le; lia).
    destruct tl as [|c tl]; cbn [app star_greedy]; rewrite ?Htl, Hle; done.
  - rewrite moved_cons in Hk. cbn [app star_greedy]. rewrite Hc.
    rewrite (IH _ _ (S cnt)); [done| |done]. cbn [length] in Hlo. lia.
Qed.

Lemma exec_bol ic cu cs k :
  exec ic Bol cu cs k
  = match prev cu with
    | None => k cu cs
    | Some c => if Char.eqc Char.nl c then k cu cs else None
    end.
Proof. reflexivity. Qed.

Lemma exec_bol_inv ic cu cs k res :
  exec ic Bol cu cs k = Some res →
  at_line_start (prev cu) ∧ k cu cs = Some res.
Proof.
  rewrite exec_bol. unfold at_line_start.
  destruct (prev cu) as [c|]; [|done].
  unfold Char.eqc. by destruct (Ascii.eqb_spec Char.nl c) as [<-|].
Qed.

Lemma exec_bol_here ic i pv l cs k :
  at_line_start pv →
  exec ic Bol (Cursor i pv l) cs k = k (Cursor i pv l) cs.
Proof.
  rewrite exec_bol. cbn [prev]. destruct pv as [c|]; [|done].
  unfold at_line_start. intros ->. unfold Char.eqc.
  by rewrite Ascii.eqb_refl.
Qed.

Lemma Forall_none_of (c : ascii) (w : str) :
  Forall (λ x, none_of c x = true) w ↔ c ∉ w.
Proof.
  rewrite Forall_forall. unfold none_of, Char.neqc, Char.eqc. split.
  - intros H Hin. specialize (H c Hin). by rewrite Ascii.eqb_refl in H.
  - intros H x Hx. destruct (Ascii.eqb_spec c x) as [->|]; done.
Qed.

(** ** What [NODE_RX] matches *)

Lemma node_match_inv must i pv l m :
  match_at false (p_rx NODE_RX) must (Cursor i pv l) = Some m →
  ∃ ws name tl,
    l = node_header ++ ws ++ "'"%char :: name ++ "'"%char :: tl
    ∧ at_line_start pv
    ∧ Forall (λ c, Char.isspace c = true) ws
    ∧ name ≠ [] ∧ ("'"%char ∉ name)
    ∧ m = RMatch i (i + length node_header + length ws + length name + 2)
            [(1, (i + length node_header + length ws + 1,
                  i + length node_header + length ws + 1 + length name))].
Proof.
  intros (cu' & cs & H & ->)%match_at_inv. cbn [pos] in *.
  unfold NODE_RX, p_rx, seqs, spaces in H. cbn [foldr] in H.
  rewrite exec_seq in H. apply exec_bol_inv in H as [Hpv H].
  cbn [prev] in Hpv. fold node_header in H.
  apply exec_lit_inv in H as (tl0 & -> & H).
  rewrite exec_seq, exec_star_greedy in H.
  apply star_greedy_inv in H as (ws & tl1 & Heq & Hws & H).
  unfold moved in Heq at 1. cbn [rest] in Heq. subst tl0. cbv beta in H.
  rewrite exec_seq in H. apply exec_chr_inv in H as (tl2 & Heq & H).
  unfold moved in Heq. cbn [rest] in Heq. subst tl1. cbv beta in H.
  rewrite exec_seq, exec_grp, exec_star_greedy in H.
  apply star_greedy_inv_lo in H as (name & tl3 & Heq & Hname & Hlo & H).
  cbn [rest] in Heq. subst tl2. cbv beta in H.
  rewrite exec_seq in H. apply exec_chr_inv in H as (tl & Heq & H).
  unfold moved in Heq. cbn [rest] in Heq. subst tl3.
  rewrite exec_eps in H. apply accept_inv in H as [= -> ->].
  exists ws, name, tl. split_and!; [done|done|done| | |].
  - intros ->. cbn in Hlo. lia.
  - by apply Forall_none_of.
  - unfold moved. cbn [pos prev]. change (length node_header) with 29.
    f_equal; [lia|]. do 3 f_equal; lia.
Qed.

Lemma node_match_run i pv ws name tl :
  at_line_start pv →
  Forall (λ c, Char.isspace c = true) ws →
  name ≠ [] → "'"%char ∉ name →
  match_at false (p_rx NODE_RX) false
    (Cursor i pv (node_header ++ ws ++ "'"%char :: name ++ "'"%char :: tl))
  = Some (RMatch i (i + length node_header + length ws + length name + 2)
            [(1, (i + length node_header + length ws + 1,
                  i + length node_header + length ws + 1 + length name))]).
Proof.
  intros Hpv Hws Hne Hq. unfold match_at.
  unfold NODE_RX, p_rx, seqs, spaces. cbn [foldr]. fold node_header.
  rewrite exec_seq, exec_bol_here by done.
  rewrite exec_lit_app, exec_seq, exec_star_greedy.
  unfold moved. cbn [pos prev rest].
  erewrite star_greedy_run; [| done | done | ].
  2: { rewrite exec_seq. unfold moved. rewrite exec_chr_here.
       rewrite exec_seq, exec_grp, exec_star_greedy. cbn [pos prev rest].
       erewrite star_greedy_run_lo;
         [|by apply Forall_none_of|by cbn|destruct name; [done|cbn; lia]|].
       2: { unfold moved. rewrite exec_seq, exec_chr_here, exec_eps.
            unfold accept. cbn [andb]. reflexivity. }
       reflexivity. }
  cbn [pos]. unfold moved. cbn [pos]. change (length node_header) with 29.
  f_equal. f_equal; [lia|]. do 3 f_equal; lia.
Qed.

Lemma group_of_span (pre w tl : str) (m : rmatch) (a b : nat) :
  m_caps m = [(1, (a, b))] → a = length pre → b = a + length w →
  Re.group (pre ++ w ++ tl) m 1 = Some w.
Proof.
  intros Hc -> ->. unfold Re.group. rewrite Hc. cbn.
  destruct (decide (1 = 1)); [|done]. cbn. f_equal. unfold Re.slice.
  rewrite drop_app_length.
  replace (_ - _) with (length w) by lia. by rewrite take_app_length.
Qed.

Lemma node_group (pre ws name tl : str) (e : nat) :
  Re.group (pre ++ node_header ++ ws ++ "'"%char :: name ++ "'"%char :: tl)
    (RMatch (length pre) e
       [(1, (length pre + length node_header + length ws + 1,
             length pre + length node_header + length ws + 1
             + length name))]) 1
  = Some name.
Proof.
  replace (pre ++ node_header ++ ws ++ "'"%char :: name ++ "'"%char :: tl)
    with ((pre ++ node_header ++ ws ++ ["'"%char]) ++ name ++ "'"%char :: tl)
    by (by rewrite <- !app_assoc).
  apply (group_of_span _ _ _ _
           (length pre + length node_header + length ws + 1)
           (length pre + length node_header + length ws + 1 + length name));
    [done| |done].
  rewrite !length_app. cbn [length]. lia.
Qed.

(** X15. A line is a header line for [name] exactly when it starts with
    the text [Call graph node for function:], then white space
    (possibly none), then [name] between single quotes, [name] being
    non-empty and free of single quotes. *)
Theorem header_line_grammar (line name : str) :
  header_of line = Some name ↔ header_shape name line.
Proof.
  unfold header_of, p_match, rmatch_prefix, header_shape.
  change (p_ic NODE_RX) with false. split.
  - destruct (match_at false (p_rx NODE_RX) false (Cursor 0 None line))
      as [m|] eqn:Hm; [|done].
    apply node_match_inv in Hm
      as (ws & nm & tl & -> & _ & Hws & Hne & Hq & ->).
    rewrite (node_group [] ws nm tl). intros [= <-]. by exists ws, tl.
  - intros (ws & tl & -> & Hws & Hne & Hq).
    rewrite (node_match_run 0 None ws name tl) by done.
    apply (node_group [] ws name tl).
Qed.

End NodeFacts.

(* ===================================================================== *)
(** * The list of functions of a dump *)
(* ===================================================================== *)
Module ListingFacts.
Import Re Py Slicer Notions MoreNotions
  TraversalFacts MatchFacts FindFacts NodeFacts.

(** ** The stable sort *)

Lemma insert_by_key_perm key x l : insert_by_key key x l ≡ₚ x :: l.
Proof.
  induction l as [|y l IH]; cbn [insert_by_key]; [done|].
  destruct (str_leb _ _); [done|]. by rewrite IH, Permutation_swap.
Qed.

Lemma sorted_by_key_perm key l : sorted_by_key key l ≡ₚ l.
Proof.
  induction l as [|x l IH]; cbn [sorted_by_key foldr]; [done|].
  fold (sorted_by_key key l). by rewrite insert_by_key_perm, IH.
Qed.

Lemma insert_by_key_sorted key x l :
  StronglySorted (λ a b, str_le (key a) (key b)) l →
  StronglySorted (λ a b, str_le (key a) (key b)) (insert_by_key key x l).
Proof.
  induction 1 as [|y l Hl IH Hy]; cbn [insert_by_key].
  - repeat constructor.
  - destruct (str_leb (key x) (key y)) eqn:Hxy.
    + constructor; [by constructor|]. constructor; [done|].
      eapply Forall_impl; [exact Hy|]. intros z Hz. cbv beta in *.
      by trans (key y).
    + constructor; [done|].
      rewrite (insert_by_key_perm key x l). constructor; [|done].
      destruct (total str_le (key x) (key y)) as [Hle|Hle]; [|done].
      unfold str_le in Hle. congruence.
Qed.

Lemma sorted_by_key_sorted key l :
  StronglySorted (λ a b, str_le (key a) (key b)) (sorted_by_key key l).
Proof.
  induction l as [|x l IH]; cbn [sorted_by_key foldr]; [constructor|].
  by apply insert_by_key_sorted.
Qed.

Lemma sorted_keys key (l : list str) :
  StronglySorted (λ a b, str_le (key a) (key b)) l →
  StronglySorted str_le (key <$> l).
Proof.
  induction 1 as [|y l Hl IH Hy]; cbn [fmap list_fmap]; constructor;
    [done|]. by apply Forall_fmap.
Qed.

Section WithIteration.
Variable set_iter : gset str → list str.
Hypothesis set_iter_perm : ∀ s, set_iter s ≡ₚ elements s.

Lemma extract_perm (text : str) :
  extract_all_functions set_iter text
  ≡ₚ elements (node_names text ∖ {[null_name]}).
Proof.
  unfold extract_all_functions. by rewrite sorted_by_key_perm, set_iter_perm.
Qed.

(** A name captured by a match of [NODE_RX] stands in the text between
    single quotes, after the fixed text of a header at the start of a
    line. *)
Lemma node_names_shape (text x : str) :
  x ∈ node_names text →
  ∃ pre ws post,
    text = pre ++ node_header ++ ws ++ "'"%char :: x ++ "'"%char :: post
    ∧ at_line_start (last pre)
    ∧ Forall (λ c, Char.isspace c = true) ws
    ∧ x ≠ [] ∧ ("'"%char ∉ x).
Proof.
  unfold node_names. rewrite elem_of_list_to_set, list_elem_of_omap.
  intros (m & Hm & Hg). unfold p_finditer in Hm.
  apply finditer_inv in Hm as (pre & l & must & -> & Hm).
  apply node_match_inv in Hm
    as (ws & nm & tl & -> & Hpv & Hws & Hne & Hq & ->).
  cbn [Nat.add] in Hg. rewrite (node_group pre ws nm tl) in Hg.
  injection Hg as <-. exists pre, ws, tl. split_and!; try done.
  unfold last_or in Hpv. by destruct (last pre).
Qed.

(** X16. [extract_all_functions] lists, without duplicates, the names
    captured by the matches of [NODE_RX] in the text, the name [<null>]
    left out: each stands in the text between single quotes after the
    fixed text of a header at the start of a line. The list is sorted by
    lower-cased name; for another enumeration order of sets it is a
    permutation with the same lower-cased names at the same places. *)
Theorem extract_all_functions_spec (text : str)
    (other : gset str → list str) :
  (∀ s, other s ≡ₚ elements s) →
  NoDup (extract_all_functions set_iter text)
  ∧ (∀ x, x ∈ extract_all_functions set_iter text
          ↔ x ≠ null_name
            ∧ ∃ m, m ∈ p_finditer NODE_RX text
                   ∧ Re.group text m 1 = Some x)
  ∧ (∀ x, x ∈ extract_all_functions set_iter text →
          ∃ pre ws post,
            text = pre ++ node_header ++ ws
                   ++ "'"%char :: x ++ "'"%char :: post
            ∧ at_line_start (last pre)
            ∧ Forall (λ c, Char.isspace c = true) ws
            ∧ x ≠ [] ∧ ("'"%char ∉ x))
  ∧ StronglySorted le_lower (extract_all_functions set_iter text)
  ∧ extract_all_functions other text ≡ₚ extract_all_functions set_iter text
  ∧ str_lower <$> extract_all_functions other text
    = str_lower <$> extract_all_functions set_iter text.
Proof.
  intros Hother. split_and!.
  - rewrite extract_perm. apply NoDup_elements.
  - intros x. rewrite extract_perm, elem_of_elements, elem_of_difference.
    unfold node_names. rewrite elem_of_list_to_set, list_elem_of_omap.
    rewrite not_elem_of_singleton. naive_solver.
  - intros x. rewrite extract_perm, elem_of_elements, elem_of_difference.
    intros [Hx _]. by apply node_names_shape.
  - apply sorted_by_key_sorted.
  - unfold extract_all_functions.
    by rewrite !sorted_by_key_perm, set_iter_perm, Hother.
  - apply (StronglySorted_unique str_le).
    + apply sorted_keys, sorted_by_key_sorted.
    + apply sorted_keys, sorted_by_key_sorted.
    + apply fmap_Permutation. unfold extract_all_functions.
      by rewrite !sorted_by_key_perm, set_iter_perm, Hother.
Qed.

End WithIteration.

(** ** Instances *)

Lemma extract_all_functions_spec_witness :
  (∀ s : gset str, elements s ≡ₚ elements s)
  ∧ (∀ s : gset str, MoreSamples.backwards s ≡ₚ elements s)
  ∧ NoDup (extract_all_functions elements Samples.tree_dump)
  ∧ StronglySorted le_lower (extract_all_functions elements Samples.tree_dump)
  ∧ extract_all_functions MoreSamples.backwards Samples.tree_dump
    ≡ₚ extract_all_functions elements Samples.tree_dump.
Proof.
  split; [reflexivity|]. split; [exact WalkFacts.backwards_perm|].
  destruct (extract_all_functions_spec elements (λ s, reflexivity _)
              Samples.tree_dump MoreSamples.backwards
              WalkFacts.backwards_perm) as (H1 & _ & _ & H4 & H5 & _).
  by split_and!.
Defined.

End ListingFacts.

(* ===================================================================== *)
(** * The snippet of a function *)
(* ===================================================================== *)
Module SnippetFacts.
Import Re Py Slicer Notions MoreNotions ReFacts PyFacts PrototypeFacts
  MatchFacts FindFacts PipelineFacts NodeFacts.

Lemma exec_cls_inv ic p cu cs k res :
  exec ic (Cls p) cu cs k = Some res →
  ∃ x tl, rest cu = x :: tl ∧ p x = true
          ∧ k (Cursor (S (pos cu)) (Some x) tl) cs = Some res.
Proof.
  cbn [exec]. destruct (rest cu) as [|x tl]; [done|].
  destruct (p x) eqn:Hp; [|done]. intros Hk. by exists x, tl.
Qed.

(** A match of [FUNC_DEF_RX] holds the name. *)
Lemma func_def_match_inv name must i pv l m :
  match_at false (p_rx (FUNC_DEF_RX name)) must (Cursor i pv l) = Some m →
  occurs name l.
Proof.
  intros (cu' & cs & H & _)%match_at_inv.
  unfold FUNC_DEF_RX, p_rx in H.
  change (seqs (?a :: ?r)) with (Seq a (seqs r)) in H.
  rewrite exec_seq, exec_grp in H.
  change (seqs (?a :: ?r)) with (Seq a (seqs r)) in H.
  rewrite exec_seq in H. apply exec_bol_inv in H as [_ H].
  change (seqs (?a :: ?r)) with (Seq a (seqs r)) in H.
  rewrite exec_seq in H. apply exec_cls_inv in H as (x & tl0 & Heq & _ & H).
  cbn [rest pos] in *. subst l.
  change (seqs (?a :: ?r)) with (Seq a (seqs r)) in H.
  rewrite exec_seq, exec_star_lazy in H. cbn [pos prev rest] in H.
  apply star_lazy_inv in H as (w & tl1 & -> & _ & H).
  change (seqs (?a :: ?r)) with (Seq a (seqs r)) in H.
  rewrite exec_seq in H. apply exec_wordb_inv in H as [_ H].
  change (seqs (?a :: ?r)) with (Seq a (seqs r)) in H.
  unfold moved in H at 1. apply exec_lit_inv in H as (tl & -> & _).
  by exists (x :: w), tl.
Qed.

Lemma py_slice_occurs (s : str) (a b : Z) : occurs (Py.slice s a b) s.
Proof.
  unfold Py.slice.
  exists (take (clip s a) s),
    (drop (clip s b - clip s a) (drop (clip s a) s)).
  by rewrite take_drop, take_drop.
Qed.

Lemma py_slice_len (s : str) (a n : Z) :
  0 ≤ a → 0 ≤ n → len (Py.slice s a (a + n)) ≤ n.
Proof.
  intros Ha Hn. unfold Py.slice, clip, len. rewrite length_take.
  rewrite (proj2 (Z.ltb_ge a 0)), (proj2 (Z.ltb_ge (a + n) 0)) by lia. lia.
Qed.

Lemma slice_to_occurs (s : str) (b : Z) : occurs (slice_to s b) s.
Proof.
  unfold slice_to. exists [], (drop (clip s b) s). cbn [app].
  by rewrite take_drop.
Qed.

Lemma slice_to_len (s : str) (b : Z) :
  0 ≤ b → b < len s → len (slice_to s b) = b.
Proof.
  intros Hb Hlt. unfold slice_to, clip, len in *. rewrite length_take.
  rewrite (proj2 (Z.ltb_ge b 0)) by lia. lia.
Qed.

(** X17. With [max_chars >= 0], the text that [find_function_snippet]
    returns is a contiguous piece of the C text of at most [max_chars]
    characters; it is followed by the snip marker only when it has
    exactly [max_chars] characters; and for a name that does not occur
    in the C text the result is the empty string. *)
Theorem find_function_snippet_spec (c_text name : str) (max_chars : Z) :
  0 ≤ max_chars →
  occurs (evidence_text (find_function_snippet c_text name max_chars)) c_text
  ∧ len (evidence_text (find_function_snippet c_text name max_chars))
    ≤ max_chars
  ∧ (∀ s, find_function_snippet c_text name max_chars = Snipped s →
          len s = max_chars)
  ∧ (¬ occurs name c_text →
     find_function_snippet c_text name max_chars = Whole []).
Proof.
  intros Hmax. unfold find_function_snippet, p_search.
  change (p_ic (FUNC_DEF_RX name)) with false.
  destruct (search false (p_rx (FUNC_DEF_RX name)) c_text) as [m|] eqn:Hm.
  - assert (occurs name c_text) as Hocc.
    { apply search_from_inv in Hm as (pre & l & -> & Hm).
      apply occurs_app_r. by apply (func_def_match_inv _ _ _ _ _ _ Hm). }
    destruct (Z.ltb_spec max_chars
                (len (Re.slice c_text (m_start m) (m_end m)))) as [Hlt|Hge];
      cbn [evidence_text].
    + split_and!.
      * eapply occurs_trans; [apply slice_to_occurs|apply slice_occurs].
      * by rewrite slice_to_len.
      * intros s [= <-]. by apply slice_to_len.
      * done.
    + split_and!; [apply slice_occurs|done|done|done].
  - destruct (Z.eqb_spec (find c_text (name ++ lit_str "(") 0) (-1))
      as [Hnone|Hsome]; cbn [evidence_text].
    + split_and!; [by exists [], c_text|unfold len; cbn; lia|done|done].
    + split_and!; [apply py_slice_occurs|apply py_slice_len; lia|done|].
      intros Habs. destruct Hsome. apply find_none.
      intros (pre & post & ->). apply Habs.
      exists pre, (lit_str "(" ++ post). by rewrite <- app_assoc.
Qed.

(** ** Instances *)

Lemma find_function_snippet_spec_witness :
  0 ≤ 5
  ∧ occurs (evidence_text
              (find_function_snippet Samples.crlf_source Samples.f 5))
      Samples.crlf_source
  ∧ len (evidence_text
           (find_function_snippet Samples.crlf_source Samples.f 5)) ≤ 5
  ∧ (∀ s, find_function_snippet Samples.crlf_source Samples.f 5
          = Snipped s → len s = 5)
  ∧ (¬ occurs Samples.f Samples.crlf_source →
     find_function_snippet Samples.crlf_source Samples.f 5 = Whole []).
Proof.
  assert (0 ≤ 5) as H by lia.
  split; [exact H|].
  exact (find_function_snippet_spec Samples.crlf_source Samples.f 5 H).
Defined.

End SnippetFacts.

(* ===================================================================== *)
(** * The metadata of a node *)
(* ===================================================================== *)
Module MetadataFacts.
Import Re Py Slicer Notions MoreNotions ReFacts PyFacts
  PrototypeFacts MatchFacts FindFacts PipelineFacts NodeFacts.
Local Close Scope Z_scope.

Lemma exec_chr_nocase_inv c cu cs k res :
  exec true (Chr c) cu cs k = Some res →
  ∃ x tl, rest cu = x :: tl ∧ Char.lower x = Char.lower c
          ∧ k (Cursor (S (pos cu)) (Some x) tl) cs = Some res.
Proof.
  cbn [exec]. destruct (rest cu) as [|x tl]; [done|].
  unfold chr_eq, Char.eqc.
  destruct (Ascii.eqb_spec (Char.lower c) (Char.lower x)) as [Heq|]; [|done].
  intros Hk. by exists x, tl.
Qed.

(** A literal that matches with IGNORECASE has read a word that differs
    from it in letter case only. *)
Lemma exec_lit_nocase_inv s r i pv l cs k res :
  exec true (Seq (lit s) r) (Cursor i pv l) cs k = Some res →
  ∃ w tl, l = w ++ tl ∧ str_lower w = str_lower s
          ∧ length w = length s
          ∧ exec true r (moved i pv w tl) cs k = Some res.
Proof.
  revert i pv l. induction s as [|c s IH]; intros i pv l.
  - cbn. intros H. exists [], l. by rewrite moved_nil.
  - change (lit (c :: s)) with (Seq (Chr c) (lit s)).
    rewrite !exec_seq. intros H.
    apply exec_chr_nocase_inv in H as (x & tl & Hl & Hx & H).
    cbn [rest pos] in *. subst l. rewrite <- exec_seq in H.
    apply IH in H as (w & tl' & -> & Hw & Hlen & H).
    exists (x :: w), tl'. rewrite moved_cons. split_and!; [done| |by cbn; f_equal|done].
    unfold str_lower in *. cbn. by rewrite Hx, Hw.
Qed.

Lemma occurs_lower (sub s : str) :
  occurs sub s → occurs_nocase sub s.
Proof.
  intros (pre & post & ->). exists (str_lower pre), (str_lower post).
  unfold str_lower. by rewrite !fmap_app.
Qed.

Lemma occurs_nocase_in (sub w pre post : str) :
  str_lower w = str_lower sub → occurs_nocase sub (pre ++ w ++ post).
Proof.
  intros Hw. exists (str_lower pre), (str_lower post). rewrite <- Hw.
  unfold str_lower. by rewrite !fmap_app.
Qed.

Lemma occurs_nocase_trans (a b c : str) :
  occurs_nocase a b → occurs b c → occurs_nocase a c.
Proof.
  intros Hab Hbc%occurs_lower. unfold occurs_nocase in *.
  by eapply occurs_trans.
Qed.

Lemma int_of_digits_acc (ds : str) (acc : Z) :
  Forall (λ c, Char.isdigit c = true) ds → (0 ≤ acc)%Z →
  (0 ≤ fold_left (λ acc c, 10 * acc + (Z.of_N (Char.code c) - 48)) ds acc)%Z.
Proof.
  intros Hds. revert acc. induction Hds as [|c ds Hc _ IH]; intros acc Hacc.
  - done.
  - cbn [fold_left]. apply IH.
    unfold Char.isdigit, Char.between in Hc.
    apply andb_prop in Hc as [H1%N.leb_le H2]. lia.
Qed.

Lemma int_of_digits_nonneg (ds : str) :
  Forall (λ c, Char.isdigit c = true) ds → (0 ≤ int_of_digits ds)%Z.
Proof. intros Hds. by apply int_of_digits_acc. Qed.

(** What a match of [USES_RX] has read and captured. *)
Lemma uses_match_inv (line : str) (m : rmatch) (ds : str) :
  p_search USES_RX line = Some m → Re.group line m 1 = Some ds →
  Forall (λ c, Char.isdigit c = true) ds
  ∧ occurs_nocase (lit_str "#uses=") line.
Proof.
  unfold p_search. change (p_ic USES_RX) with true.
  intros (pre & l & -> & Hm)%search_from_inv.
  apply match_at_inv in Hm as (cu' & cs & H & ->).
  unfold USES_RX, p_rx, seqs in H. cbn [foldr] in H.
  unfold moved in H at 1.
  apply exec_lit_nocase_inv in H as (h & tl0 & -> & Hh & Hlen & H).
  rewrite exec_seq, exec_grp, exec_star_greedy in H.
  apply star_greedy_inv in H as (w & tl & Heq & Hw & H).
  unfold moved in Heq at 1. cbn [rest] in Heq. subst tl0. cbv beta in H.
  rewrite exec_eps in H. apply accept_inv in H as [= -> ->].
  intros Hg. split; [|by apply occurs_nocase_in].
  replace (pre ++ h ++ w ++ tl) with ((pre ++ h) ++ w ++ tl) in Hg
    by (by rewrite <- !app_assoc).
  erewrite (group_of_span (pre ++ h) w tl _ (length (pre ++ h))
              (length (pre ++ h) + length w)) in Hg; [|cbn| |].
  - by injection Hg as <-.
  - unfold moved. cbn [m_caps pos prev rest]. rewrite length_app.
    do 3 f_equal; lia.
  - done.
  - done.
Qed.

(** A match of the node pattern of a target holds the target's name, up
    to letter case. *)
Lemma metadata_match_inv (target text : str) (m : rmatch) :
  p_search (metadata_pattern target) text = Some m →
  occurs_nocase target text.
Proof.
  unfold p_search. change (p_ic (metadata_pattern target)) with true.
  intros (pre & l & -> & Hm)%search_from_inv.
  apply match_at_inv in Hm as (cu' & cs & H & _).
  unfold metadata_pattern, p_rx, seqs, spaces in H. cbn [foldr] in H.
  unfold moved in H at 1.
  apply exec_lit_nocase_inv in H as (h & tl0 & -> & _ & _ & H).
  rewrite exec_seq, exec_star_greedy in H.
  apply star_greedy_inv in H as (ws & tl1 & Heq & _ & H).
  unfold moved in Heq at 1. cbn [rest] in Heq. subst tl0. cbv beta in H.
  rewrite exec_seq in H.
  apply exec_chr_nocase_inv in H as (x & tl2 & Heq & _ & H).
  unfold moved in Heq. cbn [rest] in Heq. subst tl1. cbv beta in H.
  apply exec_lit_nocase_inv in H as (w & tl & -> & Hw & _ & _).
  replace (pre ++ h ++ ws ++ x :: w ++ tl)
    with ((pre ++ h ++ ws ++ [x]) ++ w ++ tl)
    by (by rewrite <- !app_assoc).
  by apply occurs_nocase_in.
Qed.

(** X18. [parse_function_metadata] fills in nothing but the use count,
    which is never negative; and it stays at the default 0 unless the
    dump holds, ignoring letter case, both the target's name and the
    text [#uses=]. *)
Theorem metadata_only_use_count (text target : str) :
  parse_function_metadata text target
  = set_uses_count (new_metadata target)
      (uses_count (parse_function_metadata text target))
  ∧ (0 ≤ uses_count (parse_function_metadata text target))%Z
  ∧ (uses_count (parse_function_metadata text target) ≠ 0%Z →
     occurs_nocase target text ∧ occurs_nocase (lit_str "#uses=") text).
Proof.
  unfold parse_function_metadata.
  destruct (p_search (metadata_pattern target) text) as [m|] eqn:Hm;
    [|done].
  destruct (p_search USES_RX _) as [um|] eqn:Hu; [|done].
  destruct (Re.group _ um 1) as [ds|] eqn:Hg; [|done].
  destruct (uses_match_inv _ _ _ Hu Hg) as [Hds Hocc].
  cbn [uses_count set_uses_count]. split_and!.
  - done.
  - by apply int_of_digits_nonneg.
  - intros _. split; [by eapply metadata_match_inv|].
    eapply occurs_nocase_trans; [done|apply slice_occurs].
Qed.

End MetadataFacts.

(* ===================================================================== *)
(** * The grammar of a call line *)
(* ===================================================================== *)
Module CallFacts.
Import Re Py Slicer Notions MoreNotions ReFacts PrototypeFacts
  MatchFacts NodeFacts MetadataFacts.
Local Close Scope Z_scope.

Lemma exec_opt ic r cu cs k :
  exec ic (Opt r) cu cs k
  = match exec ic r cu cs k with
    | Some x => Some x
    | None => k cu cs
    end.
Proof. reflexivity. Qed.

Lemma lower_cons (w : str) (c : ascii) (s : str) :
  str_lower w = c :: s →
  ∃ x w', w = x :: w' ∧ Char.lower x = c ∧ str_lower w' = s.
Proof.
  destruct w as [|x w']; [done|]. unfold str_lower. rewrite fmap_cons.
  intros [= Hx Hw]. by exists x, w'.
Qed.

Lemma lower_c_not_space (x : ascii) :
  Char.lower x = "c"%char → Char.isspace x = false.
Proof.
  destruct x as [[] [] [] [] [] [] [] []]; vm_compute; congruence.
Qed.

Lemma lower_gt (x : ascii) : Char.lower x = ">"%char → x = ">"%char.
Proof.
  destruct x as [[] [] [] [] [] [] [] []]; vm_compute; congruence.
Qed.

Lemma lower_quote (x : ascii) : Char.lower x = "'"%char → x = "'"%char.
Proof.
  destruct x as [[] [] [] [] [] [] [] []]; vm_compute; congruence.
Qed.

Lemma exec_chr_nocase_here c tl i pv cs k :
  exec true (Chr c) (Cursor i pv (c :: tl)) cs k
  = k (Cursor (S i) (Some c) tl) cs.
Proof. cbn. unfold chr_eq, Char.eqc. by rewrite Ascii.eqb_refl. Qed.

Lemma exec_lit_nocase_app s w r i pv tl cs k :
  str_lower w = str_lower s →
  exec true (Seq (lit s) r) (Cursor i pv (w ++ tl)) cs k
  = exec true r (moved i pv w tl) cs k.
Proof.
  revert w i pv. induction s as [|c s IH]; intros w i pv Hw.
  - destruct w; [|done]. by rewrite moved_nil.
  - symmetry in Hw. unfold str_lower in Hw. rewrite fmap_cons in Hw.
    symmetry in Hw. apply lower_cons in Hw as (x & w' & -> & Hx & Hw').
    change (lit (c :: s)) with (Seq (Chr c) (lit s)).
    rewrite !exec_seq. cbn [app exec rest pos].
    unfold chr_eq, Char.eqc. rewrite Hx, Ascii.eqb_refl.
    rewrite <- exec_seq, moved_cons. by apply IH.
Qed.

(** The first character of a word read as [calls function '] or as
    [cs<] is a letter c. *)
Lemma keyword_head (kw : str) :
  str_lower kw = lit_str "calls function '" →
  ∃ x kw', kw = x :: kw' ∧ Char.lower x = "c"%char.
Proof. intros (x & kw' & -> & Hx & _)%lower_cons. by exists x, kw'. Qed.

(** ** The words and the name *)

Lemma call_tail_inv must s j pv l cs0 cu' cs :
  exec true call_tail (Cursor j pv l) cs0 (accept must s) = Some (cu', cs) →
  ∃ kw name tl,
    l = kw ++ name ++ "'"%char :: tl
    ∧ str_lower kw = lit_str "calls function '"
    ∧ name ≠ [] ∧ ("'"%char ∉ name)
    ∧ cs = (1, (j + length kw, j + length kw + length name)) :: cs0.
Proof.
  unfold call_tail. intros H.
  apply exec_lit_nocase_inv in H as (kw & tl0 & -> & Hkw & _ & H).
  rewrite exec_seq, exec_grp, exec_star_greedy in H.
  apply star_greedy_inv_lo in H as (name & tl1 & Heq & Hname & Hlo & H).
  unfold moved in Heq at 1. cbn [rest] in Heq. subst tl0. cbv beta in H.
  rewrite exec_seq in H.
  apply exec_chr_nocase_inv in H as (x & tl & Heq & Hx%lower_quote & H).
  unfold moved in Heq. cbn [rest] in Heq. subst tl1 x.
  rewrite exec_eps in H. apply accept_inv in H as [= -> ->].
  exists kw, name, tl. split_and!; [done|done| | |].
  - intros ->. cbn in Hlo. lia.
  - by apply Forall_none_of.
  - unfold moved. cbn [pos]. done.
Qed.

Lemma call_tail_run s j pv kw name tl cs0 :
  str_lower kw = lit_str "calls function '" →
  name ≠ [] → "'"%char ∉ name →
  ∃ cu', exec true call_tail (Cursor j pv (kw ++ name ++ "'"%char :: tl)) cs0
           (accept false s)
         = Some (cu', (1, (j + length kw, j + length kw + length name))
                        :: cs0).
Proof.
  intros Hkw Hne Hq. unfold call_tail. eexists.
  rewrite exec_lit_nocase_app by done.
  rewrite exec_seq, exec_grp, exec_star_greedy.
  unfold moved. cbn [pos prev rest].
  erewrite star_greedy_run_lo;
    [reflexivity|by apply Forall_none_of|by cbn
    |destruct name; [done|cbn; lia]|].
  unfold moved. cbn [pos].
  rewrite exec_seq, exec_chr_nocase_here, exec_eps. unfold accept.
  cbn [andb pos]. reflexivity.
Qed.

(** ** The optional call-site tag *)

Lemma call_site_inv j pv l cs0 k res :
  exec true call_site (Cursor j pv l) cs0 k = Some res →
  ∃ cs inner ws1 tl,
    l = (cs ++ inner ++ ">"%char :: ws1) ++ tl
    ∧ str_lower cs = lit_str "cs<"
    ∧ (">"%char ∉ inner)
    ∧ ws1 ≠ [] ∧ Forall (λ c, Char.isspace c = true) ws1
    ∧ k (moved j pv (cs ++ inner ++ ">"%char :: ws1) tl) cs0 = Some res.
Proof.
  unfold call_site. intros H.
  apply exec_lit_nocase_inv in H as (cs & tl0 & -> & Hcs & _ & H).
  rewrite exec_seq, exec_star_greedy in H.
  apply star_greedy_inv in H as (inner & tl1 & Heq & Hin & H).
  unfold moved in Heq at 1. cbn [rest] in Heq. subst tl0. cbv beta in H.
  rewrite exec_seq in H.
  apply exec_chr_nocase_inv in H as (x & tl2 & Heq & Hx%lower_gt & H).
  unfold moved in Heq. cbn [rest] in Heq. subst tl1 x.
  rewrite exec_seq, exec_star_greedy in H.
  apply star_greedy_inv_lo in H as (ws1 & tl & Heq & Hws & Hlo & H).
  cbn [rest] in Heq. subst tl2. cbv beta in H. rewrite exec_eps in H.
  exists cs, inner, ws1, tl. split_and!.
  - by rewrite <- !app_assoc.
  - done.
  - by apply Forall_none_of.
  - intros ->. cbn in Hlo. lia.
  - done.
  - rewrite <- H. f_equal. unfold moved. cbn [pos prev].
    rewrite !length_app. cbn [length].
    f_equal; [lia|]. by rewrite !last_or_app, last_or_cons.
Qed.

Lemma call_site_run j pv cs inner ws1 tl cs0 k res :
  str_lower cs = lit_str "cs<" → ">"%char ∉ inner →
  ws1 ≠ [] → Forall (λ c, Char.isspace c = true) ws1 →
  match tl with c :: _ => Char.isspace c = false | [] => True end →
  k (moved j pv (cs ++ inner ++ ">"%char :: ws1) tl) cs0 = Some res →
  exec true call_site (Cursor j pv ((cs ++ inner ++ ">"%char :: ws1) ++ tl))
    cs0 k = Some res.
Proof.
  intros Hcs Hin Hne Hws Htl Hk. unfold call_site.
  rewrite <- !app_assoc. rewrite exec_lit_nocase_app by done.
  rewrite exec_seq, exec_star_greedy. unfold moved.
  cbn [pos prev rest].
  apply star_greedy_run; [by apply Forall_none_of|by cbn|].
  unfold moved. cbn [app].
  rewrite exec_seq, exec_chr_nocase_here, exec_seq, exec_star_greedy.
  cbn [pos prev rest].
  apply star_greedy_run_lo; [done|done|destruct ws1; [done|cbn; lia]|].
  rewrite exec_eps. rewrite <- Hk. f_equal. unfold moved.
  rewrite !length_app. cbn [length].
  f_equal; [lia|]. by rewrite !last_or_app, last_or_cons.
Qed.

(** ** A whole call line *)

Lemma call_rx_parts :
  p_rx CALL_RX = Seq Bol (Seq spaces (Seq (Opt call_site) call_tail)).
Proof. reflexivity. Qed.

Lemma shape_head (opt kw r : str) :
  call_site_shape opt → str_lower kw = lit_str "calls function '" →
  match opt ++ kw ++ r with
  | c :: _ => Char.isspace c = false
  | [] => True
  end.
Proof.
  intros [->|(cs1 & inner & ws1 & -> & Hcs & _)] Hkw.
  - apply lower_cons in Hkw as (x & kw' & -> & Hx & _).
    by apply lower_c_not_space.
  - apply lower_cons in Hcs as (x & cs' & -> & Hx & _).
    by apply lower_c_not_space.
Qed.

Lemma call_match_inv must i pv l m :
  match_at true (p_rx CALL_RX) must (Cursor i pv l) = Some m →
  ∃ ws opt kw name tl,
    l = ws ++ opt ++ kw ++ name ++ "'"%char :: tl
    ∧ at_line_start pv
    ∧ Forall (λ c, Char.isspace c = true) ws
    ∧ call_site_shape opt
    ∧ str_lower kw = lit_str "calls function '"
    ∧ name ≠ [] ∧ ("'"%char ∉ name)
    ∧ m_caps m = [(1, (i + length ws + length opt + length kw,
                       i + length ws + length opt + length kw
                       + length name))].
Proof.
  intros (cu' & cs & H & ->)%match_at_inv. rewrite call_rx_parts in H.
  rewrite exec_seq in H. apply exec_bol_inv in H as [Hpv H].
  cbn [prev] in Hpv. unfold spaces in H.
  rewrite exec_seq, exec_star_greedy in H.
  apply star_greedy_inv in H as (ws & tl0 & Heq & Hws & H).
  cbn [rest] in Heq. subst l. cbv beta in H.
  rewrite exec_seq, exec_opt in H. unfold moved in H.
  destruct (exec true call_site _ _ _) as [res|] eqn:Hg.
  - injection H as ->.
    apply call_site_inv in Hg
      as (cs1 & inner & ws1 & tl1 & -> & Hcs & Hin & Hne & Hws1 & Hk).
    unfold moved in Hk. cbv beta in Hk.
    apply call_tail_inv in Hk as (kw & name & tl & -> & Hkw & Hn & Hq & ->).
    exists ws, (cs1 ++ inner ++ ">"%char :: ws1), kw, name, tl.
    split_and!; try done.
    right. by exists cs1, inner, ws1.
  - apply call_tail_inv in H as (kw & name & tl & -> & Hkw & Hn & Hq & ->).
    exists ws, [], kw, name, tl. split_and!; try done; [by left|].
    cbn [m_caps length pos]. do 3 f_equal; lia.
Qed.

Lemma call_match_run i pv ws opt kw name tl :
  at_line_start pv →
  Forall (λ c, Char.isspace c = true) ws →
  call_site_shape opt →
  str_lower kw = lit_str "calls function '" →
  name ≠ [] → "'"%char ∉ name →
  ∃ e, match_at true (p_rx CALL_RX) false
         (Cursor i pv (ws ++ opt ++ kw ++ name ++ "'"%char :: tl))
       = Some (RMatch i e
                 [(1, (i + length ws + length opt + length kw,
                       i + length ws + length opt + length kw
                       + length name))]).
Proof.
  intros Hpv Hws Hopt Hkw Hne Hq.
  assert (∃ cu', exec true (Seq (Opt call_site) call_tail)
                   (moved i pv ws (opt ++ kw ++ name ++ "'"%char :: tl)) []
                   (accept false i)
                 = Some (cu', [(1, (i + length ws + length opt + length kw,
                                    i + length ws + length opt + length kw
                                    + length name))])) as [cu' Hrest].
  { destruct Hopt as [->|(cs1 & inner & ws1 & -> & Hcs & Hin & Hw1 & Hws1)].
    - destruct (call_tail_run i (i + length ws) (last_or pv ws) kw name tl []
                  Hkw Hne Hq) as [cu' Hrun].
      exists cu'. rewrite exec_seq, exec_opt. unfold moved. cbn [app].
      destruct (exec true call_site _ _ _) as [res|] eqn:Hg.
      + exfalso.
        apply call_site_inv in Hg as (cs1 & ? & ? & ? & Heq & Hcs & _).
        apply lower_cons in Hkw as (k0 & kw1 & -> & _ & Hkw).
        apply lower_cons in Hkw as (k1 & kw2 & -> & Hk1 & _).
        apply lower_cons in Hcs as (c0 & cs2 & -> & _ & Hcs).
        apply lower_cons in Hcs as (c1 & cs3 & -> & Hc1 & _).
        cbn [app] in Heq. injection Heq as _ -> _. congruence.
      + rewrite Hrun. cbn [length]. by rewrite !Nat.add_0_r.
    - destruct (call_tail_run i
                  (i + length ws + length (cs1 ++ inner ++ ">"%char :: ws1))
                  (last_or (last_or pv ws) (cs1 ++ inner ++ ">"%char :: ws1))
                  kw name tl [] Hkw Hne Hq) as [cu' Hrun].
      exists cu'. rewrite exec_seq, exec_opt. unfold moved at 1.
      erewrite call_site_run; [reflexivity|done|done|done|done| |].
      + destruct (keyword_head kw Hkw) as (x & kw' & -> & Hx).
        by apply lower_c_not_space.
      + unfold moved. exact Hrun. }
  exists (pos cu'). unfold match_at. rewrite call_rx_parts.
  rewrite exec_seq, exec_bol_here by done. unfold spaces at 1.
  rewrite exec_seq, exec_star_greedy. cbn [pos prev rest].
  erewrite star_greedy_run; [|done|by apply shape_head|exact Hrest].
  done.
Qed.

(** A call line is no header line. *)
Lemma call_shape_no_header (name line : str) :
  call_shape name line → p_match NODE_RX line = None.
Proof.
  intros (ws & opt & kw & tl & -> & Hws & Hopt & Hkw & _).
  unfold p_match, rmatch_prefix. change (p_ic NODE_RX) with false.
  destruct (match_at false (p_rx NODE_RX) false _) as [m|] eqn:Hm; [|done].
  exfalso. apply node_match_inv in Hm as (ws' & nm & tl' & Heq & _).
  unfold node_header, lit_str in Heq. cbn [list_ascii_of_string app] in Heq.
  destruct ws as [|w0 ws].
  - cbn [app] in Heq.
    destruct Hopt as [->|(cs1 & inner & ws1 & -> & Hcs & _)].
    + do 5 (apply lower_cons in Hkw as (? & ? & -> & ? & Hkw)).
      cbn [app] in Heq. injection Heq as -> -> -> -> -> _. done.
    + do 2 (apply lower_cons in Hcs as (? & ? & -> & ? & Hcs)).
      cbn [app] in Heq. injection Heq as -> -> _. done.
  - cbn [app] in Heq. injection Heq as -> _.
    apply Forall_cons in Hws as [Hw0 _]. done.
Qed.

(** X19. A line that is no header line is a call line for [name]
    exactly when it holds, in this order: white space (possibly none);
    optionally a call-site tag [CS<...>] followed by white space; the
    words [calls function], in any letter case; and [name] between
    single quotes, [name] being non-empty and free of single quotes. *)
Theorem call_line_grammar (line name : str) :
  callee_of line = Some name ↔ call_shape name line.
Proof.
  split.
  - unfold callee_of. destruct (p_match NODE_RX line); [done|].
    unfold p_match, rmatch_prefix. change (p_ic CALL_RX) with true.
    destruct (match_at true (p_rx CALL_RX) false (Cursor 0 None line))
      as [m|] eqn:Hm; [|done].
    apply call_match_inv in Hm
      as (ws & opt & kw & nm & tl & -> & _ & Hws & Hopt & Hkw & Hn & Hq & Hc).
    replace (ws ++ opt ++ kw ++ nm ++ "'"%char :: tl)
      with ((ws ++ opt ++ kw) ++ nm ++ "'"%char :: tl)
      by (by rewrite <- !app_assoc).
    rewrite (group_of_span _ _ _ _ _ _ Hc);
      [|rewrite !length_app; lia|done].
    intros [= <-]. exists ws, opt, kw, tl.
    by rewrite <- !app_assoc.
  - intros Hshape. unfold callee_of.
    rewrite (call_shape_no_header name line Hshape).
    destruct Hshape as (ws & opt & kw & tl & -> & Hws & Hopt & Hkw & Hn & Hq).
    unfold p_match, rmatch_prefix. change (p_ic CALL_RX) with true.
    destruct (call_match_run 0 None ws opt kw name tl) as [e ->]; try done.
    replace (ws ++ opt ++ kw ++ name ++ "'"%char :: tl)
      with ((ws ++ opt ++ kw) ++ name ++ "'"%char :: tl)
      by (by rewrite <- !app_assoc).
    apply (group_of_span _ _ _ _
             (0 + length ws + length opt + length kw)
             (0 + length ws + length opt + length kw + length name));
      [done|rewrite !length_app; lia|done].
Qed.

End CallFacts.

(* ===================================================================== *)
(** * The context snippets of the scanner *)
(* ===================================================================== *)
Module ContextFacts.
Import Re Py Slicer Notions MoreNotions UsageFacts SnippetFacts.

Lemma replace_nl_space_no_nl (s : str) : Char.nl ∉ replace_nl_space s.
Proof.
  unfold replace_nl_space. rewrite list_elem_of_fmap. intros (c & Hc & _).
  unfold Char.eqc in Hc. by destruct (Ascii.eqb_spec Char.nl c).
Qed.

Lemma window_of_slice (c_text : str) (a b : Z) :
  window_of c_text (replace_nl_space (Py.slice c_text a b)).
Proof.
  split; [apply replace_nl_space_no_nl|].
  exists (Py.slice c_text a b). split; [apply py_slice_occurs|done].
Qed.

Lemma addr_step_shown c_text r m :
  well_shown c_text r → well_shown c_text (addr_step c_text r m).
Proof.
  intros [_ Hw]. split; cbn [addr_step Usage.context_snippets].
  - intros _. by destruct (Usage.context_snippets r).
  - apply Forall_app. split; [done|].
    apply Forall_singleton, window_of_slice.
Qed.

Lemma registration_step_shown c_text target r m :
  well_shown c_text r →
  well_shown c_text (registration_step c_text target r m).
Proof.
  intros [He Hw]. unfold registration_step. case_bool_decide; [|done].
  split; cbn [Usage.context_snippets].
  - intros _. by destruct (Usage.context_snippets r).
  - apply Forall_app. split; [done|].
    apply Forall_singleton, window_of_slice.
Qed.

Lemma bare_step_shown c_text r m :
  well_shown c_text r → well_shown c_text (bare_step c_text r m).
Proof.
  intros [He Hw]. unfold bare_step.
  destruct (_ <? Py.len c_text); [|done].
  destruct (_ && _); [|done].
  destruct (Z.ltb_spec (Z.of_nat (length (Usage.context_snippets r))) 5)
    as [Hlt|Hge]; split; cbn [Usage.context_snippets].
  - intros _. by destruct (Usage.context_snippets r).
  - apply Forall_app. split; [done|].
    apply Forall_singleton, window_of_slice.
  - intros _. destruct (Usage.context_snippets r); [cbn in Hge; lia|done].
  - done.
Qed.

(** X20. Whenever [check_function_pointer_usage] reports evidence (the
    address-taken flag, a registration or a suspicious pattern), it
    also gives at least one context snippet; and every snippet is free
    of line feeds and shows a contiguous piece of the C text, its line
    feeds replaced by spaces. *)
Theorem evidence_comes_with_context (c_text target : str) :
  (reports_evidence (check_function_pointer_usage c_text target) →
   Usage.context_snippets (check_function_pointer_usage c_text target) ≠ [])
  ∧ Forall (window_of c_text)
      (Usage.context_snippets (check_function_pointer_usage c_text target)).
Proof.
  change (well_shown c_text (check_function_pointer_usage c_text target)).
  unfold check_function_pointer_usage.
  apply (fold_left_preserves _ (well_shown c_text));
    [|intros r m _; apply bare_step_shown].
  apply (fold_left_preserves _ (well_shown c_text)).
  - apply (fold_left_preserves _ (well_shown c_text));
      [|intros r m _; apply addr_step_shown].
    split; [|done]. by intros [?|[?|?]].
  - intros r p _ Hr.
    apply (fold_left_preserves _ (well_shown c_text)); [done|].
    intros r' m _. apply registration_step_shown.
Qed.

End ContextFacts.

(* ===================================================================== *)
(** * What a successful removal leaves *)
(* ===================================================================== *)
Module FrameFacts.
Import Re Py Slicer App Notions MoreNotions ReFacts PyFacts AppFacts
  PrototypeFacts MatchFacts LocateFacts NodeFacts.

(** ** Success of the matcher and the continuation *)

Lemma star_greedy_passes p lo k1 k2 c1 c2 i pv l cnt :
  passes k1 k2 →
  is_Some (star_greedy p lo k1 c1 i pv l cnt) →
  is_Some (star_greedy p lo k2 c2 i pv l cnt).
Proof.
  intros Hk. revert i pv cnt.
  induction l as [|c l IH]; intros i pv cnt; cbn [star_greedy].
  - destruct (lo <=? cnt)%nat; [apply Hk|done].
  - destruct (p c).
    + destruct (star_greedy p lo k1 c1 (S i) (Some c) l (S cnt)) eqn:H1.
      * intros _. destruct (IH (S i) (Some c) (S cnt)) as [x ->];
          [by rewrite H1|]. by eexists.
      * destruct (star_greedy p lo k2 c2 (S i) (Some c) l (S cnt));
          [by eexists|].
        destruct (lo <=? cnt)%nat; [apply Hk|done].
    + destruct (lo <=? cnt)%nat; [apply Hk|done].
Qed.

Lemma star_lazy_passes p lo k1 k2 c1 c2 i pv l cnt :
  passes k1 k2 →
  is_Some (star_lazy p lo k1 c1 i pv l cnt) →
  is_Some (star_lazy p lo k2 c2 i pv l cnt).
Proof.
  intros Hk. revert i pv cnt.
  induction l as [|c l IH]; intros i pv cnt; cbn [star_lazy].
  - destruct (lo <=? cnt)%nat; [|by intros [? ?]].
    destruct (k1 (Cursor i pv []) c1) eqn:H1; [|by intros [? ?]].
    intros _. destruct (Hk (Cursor i pv []) c1 c2) as [x ->];
      [by rewrite H1|]. by eexists.
  - destruct (lo <=? cnt)%nat.
    + destruct (k1 (Cursor i pv (c :: l)) c1) eqn:H1.
      * intros _. destruct (Hk (Cursor i pv (c :: l)) c1 c2) as [x ->];
          [by rewrite H1|]. by eexists.
      * destruct (k2 (Cursor i pv (c :: l)) c2); [by eexists|].
        destruct (p c); [apply IH|done].
    + destruct (p c); [apply IH|done].
Qed.

Lemma exec_passes ic r : ∀ cu c1 c2 k1 k2,
  passes k1 k2 →
  is_Some (exec ic r cu c1 k1) → is_Some (exec ic r cu c2 k2).
Proof.
  induction r as [|c|p|r1 IH1 r2 IH2|r1 IH1 r2 IH2|g lo p|r1 IH1|n r1 IH1
                  | | |p|p];
    intros cu c1 c2 k1 k2 Hk; cbn [exec].
  - apply Hk.
  - destruct (rest cu) as [|x tl]; [done|].
    destruct (chr_eq ic c x); [apply Hk|done].
  - destruct (rest cu) as [|x tl]; [done|].
    destruct (p x); [apply Hk|done].
  - apply IH1. intros cu' d1 d2. by apply IH2.
  - destruct (exec ic r1 cu c1 k1) eqn:H1.
    + intros _. destruct (IH1 cu c1 c2 k1 k2 Hk) as [x ->];
        [by rewrite H1|]. by eexists.
    + destruct (exec ic r1 cu c2 k2); [by eexists|]. by apply IH2.
  - destruct g; [by apply star_greedy_passes|by apply star_lazy_passes].
  - destruct (exec ic r1 cu c1 k1) eqn:H1.
    + intros _. destruct (IH1 cu c1 c2 k1 k2 Hk) as [x ->];
        [by rewrite H1|]. by eexists.
    + destruct (exec ic r1 cu c2 k2); [by eexists|]. apply Hk.
  - apply IH1. intros cu' d1 d2. apply Hk.
  - destruct (prev cu) as [c|]; [|apply Hk].
    destruct (Char.eqc Char.nl c); [apply Hk|done].
  - destruct (xorb _ _); [apply Hk|done].
  - destruct (prev cu) as [c|]; [|apply Hk].
    destruct (p c); [done|apply Hk].
  - destruct (rest cu) as [|c tl]; [apply Hk|].
    destruct (p c); [done|apply Hk].
Qed.

(** The leftmost match: no match starts before it. *)
Lemma search_from_first ic r i pv l m :
  search_from ic r i pv l = Some m →
  ∃ w tl, l = w ++ tl
    ∧ match_at ic r false (moved i pv w tl) = Some m
    ∧ ∀ w1 c w2, w = w1 ++ c :: w2 →
        match_at ic r false (moved i pv w1 (c :: w2 ++ tl)) = None.
Proof.
  revert i pv. induction l as [|c tl IH]; intros i pv; cbn [search_from];
    destruct (match_at ic r false (Cursor i pv _)) as [m0|] eqn:H0.
  - intros [= <-]. exists [], []. rewrite moved_nil.
    split_and!; [done|done|]. by intros [|??] ??.
  - done.
  - intros [= <-]. exists [], (c :: tl). rewrite moved_nil.
    split_and!; [done|done|]. by intros [|??] ??.
  - intros (w & tl' & -> & Hm & Hfirst)%IH. exists (c :: w), tl'.
    rewrite moved_cons. split_and!; [done|done|].
    intros [|x w1] c' w2 Heq.
    + injection Heq as <- <-. by rewrite moved_nil.
    + injection Heq as <- ->. rewrite moved_cons. by apply Hfirst.
Qed.

(** ** Where the first match of the pattern starts *)

(** The first match of [definition_rx] starts at index 0 or at a line
    feed: a match that starts after a line feed has a match that starts
    at this line feed before it. *)
Lemma definition_opens_line (func text : str) (m : rmatch) :
  search false (definition_rx func) text = Some m →
  m_start m = 0%nat ∨ text !! m_start m = Some Char.nl.
Proof.
  unfold search.
  intros (w & tl & -> & Hm & Hfirst)%search_from_first.
  destruct w as [|c w _] using rev_ind.
  { left. rewrite moved_nil in Hm.
    by apply match_at_inv in Hm as (? & ? & _ & ->). }
  right. specialize (Hfirst w c [] eq_refl). cbn [app] in Hfirst.
  apply match_at_inv in Hm as (cu' & cs & Hm & ->).
  unfold moved in Hm |- *. cbn [pos m_start] in *.
  rewrite last_or_app in Hm. cbn [Nat.add].
  change (last_or (last_or None w) [c]) with (Some c) in Hm.
  unfold definition_rx in Hm.
  change (seqs (?a :: ?r)) with (Seq a (seqs r)) in Hm.
  rewrite exec_grp, exec_seq, exec_alt in Hm.
  match type of Hm with
  | match ?e with _ => _ end = _ => destruct e as [res|] eqn:Hbol
  end.
  - exfalso. apply exec_bol_inv in Hbol as [Hc Hrest].
    unfold at_line_start in Hc. cbn [prev] in Hc. subst c.
    assert (is_Some (match_at false (definition_rx func) false
                       (moved 0 None w (Char.nl :: tl)))) as [m' Hm'].
    { unfold match_at, definition_rx.
      change (seqs (?a :: ?r)) with (Seq a (seqs r)).
      rewrite exec_grp, exec_seq, exec_alt.
      match goal with
      | |- is_Some (match match ?e with _ => _ end with _ => _ end) =>
          destruct e as [[cu1 cs1]|] eqn:Hb
      end; [by eexists|].
      unfold moved. rewrite exec_chr_here.
      match goal with
      | |- is_Some (match ?e with _ => _ end) =>
          assert (is_Some e) as [[cu2 cs2] ->]; [|by eexists]
      end.
      rewrite length_app in Hrest. cbn [length] in Hrest.
      replace (S (0 + length w))%nat with (0 + (length w + 1))%nat by lia.
      eapply exec_passes; [|by rewrite Hrest].
      intros cu c1 c2 _. by eexists. }
    by rewrite Hfirst in Hm'.
  - apply exec_chr_inv in Hm as (tl' & Heq & _). cbn [rest] in Heq.
    subst tl. rewrite lookup_app_r by (rewrite length_app; cbn; lia).
    rewrite length_app. cbn [length]. by rewrite Nat.sub_diag.
Qed.

(** ** The span that is cut *)

Lemma cut_span_exact text sig_start at_i :
  0 ≤ sig_start ≤ at_i → at_i < len text →
  cut_span text sig_start at_i
  = Ok (span_start text sig_start, span_end text at_i).
Proof.
  intros Hs Ha. unfold cut_span, newline_before, span_start, span_end.
  assert ((if 0 <? sig_start
           then bind (index text (sig_start - 1))
                  (λ c, Ok (Char.eqc Char.nl c))
           else Ok false)
          = Ok (bool_decide
                  (0 < sig_start
                   ∧ text !! Z.to_nat (sig_start - 1) = Some Char.nl)))
    as ->.
  { destruct (Z.ltb_spec 0 sig_start) as [Hpos|Hneg].
    - destruct (index_in_range text (sig_start - 1)) as (c & -> & Hc);
        [lia|].
      cbn [bind]. f_equal. rewrite Hc. unfold Char.eqc.
      destruct (Ascii.eqb_spec Char.nl c) as [<-|Hne].
      + by rewrite bool_decide_eq_true_2.
      + rewrite bool_decide_eq_false_2; [done|]. intros [_ [= ->]]. done.
    - f_equal. rewrite bool_decide_eq_false_2; [done|]. intros [? _]. lia. }
  cbn [bind].
  assert (newline_at text (at_i + 1)
          = Ok (bool_decide (text !! Z.to_nat (at_i + 1) = Some Char.nl)))
    as ->.
  { destruct (text !! Z.to_nat (at_i + 1)) as [c|] eqn:Hc.
    - rewrite (newline_at_lookup text (at_i + 1) c) by (done || lia).
      f_equal. unfold Char.eqc.
      destruct (Ascii.eqb_spec Char.nl c) as [<-|Hne].
      + by rewrite bool_decide_eq_true_2.
      + rewrite bool_decide_eq_false_2; [done|]. intros [= ->]. done.
    - rewrite newline_at_end.
      + by rewrite bool_decide_eq_false_2.
      + apply lookup_ge_None_1 in Hc. unfold len. lia. }
  cbn [bind]. do 2 f_equal. case_bool_decide; lia.
Qed.




End FrameFacts.
